(** * A shallow embedding of the Sudoku game of [script.js]

    The development follows the source file top-down: the random shuffle,
    the backtracking solution generator, the clue-removal step, and then
    the game session with its event handlers and its persistence.

    Conventions.
    - Cell values are JavaScript numbers that only ever hold small
      integers; they are modelled as [Z].  Loop counters and cell indices
      are never negative and are modelled as [nat].
    - A JavaScript array is a [list]; [a[i]] is stdpp's [a !! i], whose
      [None] is JavaScript's [undefined].
    - [Math.random] is an oracle: a stream of draws threaded through every
      function that shuffles; [Date.now()] is an argument of the handler
      that reads it.
    - The three grids of a session never share a row array:
      [generatePuzzle], [startNewGame] and [resetGame] copy row by row and
      [JSON.parse] builds fresh arrays.  A session is therefore a record
      of values; the module [Heap] models the one copy that a statement
      below is about.
    - The DOM is written and never read back, except for the value of the
      difficulty selector and the status text, which are fields of the
      world. *)

From stdpp Require Import base numbers option list strings pretty.

(** ** Randomness *)

(** The stream of values that [Math.random] will deliver.  The only use of
    [Math.random] in the source is [Math.floor(Math.random() * (i + 1))],
    an integer in [0, i]; [randomBelow n] is that integer for [n = i + 1]. *)
Definition Rng := nat → nat.

Definition randomBelow (n : nat) (rng : Rng) : nat * Rng :=
  (rng 0 mod n, λ k, rng (S k)).

(** ** shuffleArray (Fisher-Yates) *)

(** [[arr[i], arr[j]] = [arr[j], arr[i]]]: both reads happen first, then
    [arr[i]] is written, then [arr[j]]. *)
Definition swap {A} (arr : list A) (i j : nat) : list A :=
  match arr !! i, arr !! j with
  | Some x, Some y => <[j:=x]> (<[i:=y]> arr)
  | _, _ => arr
  end.

(** The loop [for (let i = arr.length - 1; i > 0; i--)], entered at [i]. *)
Fixpoint shuffleLoop {A} (i : nat) (arr : list A) (rng : Rng) : list A * Rng :=
  match i with
  | 0 => (arr, rng)
  | S i' =>
      let '(j, rng') := randomBelow (i + 1) rng in
      shuffleLoop i' (swap arr i j) rng'
  end.

Definition shuffleArray {A} (array : list A) (rng : Rng) : list A * Rng :=
  shuffleLoop (length array - 1) array rng.

(** ** Grids *)

Abbreviation Grid := (list (list Z)) (only parsing).

(** [grid[r][c]]; [None] is [undefined].  (With [r] outside the grid the
    source raises a TypeError instead; every caller uses [r < 9] on a grid
    of nine rows, and the theorems below carry that as [wfGrid].) *)
Definition get (g : Grid) (r c : nat) : option Z := g !! r ≫= (.!! c).

(** [grid[r][c] = v] for a cell inside the grid. *)
Definition set (g : Grid) (r c : nat) (v : Z) : Grid := alter (<[c:=v]>) r g.

(** [grid[r][c] === v] *)
Definition cellIs (g : Grid) (r c : nat) (v : Z) : bool :=
  bool_decide (get g r c = Some v).

Definition wfGrid (g : Grid) : Prop :=
  length g = 9 ∧ Forall (λ row, length row = 9) g.

(** [Array(9).fill(null).map(() => Array(9).fill(0))] *)
Definition zeroGrid : Grid := replicate 9 (replicate 9 0%Z).

Definition digits : list Z := [1; 2; 3; 4; 5; 6; 7; 8; 9]%Z.

(** The 81 cells in row-major order, the order of the nested [for] loops. *)
Definition allCells : list (nat * nat) :=
  r ← seq 0 9; c ← seq 0 9; [(r, c)].

(** ** findEmptyCell and isValidPlacement *)

Definition findEmptyCell (grid : Grid) : option (nat * nat) :=
  find (λ '(row, col), cellIs grid row col 0) allCells.

(** The cells visited by the three scans that [isValidPlacement],
    [findFinalNumber] and [autoFillPossibleNumbers] all make: the row, the
    column, and the 3x3 box starting at [(boxRow, boxCol)]. *)
Definition rowCells (row : nat) : list (nat * nat) :=
  c ← seq 0 9; [(row, c)].
Definition colCells (col : nat) : list (nat * nat) :=
  r ← seq 0 9; [(r, col)].
Definition boxCells (boxRow boxCol : nat) : list (nat * nat) :=
  r ← seq boxRow 3; c ← seq boxCol 3; [(r, c)].

Definition isValidPlacement (grid : Grid) (row col : nat) (num : Z) : bool :=
  forallb (λ '(r, c), negb (cellIs grid r c num)) (rowCells row)
  && forallb (λ '(r, c), negb (cellIs grid r c num)) (colCells col)
  && (let boxRow := row / 3 * 3 in
      let boxCol := col / 3 * 3 in
      forallb (λ '(r, c), negb (cellIs grid r c num)) (boxCells boxRow boxCol)).

(** ** fillGrid and generateSolution *)

(** The result of a call: the returned boolean, the grid as the call left
    it (the source mutates it in place) and the rest of the random stream. *)
Definition FillResult : Type := bool * Grid * Rng.

(** The body of [for (const num of numbers)], with the recursive call
    abstracted as [rec]. *)
Fixpoint tryNumbers (rec : Grid → Rng → option FillResult)
    (row col : nat) (numbers : list Z) (grid : Grid) (rng : Rng)
    : option FillResult :=
  match numbers with
  | [] => Some (false, grid, rng)
  | num :: rest =>
      if isValidPlacement grid row col num then
        match rec (set grid row col num) rng with
        | None => None
        | Some (true, g, rng') => Some (true, g, rng')
        | Some (false, g, rng') =>
            tryNumbers rec row col rest (set g row col 0) rng'
        end
      else tryNumbers rec row col rest grid rng
  end.

(** [fuel] bounds the recursion depth; [None] means the bound was hit.
    [fillGrid_total] below shows that one more than the number of empty
    cells is always enough. *)
Fixpoint fillGrid (fuel : nat) (grid : Grid) (rng : Rng) : option FillResult :=
  match fuel with
  | 0 => None
  | S fuel' =>
      match findEmptyCell grid with
      | None => Some (true, grid, rng)
      | Some (row, col) =>
          let '(numbers, rng1) := shuffleArray digits rng in
          tryNumbers (fillGrid fuel') row col numbers grid rng1
      end
  end.

(** [generateSolution] ignores the boolean of [fillGrid] and returns the
    grid.  The recursion is at most 82 calls deep on a 9x9 grid. *)
Definition generateSolution (rng : Rng) : option (Grid * Rng) :=
  match fillGrid 82 zeroGrid rng with
  | Some (_, grid, rng') => Some (grid, rng')
  | None => None
  end.

(** A stream under which every shuffle of nine elements is the identity. *)
Definition identityDraws : Rng := λ k, 8 - k mod 8.


(** ** generatePuzzle *)

Record Level := { cellsToRemove : nat; levelName : string }.

(** [DIFFICULTY_LEVELS[difficulty]]; [None] is [undefined].  (The names
    that every object inherits, such as "constructor", are not keys of
    the table and are left out.) *)
Definition DIFFICULTY_LEVELS (difficulty : string) : option Level :=
  if String.eqb difficulty "low" then Some {| cellsToRemove := 30; levelName := "Low" |}
  else if String.eqb difficulty "medium" then Some {| cellsToRemove := 45; levelName := "Medium" |}
  else if String.eqb difficulty "high" then Some {| cellsToRemove := 55; levelName := "High" |}
  else None.

(** The loop [for (const pos of positions)] with its counter [removed]. *)
Fixpoint removeCells (toRemove : nat) (positions : list nat) (removed : nat)
    (puzzle : Grid) : Grid :=
  match positions with
  | [] => puzzle
  | pos :: rest =>
      if toRemove <=? removed then puzzle
      else
        let row := pos / 9 in
        let col := pos mod 9 in
        removeCells toRemove rest (S removed) (set puzzle row col 0)
  end.

(** [None] is the TypeError of reading [cellsToRemove] off [undefined]. *)
Definition generatePuzzle (solution : Grid) (difficulty : string) (rng : Rng)
    : option (Grid * Rng) :=
  let puzzle := (λ row : list Z, row) <$> solution in
  level ← DIFFICULTY_LEVELS difficulty;
  let '(positions, rng') := shuffleArray (seq 0 81) rng in
  Some (removeCells (cellsToRemove level) positions 0 puzzle, rng').

(** *** generatePuzzle over an explicit store

    [generatePuzzle] writes into arrays, so whether its argument survives
    the call depends on which arrays the writes reach.  Here the row
    arrays live in a store and a grid is the list of the addresses of its
    rows (the outer array is never written to by the source, so it stays
    a value). *)
Module Heap.

Abbreviation Store := (list (list Z)) (only parsing).
Abbreviation GridRef := (list nat) (only parsing).

(** The grid a reference denotes. *)
Definition deref (h : Store) (g : GridRef) : option Grid :=
  mapM (λ a, h !! a) g.

(** [solution.map(row => [...row])]: one fresh array per row. *)
Fixpoint copyRows (h : Store) (g : GridRef) : option (Store * GridRef) :=
  match g with
  | [] => Some (h, [])
  | a :: rest =>
      row ← h !! a;
      let fresh := length h in
      '(h', rest') ← copyRows (h ++ [row]) rest;
      Some (h', fresh :: rest')
  end.

(** [puzzle[row][col] = v] *)
Definition write (h : Store) (g : GridRef) (row col : nat) (v : Z)
    : option Store :=
  a ← g !! row;
  cells ← h !! a;
  Some (<[a := <[col := v]> cells]> h).

Fixpoint removeCells (toRemove : nat) (positions : list nat) (removed : nat)
    (puzzle : GridRef) (h : Store) : option Store :=
  match positions with
  | [] => Some h
  | pos :: rest =>
      if toRemove <=? removed then Some h
      else
        let row := pos / 9 in
        let col := pos mod 9 in
        h' ← write h puzzle row col 0;
        removeCells toRemove rest (S removed) puzzle h'
  end.

Definition generatePuzzle (h : Store) (solution : GridRef)
    (difficulty : string) (rng : Rng) : option (Store * GridRef * Rng) :=
  '(h1, puzzle) ← copyRows h solution;
  level ← DIFFICULTY_LEVELS difficulty;
  let '(positions, rng') := shuffleArray (seq 0 81) rng in
  h2 ← removeCells (cellsToRemove level) positions 0 puzzle h1;
  Some (h2, puzzle, rng').

End Heap.

(** Number of cells of a grid that hold 0. *)
Definition countZeros (g : Grid) : nat :=
  sum_list ((λ row, length (filter (λ v, v = 0%Z) row)) <$> g).

(** ** JavaScript [Set]s of numbers

    A [Set] iterates in insertion order and holds no duplicates: a list
    without duplicates, oldest element first. *)
Abbreviation JSSet := (list Z) (only parsing).

Definition setHas (s : JSSet) (x : Z) : bool := bool_decide (x ∈ s).
Definition setAdd (s : JSSet) (x : Z) : JSSet := if setHas s x then s else s ++ [x].
Definition setDelete (s : JSSet) (x : Z) : JSSet := filter (λ y, y ≠ x) s.
Definition setClear (s : JSSet) : JSSet := [].
Definition setSize (s : JSSet) : nat := length s.
(** [new Set(arr)] *)
Definition setFromArray (arr : list Z) : JSSet := foldl setAdd [] arr.
(** [Array.from(set)] *)
Definition arrayFromSet (s : JSSet) : list Z := s.

(** ** The game state *)

Record GameState := {
  puzzle : Grid;
  solution : Grid;
  userValues : Grid;
  possibleNumbers : list JSSet;
  selectedCell : option nat;
  difficulty : string;
  startTime : option Z;
  elapsedTime : Z;
  isCompleted : bool;
  showErrors : bool
}.

(** The record written under [STORAGE_KEY].  [JSON.stringify] followed by
    [JSON.parse] returns a structurally equal fresh value, so the stored
    item is modelled by the record itself.  The three fields that
    [loadGameState] defaults may be absent. *)
Record SavedState := {
  saved_puzzle : Grid;
  saved_solution : Grid;
  saved_userValues : Grid;
  saved_possibleNumbers : list (list Z);
  saved_selectedCell : option nat;
  saved_difficulty : string;
  saved_elapsedTime : option Z;
  saved_isCompleted : option bool;
  saved_showErrors : option bool
}.

(** The four texts that [statusElement.textContent] is ever given. *)
Inductive Status :=
  | StatusNone          (* '' *)
  | StatusCompleted     (* 'Completed!' *)
  | StatusIncorrect     (* 'Some numbers are incorrect' *)
  | StatusAllCorrect.   (* 'All entered numbers are correct' *)

(** Everything the handlers read or write besides the DOM tree of the
    board, which [renderBoard] rebuilds from [gameState] and which nothing
    reads back. *)
Record World := {
  gameState : GameState;
  timerInterval : bool;                 (* an interval is scheduled *)
  lastKeyPress : option string * Z;
  statusText : Status;
  difficultySelect : string;            (* difficultySelect.value *)
  localStorage : option SavedState;     (* the item under STORAGE_KEY *)
  storageRejectsWrites : bool;          (* localStorage.setItem throws *)
  random : Rng                          (* what Math.random will return *)
}.

Definition initialGameState : GameState :=
  {| puzzle := []; solution := []; userValues := []; possibleNumbers := [];
     selectedCell := None; difficulty := "low"; startTime := None;
     elapsedTime := 0; isCompleted := false; showErrors := false |}.

(** *** Field updates *)

Definition withGameState (gs : GameState) (w : World) : World :=
  {| gameState := gs; timerInterval := timerInterval w;
     lastKeyPress := lastKeyPress w; statusText := statusText w;
     difficultySelect := difficultySelect w; localStorage := localStorage w;
     storageRejectsWrites := storageRejectsWrites w; random := random w |}.
Definition withTimerInterval (t : bool) (w : World) : World :=
  {| gameState := gameState w; timerInterval := t;
     lastKeyPress := lastKeyPress w; statusText := statusText w;
     difficultySelect := difficultySelect w; localStorage := localStorage w;
     storageRejectsWrites := storageRejectsWrites w; random := random w |}.
Definition withLastKeyPress (k : option string * Z) (w : World) : World :=
  {| gameState := gameState w; timerInterval := timerInterval w;
     lastKeyPress := k; statusText := statusText w;
     difficultySelect := difficultySelect w; localStorage := localStorage w;
     storageRejectsWrites := storageRejectsWrites w; random := random w |}.
Definition withStatusText (s : Status) (w : World) : World :=
  {| gameState := gameState w; timerInterval := timerInterval w;
     lastKeyPress := lastKeyPress w; statusText := s;
     difficultySelect := difficultySelect w; localStorage := localStorage w;
     storageRejectsWrites := storageRejectsWrites w; random := random w |}.
Definition withDifficultySelect (d : string) (w : World) : World :=
  {| gameState := gameState w; timerInterval := timerInterval w;
     lastKeyPress := lastKeyPress w; statusText := statusText w;
     difficultySelect := d; localStorage := localStorage w;
     storageRejectsWrites := storageRejectsWrites w; random := random w |}.
Definition withLocalStorage (s : option SavedState) (w : World) : World :=
  {| gameState := gameState w; timerInterval := timerInterval w;
     lastKeyPress := lastKeyPress w; statusText := statusText w;
     difficultySelect := difficultySelect w; localStorage := s;
     storageRejectsWrites := storageRejectsWrites w; random := random w |}.
Definition withRandom (r : Rng) (w : World) : World :=
  {| gameState := gameState w; timerInterval := timerInterval w;
     lastKeyPress := lastKeyPress w; statusText := statusText w;
     difficultySelect := difficultySelect w; localStorage := localStorage w;
     storageRejectsWrites := storageRejectsWrites w; random := r |}.

Definition withUserValues (v : Grid) (gs : GameState) : GameState :=
  {| puzzle := puzzle gs; solution := solution gs; userValues := v;
     possibleNumbers := possibleNumbers gs; selectedCell := selectedCell gs;
     difficulty := difficulty gs; startTime := startTime gs;
     elapsedTime := elapsedTime gs; isCompleted := isCompleted gs;
     showErrors := showErrors gs |}.
Definition withPossibleNumbers (p : list JSSet) (gs : GameState) : GameState :=
  {| puzzle := puzzle gs; solution := solution gs; userValues := userValues gs;
     possibleNumbers := p; selectedCell := selectedCell gs;
     difficulty := difficulty gs; startTime := startTime gs;
     elapsedTime := elapsedTime gs; isCompleted := isCompleted gs;
     showErrors := showErrors gs |}.
Definition withSelectedCell (c : option nat) (gs : GameState) : GameState :=
  {| puzzle := puzzle gs; solution := solution gs; userValues := userValues gs;
     possibleNumbers := possibleNumbers gs; selectedCell := c;
     difficulty := difficulty gs; startTime := startTime gs;
     elapsedTime := elapsedTime gs; isCompleted := isCompleted gs;
     showErrors := showErrors gs |}.
Definition withDifficulty (d : string) (gs : GameState) : GameState :=
  {| puzzle := puzzle gs; solution := solution gs; userValues := userValues gs;
     possibleNumbers := possibleNumbers gs; selectedCell := selectedCell gs;
     difficulty := d; startTime := startTime gs;
     elapsedTime := elapsedTime gs; isCompleted := isCompleted gs;
     showErrors := showErrors gs |}.
Definition withStartTime (t : option Z) (gs : GameState) : GameState :=
  {| puzzle := puzzle gs; solution := solution gs; userValues := userValues gs;
     possibleNumbers := possibleNumbers gs; selectedCell := selectedCell gs;
     difficulty := difficulty gs; startTime := t;
     elapsedTime := elapsedTime gs; isCompleted := isCompleted gs;
     showErrors := showErrors gs |}.
Definition withElapsedTime (t : Z) (gs : GameState) : GameState :=
  {| puzzle := puzzle gs; solution := solution gs; userValues := userValues gs;
     possibleNumbers := possibleNumbers gs; selectedCell := selectedCell gs;
     difficulty := difficulty gs; startTime := startTime gs;
     elapsedTime := t; isCompleted := isCompleted gs;
     showErrors := showErrors gs |}.
Definition withIsCompleted (b : bool) (gs : GameState) : GameState :=
  {| puzzle := puzzle gs; solution := solution gs; userValues := userValues gs;
     possibleNumbers := possibleNumbers gs; selectedCell := selectedCell gs;
     difficulty := difficulty gs; startTime := startTime gs;
     elapsedTime := elapsedTime gs; isCompleted := b;
     showErrors := showErrors gs |}.
Definition withShowErrors (b : bool) (gs : GameState) : GameState :=
  {| puzzle := puzzle gs; solution := solution gs; userValues := userValues gs;
     possibleNumbers := possibleNumbers gs; selectedCell := selectedCell gs;
     difficulty := difficulty gs; startTime := startTime gs;
     elapsedTime := elapsedTime gs; isCompleted := isCompleted gs;
     showErrors := b |}.

(** [gameState.f = ...] *)
Definition modify (f : GameState → GameState) (w : World) : World :=
  withGameState (f (gameState w)) w.

(** ** Rendering, timer and persistence *)

(** [renderBoard], [updateTimerDisplay], [showContextMenu] and
    [hideContextMenu] only write to the DOM.  [renderBoard] reads every
    cell of [puzzle] and [userValues], the size of the note set of every
    empty cell and, under [showErrors], the cells of [solution]; where a
    row or a note set is missing the source raises a TypeError.  It does
    not on a session with 9x9 grids and 81 note sets ([wfState] below),
    and the theorems on functions that call it carry that hypothesis. *)
Definition renderBoard (w : World) : World := w.
Definition updateTimerDisplay (w : World) : World := w.
Definition hideContextMenu (w : World) : World := w.
Definition showContextMenu (w : World) : World := w.

Definition stopTimer (w : World) : World :=
  if timerInterval w then withTimerInterval false w else w.

(** [now] is the value of [Date.now()]. *)
Definition startTimer (now : Z) (w : World) : World :=
  let w := stopTimer w in
  let w := modify (λ gs, withStartTime (Some (now - elapsedTime gs)%Z) gs) w in
  withTimerInterval true w.

(** The callback given to [setInterval]; it only runs while the interval
    is scheduled.  [Date.now() - null] is [Date.now()]. *)
Definition timerTick (now : Z) (w : World) : World :=
  if timerInterval w then
    if negb (isCompleted (gameState w)) then
      let w := modify (λ gs, withElapsedTime (now - default 0%Z (startTime gs))%Z gs) w in
      updateTimerDisplay w
    else w
  else w.

Definition stateToSave (gs : GameState) : SavedState :=
  {| saved_puzzle := puzzle gs;
     saved_solution := solution gs;
     saved_userValues := userValues gs;
     saved_possibleNumbers := arrayFromSet <$> possibleNumbers gs;
     saved_selectedCell := selectedCell gs;
     saved_difficulty := difficulty gs;
     saved_elapsedTime := Some (elapsedTime gs);
     saved_isCompleted := Some (isCompleted gs);
     saved_showErrors := Some (showErrors gs) |}.

(** A failing [setItem] is caught and logged; nothing is stored. *)
Definition saveGameState (w : World) : World :=
  if storageRejectsWrites w then w
  else withLocalStorage (Some (stateToSave (gameState w))) w.

(** [parsed.f || d] for a number and for a boolean. *)
Definition orZero (x : option Z) : Z := default 0%Z x.
Definition orFalse (x : option bool) : bool := default false x.

(** Returns whether a saved state was found.  The source runs the body
    in a [try] and returns false from the [catch] when a step throws,
    which [renderBoard] does on a record it cannot draw; the selector
    also shows no difficulty that is not one of its options.  This is the
    function on records that can be drawn and hold a difficulty of the
    selector, which is what the theorems on it assume of the record. *)
Definition loadGameState (now : Z) (w : World) : bool * World :=
  match localStorage w with
  | None => (false, w)
  | Some parsed =>
      let gs :=
        {| puzzle := saved_puzzle parsed;
           solution := saved_solution parsed;
           userValues := saved_userValues parsed;
           possibleNumbers := setFromArray <$> saved_possibleNumbers parsed;
           selectedCell := saved_selectedCell parsed;
           difficulty := saved_difficulty parsed;
           startTime := startTime (gameState w);
           elapsedTime := orZero (saved_elapsedTime parsed);
           isCompleted := orFalse (saved_isCompleted parsed);
           showErrors := orFalse (saved_showErrors parsed) |} in
      let w := withGameState gs w in
      let w := withDifficultySelect (difficulty gs) w in
      let w := if isCompleted gs then withStatusText StatusCompleted w else w in
      let w := updateTimerDisplay (renderBoard w) in
      let w := if negb (isCompleted gs) then startTimer now w else w in
      (true, w)
  end.

(** ** Starting and resetting a game *)

Definition emptyNotes : list JSSet := replicate 81 [].

(** [now1] and [now2] are the two readings of [Date.now()], the second
    one inside [startTimer]. *)
Definition startNewGame (now1 now2 : Z) (w : World) : option World :=
  let difficulty := difficultySelect w in
  '(sol, rng1) ← generateSolution (random w);
  '(puz, rng2) ← generatePuzzle sol difficulty rng1;
  let gs :=
    {| puzzle := puz; solution := sol;
       userValues := (λ row : list Z, row) <$> puz;
       possibleNumbers := emptyNotes;
       selectedCell := None; difficulty := difficulty;
       startTime := Some now1; elapsedTime := 0;
       isCompleted := false; showErrors := false |} in
  let w := withRandom rng2 (withGameState gs w) in
  let w := withStatusText StatusNone w in
  Some (saveGameState (startTimer now2 (renderBoard w))).

Definition resetGame (now1 now2 : Z) (w : World) : World :=
  let w := modify (λ gs, withUserValues ((λ row : list Z, row) <$> puzzle gs) gs) w in
  let w := modify (withPossibleNumbers emptyNotes) w in
  let w := modify (withSelectedCell None) w in
  let w := modify (withStartTime (Some now1)) w in
  let w := modify (withElapsedTime 0) w in
  let w := modify (withIsCompleted false) w in
  let w := modify (withShowErrors false) w in
  let w := withStatusText StatusNone w in
  saveGameState (startTimer now2 (renderBoard w)).

Definition clearAllNotes (w : World) : World :=
  let w := modify (withPossibleNumbers emptyNotes) w in
  saveGameState (renderBoard w).

(** ** Counting empty cells and the forced number *)

Definition countEmptyCellsIn (gs : GameState) (cells : list (nat * nat)) : nat :=
  length (filter (λ '(r, c), cellIs (userValues gs) r c 0 = true) cells).

Definition countEmptyCellsInRow (gs : GameState) (row : nat) : nat :=
  countEmptyCellsIn gs (rowCells row).
Definition countEmptyCellsInColumn (gs : GameState) (col : nat) : nat :=
  countEmptyCellsIn gs (colCells col).
Definition countEmptyCellsInSquare (gs : GameState) (row col : nat) : nat :=
  countEmptyCellsIn gs (boxCells (row / 3 * 3) (col / 3 * 3)).

(** [possible.delete(gameState.userValues[r][c])] *)
Definition deleteCellValue (uv : Grid) (possible : JSSet) (rc : nat * nat) : JSSet :=
  match get uv rc.1 rc.2 with
  | Some v => setDelete possible v
  | None => possible
  end.

(** The set [possible] after the three scans that [findFinalNumber] and
    [autoFillPossibleNumbers] both run over [userValues]. *)
Definition possibleAfterScans (gs : GameState) (row col : nat) : JSSet :=
  let possible := setFromArray digits in
  let possible := foldl (deleteCellValue (userValues gs)) possible (rowCells row) in
  let possible := foldl (deleteCellValue (userValues gs)) possible (colCells col) in
  let boxRow := row / 3 * 3 in
  let boxCol := col / 3 * 3 in
  foldl (deleteCellValue (userValues gs)) possible (boxCells boxRow boxCol).

(** [None] is [null]. *)
Definition findFinalNumber (gs : GameState) (row col : nat) : option Z :=
  let possible := possibleAfterScans gs row col in
  if setSize possible =? 1 then arrayFromSet possible !! 0 else None.

(** ** Completion *)

(** The body of the two nested loops of [checkBoardState] at one cell,
    acting on [(allFilled, allCorrect, hasErrors)]. *)
Definition checkCell (gs : GameState) (flags : bool * bool * bool)
    (cell : nat * nat) : bool * bool * bool :=
  let '(allFilled, allCorrect, hasErrors) := flags in
  let '(row, col) := cell in
  let userValue := get (userValues gs) row col in
  let allFilled :=
    if bool_decide (userValue = Some 0%Z) then false else allFilled in
  if bool_decide (userValue ≠ get (solution gs) row col) then
    (allFilled, false,
     if bool_decide (userValue ≠ Some 0%Z) then true else hasErrors)
  else (allFilled, allCorrect, hasErrors).

(** Returns [(allFilled, allCorrect, hasErrors)].  On grids of nine
    rows; with a row of [userValues] or [solution] missing the source
    raises a TypeError at the first cell of that row. *)
Definition checkBoardState (gs : GameState) : bool * bool * bool :=
  foldl (checkCell gs) (true, true, false) allCells.

Definition checkCompletion (w : World) : World :=
  let '(allFilled, allCorrect, _) := checkBoardState (gameState w) in
  if allFilled then
    let w := modify (withShowErrors true) w in
    let w :=
      if allCorrect then
        let w := modify (withIsCompleted true) w in
        let w := stopTimer w in
        withStatusText StatusCompleted w
      else withStatusText StatusIncorrect w in
    saveGameState (renderBoard w)
  else w.

Definition validateBoard (w : World) : World :=
  let w := modify (withShowErrors true) w in
  let '(_, _, hasErrors) := checkBoardState (gameState w) in
  let w :=
    if hasErrors then withStatusText StatusIncorrect w
    else withStatusText StatusAllCorrect w in
  saveGameState (renderBoard w).

(** ** Editing a cell

    In these four functions [index] is the index of a board cell.  Every
    caller passes an index below 81, for which [row] is below 9; beyond
    that the source raises a TypeError and the model says nothing. *)

Definition togglePossibleNumber (index : nat) (num : Z) (w : World) : World :=
  let row := index / 9 in
  let col := index mod 9 in
  let w :=
    if negb (cellIs (userValues (gameState w)) row col 0) then
      modify (λ gs, withUserValues (set (userValues gs) row col 0) gs) w
    else w in
  let w :=
    modify (λ gs, withPossibleNumbers
                    (alter (λ s, if setHas s num then setDelete s num
                                 else setAdd s num)
                           index (possibleNumbers gs)) gs) w in
  renderBoard w.

Definition setFinalValue (index : nat) (num : Z) (w : World) : World :=
  let row := index / 9 in
  let col := index mod 9 in
  let w := modify (λ gs, withUserValues (set (userValues gs) row col num) gs) w in
  let w := modify (λ gs, withPossibleNumbers
                           (alter setClear index (possibleNumbers gs)) gs) w in
  checkCompletion (renderBoard w).

Definition clearCell (index : nat) (w : World) : World :=
  let row := index / 9 in
  let col := index mod 9 in
  if cellIs (puzzle (gameState w)) row col 0 then
    let w := modify (λ gs, withUserValues (set (userValues gs) row col 0) gs) w in
    let w := modify (λ gs, withPossibleNumbers
                             (alter setClear index (possibleNumbers gs)) gs) w in
    saveGameState (renderBoard w)
  else w.

Definition autoFillPossibleNumbers (index : nat) (w : World) : World :=
  let row := index / 9 in
  let col := index mod 9 in
  if negb (cellIs (puzzle (gameState w)) row col 0)
     || negb (cellIs (userValues (gameState w)) row col 0) then w
  else
    let possible := possibleAfterScans (gameState w) row col in
    let w := modify (λ gs, withPossibleNumbers
                             (<[index := possible]> (possibleNumbers gs)) gs) w in
    saveGameState (renderBoard w).

(** ** Event handlers *)

Definition handleCellClick (index : nat) (w : World) : World :=
  let w := hideContextMenu w in
  let w := modify (withSelectedCell (Some index)) w in
  saveGameState (renderBoard w).

Definition handleCellDoubleClick (index : nat) (w : World) : World :=
  let row := index / 9 in
  let col := index mod 9 in
  if negb (cellIs (puzzle (gameState w)) row col 0)
     || negb (cellIs (userValues (gameState w)) row col 0) then w
  else
    let isLastInRow := countEmptyCellsInRow (gameState w) row =? 1 in
    let isLastInCol := countEmptyCellsInColumn (gameState w) col =? 1 in
    let isLastInSquare := countEmptyCellsInSquare (gameState w) row col =? 1 in
    if isLastInRow || isLastInCol || isLastInSquare then
      match findFinalNumber (gameState w) row col with
      | Some finalNumber => saveGameState (setFinalValue index finalNumber w)
      | None => autoFillPossibleNumbers index w
      end
    else autoFillPossibleNumbers index w.

Definition handleCellContextMenu (index : nat) (w : World) : World :=
  let w := modify (withSelectedCell (Some index)) w in
  showContextMenu (renderBoard w).

(** [parseInt] on a string that starts with a decimal digit, the only
    strings [handleKeyDown] gives it: the value of the leading digits. *)
Definition digitValue (a : Ascii.ascii) : option Z :=
  let n := Ascii.nat_of_ascii a in
  if (48 <=? n) && (n <=? 57) then Some (Z.of_nat (n - 48)) else None.

Fixpoint parseDigits (s : string) (acc : Z) : Z :=
  match s with
  | EmptyString => acc
  | String a rest =>
      match digitValue a with
      | Some d => parseDigits rest (10 * acc + d)%Z
      | None => acc
      end
  end.

Definition parseInt (s : string) : Z := parseDigits s 0.

(** [key], [shiftKey] are the fields of the KeyboardEvent, [now] is what
    [Date.now()] returns if it is called.  [>=] and [<=] on strings are
    lexicographic. *)
Definition handleKeyDown (key : string) (shiftKey : bool) (now : Z) (w : World)
    : World :=
  match selectedCell (gameState w) with
  | None => w
  | Some index =>
      if isCompleted (gameState w) then w
      else
        let row := index / 9 in
        let col := index mod 9 in
        let isInitialCell := negb (cellIs (puzzle (gameState w)) row col 0) in
        let newSelectedCell :=
          if String.eqb key "ArrowUp" && (0 <? row) then Some (index - 9)
          else if String.eqb key "ArrowDown" && (row <? 8) then Some (index + 9)
          else if String.eqb key "ArrowLeft" && (0 <? col) then Some (index - 1)
          else if String.eqb key "ArrowRight" && (col <? 8) then Some (index + 1)
          else None in
        match newSelectedCell with
        | Some cell =>
            let w := modify (withSelectedCell (Some cell)) w in
            saveGameState (renderBoard w)
        | None =>
            if isInitialCell then w
            else
              let w :=
                if String.leb "1" key && String.leb key "9" then
                  let num := parseInt key in
                  let w :=
                    if shiftKey
                       || (bool_decide ((lastKeyPress w).1 = Some key)
                           && (now - (lastKeyPress w).2 <? 300)%Z)
                    then setFinalValue index num w
                    else togglePossibleNumber index num w in
                  withLastKeyPress (Some key, now) w
                else if String.eqb key "Delete" || String.eqb key "Backspace" then
                  clearCell index w
                else w in
              saveGameState w
        end
  end.

(** *** The listeners registered on DOMContentLoaded *)

Inductive Event :=
  | NewGameClick (now1 now2 : Z)
  | ResetGameClick (now1 now2 : Z)
  | ClearNotesClick
  | ValidateClick
  | DifficultyChange (value : string)
  | AutoFillCellClick
  | ClearCellClick
  | KeyDown (key : string) (shiftKey : bool) (now : Z)
  | DocumentClick
  | CellClick (index : nat)
  | CellDblClick (index : nat)
  | CellContextMenu (index : nat)
  | TimerTick (now : Z).

(** [None] is an exception that no handler catches. *)
Definition dispatch (e : Event) (w : World) : option World :=
  match e with
  | NewGameClick now1 now2 => startNewGame now1 now2 w
  | ResetGameClick now1 now2 => Some (resetGame now1 now2 w)
  | ClearNotesClick => Some (clearAllNotes w)
  | ValidateClick => Some (validateBoard w)
  | DifficultyChange value =>
      Some (modify (withDifficulty value) (withDifficultySelect value w))
  | AutoFillCellClick =>
      match selectedCell (gameState w) with
      | Some cell => Some (hideContextMenu (autoFillPossibleNumbers cell w))
      | None => Some w
      end
  | ClearCellClick =>
      match selectedCell (gameState w) with
      | Some cell => Some (hideContextMenu (clearCell cell w))
      | None => Some w
      end
  | KeyDown key shiftKey now => Some (handleKeyDown key shiftKey now w)
  | DocumentClick => Some (hideContextMenu w)
  | CellClick index => Some (handleCellClick index w)
  | CellDblClick index => Some (handleCellDoubleClick index w)
  | CellContextMenu index => Some (handleCellContextMenu index w)
  | TimerTick now => Some (timerTick now w)
  end.


(** ** Well-formed states *)

Definition wfState (gs : GameState) : Prop :=
  wfGrid (puzzle gs) ∧ wfGrid (solution gs) ∧ wfGrid (userValues gs)
  ∧ length (possibleNumbers gs) = 81.

(** ** Predicates used in the statements *)

(** [(r, c)] lies in the row, the column or the box that the scans for
    [(row, col)] visit. *)
Definition scanned (row col r c : nat) : Prop :=
  (r = row ∧ c < 9) ∨ (c = col ∧ r < 9)
  ∨ ((row / 3 * 3 ≤ r < row / 3 * 3 + 3) ∧ (col / 3 * 3 ≤ c < col / 3 * 3 + 3)).

(** Two different cells that share a row, a column or a box. *)
Definition peers (r c r' c' : nat) : Prop :=
  (r, c) ≠ (r', c') ∧ (r = r' ∨ c = c' ∨ (r / 3 = r' / 3 ∧ c / 3 = c' / 3)).

(** No digit stands in two cells that are peers. *)
Definition consistent (g : Grid) : Prop :=
  ∀ r c r' c' v,
    r < 9 → c < 9 → r' < 9 → c' < 9 → peers r c r' c' →
    get g r c = Some v → v ≠ 0%Z → get g r' c' ≠ Some v.

Definition inRange (g : Grid) : Prop :=
  ∀ r c v, get g r c = Some v → (0 ≤ v ≤ 9)%Z.

(** What every grid that [fillGrid] handles satisfies. *)
Definition partialSudoku (g : Grid) : Prop :=
  wfGrid g ∧ inRange g ∧ consistent g.

Definition noEmptyCell (g : Grid) : Prop :=
  ∀ r c, r < 9 → c < 9 → get g r c ≠ Some 0%Z.

(** The values a grid holds in a list of cells. *)
Definition unitValues (g : Grid) (cells : list (nat * nat)) : list (option Z) :=
  (λ rc, get g rc.1 rc.2) <$> cells.

(** How often the digit [d] stands in the cells. *)
Definition occurrences (g : Grid) (cells : list (nat * nat)) (d : Z) : nat :=
  length (filter (λ x, x = Some d) (unitValues g cells)).

Definition eachDigitOnce (g : Grid) (cells : list (nat * nat)) : Prop :=
  ∀ d, (1 ≤ d ≤ 9)%Z → occurrences g cells d = 1.

(** Every row, every column and every 3x3 box holds each digit once. *)
Definition sudokuSolution (g : Grid) : Prop :=
  (∀ row, row < 9 → eachDigitOnce g (rowCells row))
  ∧ (∀ col, col < 9 → eachDigitOnce g (colCells col))
  ∧ (∀ br bc, br < 3 → bc < 3 → eachDigitOnce g (boxCells (3 * br) (3 * bc))).

(** [h] keeps every digit that [g] holds. *)
Definition extends (g h : Grid) : Prop :=
  ∀ r c v, get g r c = Some v → v ≠ 0%Z → get h r c = Some v.

(** [h] is a full consistent grid that keeps the digits of [g]. *)
Definition completion (g h : Grid) : Prop :=
  partialSudoku h ∧ noEmptyCell h ∧ extends g h.

(** The grid that [fillGrid] reaches when no shuffle moves anything. *)
Definition firstSolution : Grid :=
  [ [1; 2; 3; 4; 5; 6; 7; 8; 9];
    [4; 5; 6; 7; 8; 9; 1; 2; 3];
    [7; 8; 9; 1; 2; 3; 4; 5; 6];
    [2; 1; 4; 3; 6; 5; 8; 9; 7];
    [3; 6; 5; 8; 9; 7; 2; 1; 4];
    [8; 9; 7; 2; 1; 4; 3; 6; 5];
    [5; 3; 1; 6; 4; 2; 9; 7; 8];
    [6; 4; 2; 9; 7; 8; 5; 3; 1];
    [9; 7; 8; 5; 3; 1; 6; 4; 2] ]%Z.

(** [(r, c)] is a cell of row [row], of column [col] or of the 3x3 box
    whose origin is [(row - row mod 3, col - col mod 3)]. *)
Definition inUnits (row col r c : nat) : Prop :=
  r < 9 ∧ c < 9
  ∧ (r = row ∨ c = col
     ∨ ((row - row mod 3 ≤ r < row - row mod 3 + 3)
        ∧ (col - col mod 3 ≤ c < col - col mod 3 + 3))).

(** A grid whose only digit is a 5 in the top left corner. *)
Definition cornerFive : Grid := set zeroGrid 0 0 5.

(** Zeroing the listed cells in turn. *)
Definition zeroCells (g : Grid) (positions : list nat) : Grid :=
  foldl (λ g pos, set g (pos / 9) (pos mod 9) 0) g positions.

(** *** Boards *)

(** No cell of [userValues] is 0. *)
Definition boardFilled (gs : GameState) : Prop :=
  ∀ r c, r < 9 → c < 9 → get (userValues gs) r c ≠ Some 0%Z.

(** Every cell of [userValues] equals the cell of [solution]. *)
Definition boardCorrect (gs : GameState) : Prop :=
  ∀ r c, r < 9 → c < 9 → get (userValues gs) r c = get (solution gs) r c.

(** Some filled cell of [userValues] differs from the solution. *)
Definition boardHasErrors (gs : GameState) : bool :=
  existsb (λ '(r, c),
             bool_decide (get (userValues gs) r c ≠ get (solution gs) r c)
             && bool_decide (get (userValues gs) r c ≠ Some 0%Z))
          allCells.

(** *** Concrete sessions used as examples *)

(** [firstSolution] with its top left cell removed. *)
Definition lastCellPuzzle : Grid := set firstSolution 0 0 0.

Definition worldOf (gs : GameState) : World :=
  {| gameState := gs; timerInterval := true; lastKeyPress := (None, 0%Z);
     statusText := StatusNone; difficultySelect := "low";
     localStorage := None; storageRejectsWrites := false;
     random := identityDraws |}.

(** A session one cell short of completion, with that cell selected. *)
Definition almostDone : World :=
  worldOf {| puzzle := lastCellPuzzle; solution := firstSolution;
             userValues := lastCellPuzzle; possibleNumbers := emptyNotes;
             selectedCell := Some 0; difficulty := "low";
             startTime := Some 0%Z; elapsedTime := 0;
             isCompleted := false; showErrors := false |}.

(** The session after the key 1 has been pressed twice within 300 ms,
    which fills the last cell. *)
Definition completedWorld : World :=
  handleKeyDown "1" false 1100 (handleKeyDown "1" false 1000 almostDone).

(** A session whose board is full and correct while [isCompleted] is
    false. *)
Definition solvedUnchecked : World :=
  modify (withUserValues firstSolution) almostDone.

(** *** The exclusion of values and notes *)

(** No cell has both a non-zero value and a non-empty candidate set. *)
Definition notesExclusive (gs : GameState) : Prop :=
  ∀ index v s,
    index < 81 →
    get (userValues gs) (index / 9) (index mod 9) = Some v → v ≠ 0%Z →
    possibleNumbers gs !! index = Some s → s = [].

(** The cell an event names is one of the 81 cells of the board. *)
Definition eventOnBoard (e : Event) : Prop :=
  match e with
  | CellClick index | CellDblClick index | CellContextMenu index => index < 81
  | _ => True
  end.

Definition selectionOnBoard (gs : GameState) : Prop :=
  ∀ index, selectedCell gs = Some index → index < 81.

(** Reduce the projections of updated records, and nothing else. *)
Ltac state_simpl :=
  unfold wfState, renderBoard, updateTimerDisplay, hideContextMenu,
    showContextMenu;
  cbn [gameState timerInterval lastKeyPress statusText difficultySelect
       localStorage storageRejectsWrites random
       puzzle solution userValues possibleNumbers selectedCell difficulty
       startTime elapsedTime isCompleted showErrors
       modify withGameState withTimerInterval withLastKeyPress withStatusText
       withDifficultySelect withLocalStorage withRandom
       withUserValues withPossibleNumbers withSelectedCell withDifficulty
       withStartTime withElapsedTime withIsCompleted withShowErrors
       renderBoard updateTimerDisplay hideContextMenu showContextMenu
       negb orb andb fst snd].


(** The keys that reach the editing branches of [handleKeyDown]. *)
Definition isEditKey (key : string) : bool :=
  (String.leb "1" key && String.leb key "9")
  || String.eqb key "Delete" || String.eqb key "Backspace".

Definition difficultyKeys : list string := ["low"; "medium"; "high"].

(** *** Double activation *)

(** [(row, col)] is the only cell among [cells] whose user value is 0. *)
Definition soleEmptyIn (gs : GameState) (cells : list (nat * nat))
    (row col : nat) : Prop :=
  ∀ r c, (r, c) ∈ cells → (r, c) ≠ (row, col) →
         get (userValues gs) r c ≠ Some 0%Z.

(** The cell is the last empty one of its row, its column or its box. *)
Definition lastInUnit (gs : GameState) (row col : nat) : Prop :=
  soleEmptyIn gs (rowCells row) row col
  ∨ soleEmptyIn gs (colCells col) row col
  ∨ soleEmptyIn gs (boxCells (row - row mod 3) (col - col mod 3)) row col.

(** The digit [d] stands nowhere in the row, the column and the box of
    [(row, col)] in [userValues]. *)
Definition absentDigit (gs : GameState) (row col : nat) (d : Z) : Prop :=
  (1 ≤ d ≤ 9)%Z
  ∧ ∀ r c, inUnits row col r c → get (userValues gs) r c ≠ Some d.

Definition onlyAbsentDigit (gs : GameState) (row col : nat) (v : Z) : Prop :=
  absentDigit gs row col v ∧ ∀ d, absentDigit gs row col d → d = v.

(** A solved grid whose first row is 5 3 4 6 7 8 9 1 2. *)
Definition scenarioSolution : Grid :=
  [ [5; 3; 4; 6; 7; 8; 9; 1; 2];
    [6; 7; 2; 1; 9; 5; 3; 4; 8];
    [1; 9; 8; 3; 4; 2; 5; 6; 7];
    [8; 5; 9; 7; 6; 1; 4; 2; 3];
    [4; 2; 6; 8; 5; 3; 7; 9; 1];
    [7; 1; 3; 9; 2; 4; 8; 5; 6];
    [9; 6; 1; 5; 3; 7; 2; 8; 4];
    [2; 8; 7; 4; 1; 9; 6; 3; 5];
    [3; 4; 5; 2; 8; 6; 1; 7; 9] ]%Z.

(** A session on it in which only the last cell of the first row and the
    two bottom rows are still empty. *)
Definition scenarioWorld : World :=
  let board :=
    <[7 := replicate 9 0%Z]>
      (<[8 := replicate 9 0%Z]> (set scenarioSolution 0 8 0)) in
  worldOf {| puzzle := board; solution := scenarioSolution;
             userValues := board; possibleNumbers := emptyNotes;
             selectedCell := None; difficulty := "low";
             startTime := Some 0%Z; elapsedTime := 0;
             isCompleted := false; showErrors := false |}.

(** ** More predicates *)

(** Every clue of the puzzle stands in [userValues]. *)
Definition cluesKept (gs : GameState) : Prop :=
  ∀ r c v, get (puzzle gs) r c = Some v → v ≠ 0%Z →
           get (userValues gs) r c = Some v.

(** The two grids that a game is about are the same in both states. *)
Definition sameGame (gs gs' : GameState) : Prop :=
  puzzle gs' = puzzle gs ∧ solution gs' = solution gs.

(** The values of [KeyboardEvent.key] for the digit keys and for the
    arrow keys. *)
Definition digitKeys : list string :=
  ["1"; "2"; "3"; "4"; "5"; "6"; "7"; "8"; "9"].

(** The interval callback running at each of the instants [ticks]. *)
Definition runTicks (ticks : list Z) (w : World) : World :=
  foldl (λ w t, timerTick t w) w ticks.

(** The stored session holds the board of the running one: its grids,
    notes and flags.  (The selection, the difficulty and the elapsed
    time may be those of the last save.) *)
Definition boardStored (w : World) : Prop :=
  ∃ saved,
    localStorage w = Some saved
    ∧ saved_puzzle saved = puzzle (gameState w)
    ∧ saved_solution saved = solution (gameState w)
    ∧ saved_userValues saved = userValues (gameState w)
    ∧ saved_possibleNumbers saved
      = arrayFromSet <$> possibleNumbers (gameState w)
    ∧ saved_isCompleted saved = Some (isCompleted (gameState w))
    ∧ saved_showErrors saved = Some (showErrors (gameState w)).

(** ** What [renderBoard] draws

    The cell elements that [renderBoard] appends to the board, as data:
    the class list of each element, its [data-index] and the markup that
    [createCellElement] writes into its [innerHTML]. *)

(** [<span class="main-value">v</span>], the [<div class="possible-numbers">]
    with its nine spans (an empty span is [None]), or nothing.  The value
    of a cell outside its row array is [undefined], here [None]. *)
Inductive CellContent :=
  | MainValue (v : option Z)
  | PossibleNumbersGrid (spans : list (option Z))
  | NoContent.

Record CellElement := {
  classList : list string;
  dataIndex : nat;
  innerHTML : CellContent
}.

Definition createPossibleNumbersHTML (possibleNums : JSSet) : CellContent :=
  PossibleNumbersGrid
    ((λ n, if setHas possibleNums n then Some n else None) <$> digits).

(** [None] is the TypeError of [possibleNums.size] on a missing entry of
    [possibleNumbers]. *)
Definition createCellElement (gs : GameState) (index row col : nat)
    : option CellElement :=
  let puzzleValue := get (puzzle gs) row col in
  let userValue := get (userValues gs) row col in
  let possibleNums := possibleNumbers gs !! index in
  body ←
    (if negb (bool_decide (puzzleValue = Some 0%Z)) then
       Some (["initial"], MainValue puzzleValue)
     else if negb (bool_decide (userValue = Some 0%Z)) then
       Some ("user-value"
             :: (if showErrors gs
                    && negb (bool_decide
                               (userValue = get (solution gs) row col))
                 then ["error"] else []),
             MainValue userValue)
     else
       match possibleNums with
       | None => None
       | Some s =>
           if 0 <? setSize s then Some ([], createPossibleNumbersHTML s)
           else Some ([], NoContent)
       end);
  let classes := "cell" :: body.1 in
  let classes :=
    if bool_decide (selectedCell gs = Some index)
    then classes ++ ["selected"] else classes in
  let classes :=
    if isCompleted gs then classes ++ ["completed"] else classes in
  Some {| classList := classes; dataIndex := index; innerHTML := body.2 |}.

(** The children of the board element after [renderBoard]. *)
Definition boardCells (gs : GameState) : option (list CellElement) :=
  mapM (λ i, createCellElement gs i (i / 9) (i mod 9)) (seq 0 81).



(** ** What [updateTimerDisplay] writes *)

(** The first [n] characters of [cur] followed by [pad] over and over. *)
Fixpoint fillString (n : nat) (pad cur : string) : string :=
  match n with
  | 0 => EmptyString
  | S n =>
      match cur with
      | String c rest => String c (fillString n pad rest)
      | EmptyString =>
          match pad with
          | String c rest => String c (fillString n pad rest)
          | EmptyString => EmptyString
          end
      end
  end.

(** [s.padStart(targetLength, padString)] *)
Definition padStart (targetLength : nat) (padString : string) (s : string)
    : string :=
  fillString (targetLength - String.length s) padString padString +:+ s.

(** The text that [updateTimerDisplay] gives the timer element.
    [Math.floor] of a quotient is [`div`], [%] is [`rem`], and [String]
    of an integer is [pretty]. *)
Definition timerText (elapsedTime : Z) : string :=
  let totalSeconds := (elapsedTime `div` 1000)%Z in
  let minutes := (totalSeconds `div` 60)%Z in
  let seconds := (totalSeconds `rem` 60)%Z in
  "Time: " +:+ padStart 2 "0" (pretty minutes)
  +:+ ":" +:+ padStart 2 "0" (pretty seconds).

(** * Properties *)

(** ** Reading and writing cells *)

Lemma get_set_eq (g : Grid) r c v :
  is_Some (get g r c) → get (set g r c v) r c = Some v.
Proof.
  unfold get, set. intros [x Hx]. rewrite list_lookup_alter_eq.
  destruct (g !! r) as [row|] eqn:Hrow; simpl in *; [|done].
  apply list_lookup_insert_eq. by eapply lookup_lt_Some.
Qed.

Lemma get_set_ne (g : Grid) r c r' c' v :
  (r, c) ≠ (r', c') → get (set g r c v) r' c' = get g r' c'.
Proof.
  unfold get, set. intros Hne. destruct (decide (r = r')) as [->|Hr].
  - rewrite list_lookup_alter_eq. destruct (g !! r') as [row|]; simpl; [|done].
    apply list_lookup_insert_ne. congruence.
  - by rewrite list_lookup_alter_ne.
Qed.

Lemma get_set (g : Grid) r c r' c' v :
  is_Some (get g r c) →
  get (set g r c v) r' c' = if decide ((r, c) = (r', c')) then Some v else get g r' c'.
Proof.
  intros Hs. case_decide as Heq.
  - inversion Heq; subst. by apply get_set_eq.
  - by apply get_set_ne.
Qed.

Lemma set_same (g : Grid) r c v : get g r c = Some v → set g r c v = g.
Proof.
  unfold get, set. intros H. apply list_eq. intros i.
  destruct (decide (r = i)) as [->|Hne].
  - rewrite list_lookup_alter_eq. destruct (g !! i) as [row|]; simpl in *; [|done].
    by rewrite list_insert_id.
  - by rewrite list_lookup_alter_ne.
Qed.

Lemma set_set (g : Grid) r c v v' : set (set g r c v) r c v' = set g r c v'.
Proof.
  unfold set. rewrite list_alter_alter_eq. apply list_alter_ext; [|done].
  intros row _. simpl. apply list_insert_insert_eq.
Qed.

Lemma wfGrid_set g r c v : wfGrid g → wfGrid (set g r c v).
Proof.
  intros [Hlen Hrows]. split.
  - unfold set. by rewrite length_alter.
  - unfold set. apply Forall_alter; [done|]. intros row _ Hrow.
    by rewrite length_insert.
Qed.

Lemma wfGrid_get g r c : wfGrid g → r < 9 → c < 9 → is_Some (get g r c).
Proof.
  intros [Hlen Hrows] Hr Hc. unfold get.
  destruct (lookup_lt_is_Some_2 g r) as [row Hrow]; [lia|].
  rewrite Hrow. simpl. apply lookup_lt_is_Some_2.
  rewrite Forall_lookup in Hrows. rewrite (Hrows _ _ Hrow). lia.
Qed.

Lemma wfGrid_get_lt g r c v : wfGrid g → get g r c = Some v → r < 9 ∧ c < 9.
Proof.
  intros [Hlen Hrows]. unfold get. intros H.
  destruct (g !! r) as [row|] eqn:Hrow; simpl in H; [|done].
  apply lookup_lt_Some in H. rewrite Forall_lookup in Hrows.
  rewrite (Hrows _ _ Hrow) in H. apply lookup_lt_Some in Hrow. lia.
Qed.

Lemma wfGrid_zeroGrid : wfGrid zeroGrid.
Proof. split; [done|]. unfold zeroGrid. by repeat constructor. Qed.

Lemma cellIs_true g r c v : cellIs g r c v = true ↔ get g r c = Some v.
Proof. unfold cellIs. apply bool_decide_eq_true. Qed.

Lemma cellIs_false g r c v : cellIs g r c v = false ↔ get g r c ≠ Some v.
Proof. unfold cellIs. apply bool_decide_eq_false. Qed.

(** ** The cells of a row, a column and a box *)

Lemma elem_of_rowCells row r c : (r, c) ∈ rowCells row ↔ r = row ∧ c < 9.
Proof.
  unfold rowCells. rewrite list_elem_of_bind. split.
  - intros (c' & Hin & Hc'). apply list_elem_of_singleton in Hin.
    apply elem_of_seq in Hc'. inversion Hin; subst. lia.
  - intros [-> Hc]. exists c. split; [by apply list_elem_of_singleton|].
    apply elem_of_seq. lia.
Qed.

Lemma elem_of_colCells col r c : (r, c) ∈ colCells col ↔ c = col ∧ r < 9.
Proof.
  unfold colCells. rewrite list_elem_of_bind. split.
  - intros (r' & Hin & Hr'). apply list_elem_of_singleton in Hin.
    apply elem_of_seq in Hr'. inversion Hin; subst. lia.
  - intros [-> Hr]. exists r. split; [by apply list_elem_of_singleton|].
    apply elem_of_seq. lia.
Qed.

Lemma elem_of_boxCells br bc r c :
  (r, c) ∈ boxCells br bc ↔ (br ≤ r < br + 3) ∧ (bc ≤ c < bc + 3).
Proof.
  unfold boxCells. rewrite list_elem_of_bind. split.
  - intros (r' & Hin & Hr'). apply list_elem_of_bind in Hin as (c' & Hin & Hc').
    apply list_elem_of_singleton in Hin. apply elem_of_seq in Hr', Hc'.
    inversion Hin; subst. lia.
  - intros [Hr Hc]. exists r. split; [|apply elem_of_seq; lia].
    apply list_elem_of_bind. exists c. split; [by apply list_elem_of_singleton|].
    apply elem_of_seq. lia.
Qed.

Lemma elem_of_allCells r c : (r, c) ∈ allCells ↔ r < 9 ∧ c < 9.
Proof.
  unfold allCells. rewrite list_elem_of_bind. split.
  - intros (r' & Hin & Hr'). apply list_elem_of_bind in Hin as (c' & Hin & Hc').
    apply list_elem_of_singleton in Hin. apply elem_of_seq in Hr', Hc'.
    inversion Hin; subst. lia.
  - intros [Hr Hc]. exists r. split; [|apply elem_of_seq; lia].
    apply list_elem_of_bind. exists c. split; [by apply list_elem_of_singleton|].
    apply elem_of_seq. lia.
Qed.

Lemma forallb_cells (P : nat → nat → bool) (cells : list (nat * nat)) :
  forallb (λ '(r, c), P r c) cells = true ↔ ∀ r c, (r, c) ∈ cells → P r c = true.
Proof.
  rewrite forallb_forall. split.
  - intros H r c Hin. apply (H (r, c)). by apply list_elem_of_In.
  - intros H [r c] Hin. apply H. by apply list_elem_of_In.
Qed.

Lemma isValidPlacement_true grid row col num :
  isValidPlacement grid row col num = true
  ↔ ∀ r c, scanned row col r c → get grid r c ≠ Some num.
Proof.
  unfold isValidPlacement, scanned. cbv zeta.
  rewrite !andb_true_iff, !forallb_cells.
  setoid_rewrite negb_true_iff. setoid_rewrite cellIs_false.
  setoid_rewrite elem_of_rowCells. setoid_rewrite elem_of_colCells.
  setoid_rewrite elem_of_boxCells. split.
  - intros [[Hrow Hcol] Hbox] r c [H|[H|H]]; auto.
  - intros H. repeat split; intros r c Hin; apply H; auto.
Qed.

(** ** shuffleArray returns a permutation *)

Lemma insert_cons_Permutation {A} (l : list A) j x y :
  l !! j = Some y → y :: <[j:=x]> l ≡ₚ x :: l.
Proof.
  revert j. induction l as [|a l IH]; intros [|j] Hj; simplify_eq/=.
  - apply perm_swap.
  - rewrite perm_swap. rewrite (IH _ Hj). apply perm_swap.
Qed.

Lemma swap_Permutation {A} (arr : list A) i j : swap arr i j ≡ₚ arr.
Proof.
  unfold swap. revert i j. induction arr as [|a arr IH]; intros i j; [by destruct i|].
  destruct i as [|i], j as [|j]; simpl.
  - done.
  - destruct (arr !! j) as [y|] eqn:Hj; [|done]. simpl.
    by apply insert_cons_Permutation.
  - destruct (arr !! i) as [x|] eqn:Hi; [|done]. simpl.
    by apply insert_cons_Permutation.
  - specialize (IH i j).
    destruct (arr !! i) as [x|]; [|done]. destruct (arr !! j) as [y|]; [|done].
    simpl. by rewrite IH.
Qed.

Lemma shuffleLoop_Permutation {A} i (arr : list A) rng :
  (shuffleLoop i arr rng).1 ≡ₚ arr.
Proof.
  revert arr rng. induction i as [|i IH]; intros arr rng; simpl; [done|].
  rewrite IH. apply swap_Permutation.
Qed.

Lemma shuffleArray_Permutation {A} (array : list A) rng :
  (shuffleArray array rng).1 ≡ₚ array.
Proof. apply shuffleLoop_Permutation. Qed.

(** ** The backtracking search *)

Lemma peers_scanned r c r' c' :
  r' < 9 → c' < 9 → peers r c r' c' → scanned r c r' c'.
Proof.
  intros Hr Hc [Hne [->|[->|[Hbr Hbc]]]]; unfold scanned; [auto..|].
  right; right.
  pose proof (Nat.div_mod_eq r 3). pose proof (Nat.div_mod_eq r' 3).
  pose proof (Nat.div_mod_eq c 3). pose proof (Nat.div_mod_eq c' 3).
  pose proof (Nat.mod_upper_bound r 3). pose proof (Nat.mod_upper_bound r' 3).
  pose proof (Nat.mod_upper_bound c 3). pose proof (Nat.mod_upper_bound c' 3).
  lia.
Qed.

Lemma peers_sym r c r' c' : peers r c r' c' → peers r' c' r c.
Proof.
  intros [Hne [H|[H|[H1 H2]]]]; (split; [congruence|]); auto.
Qed.

Lemma findEmptyCell_Some g row col :
  findEmptyCell g = Some (row, col) →
  row < 9 ∧ col < 9 ∧ get g row col = Some 0%Z.
Proof.
  unfold findEmptyCell. intros H. apply find_some in H as [Hin Hz].
  apply list_elem_of_In, elem_of_allCells in Hin. apply cellIs_true in Hz. tauto.
Qed.

Lemma findEmptyCell_None g : findEmptyCell g = None → noEmptyCell g.
Proof.
  unfold findEmptyCell. intros H r c Hr Hc.
  apply cellIs_false.
  apply (find_none _ _ H (r, c)). apply list_elem_of_In, elem_of_allCells. lia.
Qed.

Lemma partialSudoku_zeroGrid : partialSudoku zeroGrid.
Proof.
  split; [apply wfGrid_zeroGrid|]. 
  assert (Hz : ∀ r c v, get zeroGrid r c = Some v → v = 0%Z).
  { intros r c v. unfold get, zeroGrid. intros H.
    destruct (replicate 9 (replicate 9 0%Z) !! r) as [row|] eqn:Hrow; [|done].
    apply lookup_replicate in Hrow as [-> _].
    change (replicate 9 0%Z !! c = Some v) in H.
    by apply lookup_replicate in H as [-> _]. }
  split.
  - intros r c v Hv. apply Hz in Hv. lia.
  - intros r c r' c' v _ _ _ _ _ Hv Hnz. apply Hz in Hv. done.
Qed.

Lemma partialSudoku_set_zero g r c :
  partialSudoku g → partialSudoku (set g r c 0).
Proof.
  intros (Hwf & Hrange & Hcons). split; [by apply wfGrid_set|]. split.
  - intros r' c' v. destruct (decide ((r, c) = (r', c'))) as [Heq|Hne].
    + inversion Heq; subst. intros Hv.
      destruct (get g r' c') as [x|] eqn:Hx.
      * rewrite get_set_eq in Hv by (by rewrite Hx). simplify_eq. lia.
      * unfold get, set in *. rewrite list_lookup_alter_eq in Hv.
        destruct (g !! r') as [row|]; simpl in *; [|done].
        rewrite list_lookup_insert_Some in Hv.
        destruct Hv as [(_ & <- & _)|(_ & ?)]; [lia|congruence].
    + rewrite get_set_ne by done. apply Hrange.
  - intros r1 c1 r2 c2 v Hr1 Hc1 Hr2 Hc2 Hp Hv Hnz.
    destruct (decide ((r, c) = (r1, c1))) as [Heq|Hne1].
    { inversion Heq; subst. rewrite get_set_eq in Hv; [congruence|].
      by apply wfGrid_get. }
    rewrite get_set_ne in Hv by done.
    destruct (decide ((r, c) = (r2, c2))) as [Heq|Hne2].
    { inversion Heq; subst. rewrite get_set_eq; [congruence|].
      by apply wfGrid_get. }
    rewrite get_set_ne by done.
    exact (Hcons r1 c1 r2 c2 v Hr1 Hc1 Hr2 Hc2 Hp Hv Hnz).
Qed.

Lemma partialSudoku_set_valid g r c num :
  partialSudoku g → r < 9 → c < 9 → (1 ≤ num ≤ 9)%Z →
  isValidPlacement g r c num = true →
  partialSudoku (set g r c num).
Proof.
  intros (Hwf & Hrange & Hcons) Hr Hc Hnum Hvalid.
  rewrite isValidPlacement_true in Hvalid.
  pose proof (wfGrid_get g r c Hwf Hr Hc) as Hsome.
  split; [by apply wfGrid_set|]. split.
  - intros r' c' v. rewrite get_set by done. case_decide; [|apply Hrange].
    intros [= <-]. lia.
  - intros r1 c1 r2 c2 v Hr1 Hc1 Hr2 Hc2 Hp Hv Hnz.
    rewrite get_set in Hv by done. rewrite get_set by done.
    destruct Hp as [Hne Hp]. 
    destruct (decide ((r, c) = (r1, c1))) as [Heq1|Hne1];
      destruct (decide ((r, c) = (r2, c2))) as [Heq2|Hne2].
    + congruence.
    + inversion Heq1; subst. inversion Hv; subst.
      apply Hvalid. by apply peers_scanned.
    + inversion Heq2; subst. intros [= ->].
      revert Hv. apply Hvalid. apply peers_scanned; [done..|].
      apply peers_sym. by split.
    + exact (Hcons r1 c1 r2 c2 v Hr1 Hc1 Hr2 Hc2 (conj Hne Hp) Hv Hnz).
Qed.

Lemma shuffled_digits rng :
  Forall (λ num, 1 ≤ num ≤ 9)%Z (shuffleArray digits rng).1.
Proof.
  rewrite shuffleArray_Permutation. unfold digits. repeat constructor; lia.
Qed.

Section search.
Variable rec : Grid → Rng → option FillResult.
Hypothesis rec_sound : ∀ g rng b g' rng',
  partialSudoku g → rec g rng = Some (b, g', rng') →
  partialSudoku g' ∧ (b = true → noEmptyCell g').

Lemma tryNumbers_sound row col numbers grid rng b g' rng' :
  row < 9 → col < 9 → Forall (λ num, 1 ≤ num ≤ 9)%Z numbers →
  partialSudoku grid →
  tryNumbers rec row col numbers grid rng = Some (b, g', rng') →
  partialSudoku g' ∧ (b = true → noEmptyCell g').
Proof.
  intros Hrow Hcol Hnums. revert grid rng.
  induction Hnums as [|num rest Hnum Hrest IH]; intros grid rng Hgrid; simpl.
  - intros [= <- <- <-]. by split.
  - destruct (isValidPlacement grid row col num) eqn:Hvalid; [|by apply IH].
    destruct (rec (set grid row col num) rng) as [[[[] g1] rng1]|] eqn:Hrec; [| |done].
    + intros [= <- <- <-]. eapply rec_sound; [|exact Hrec].
      apply partialSudoku_set_valid; auto.
    + apply IH. apply partialSudoku_set_zero.
      eapply proj1, rec_sound; [|exact Hrec].
      apply partialSudoku_set_valid; auto.
Qed.
End search.

Lemma fillGrid_sound fuel g rng b g' rng' :
  partialSudoku g → fillGrid fuel g rng = Some (b, g', rng') →
  partialSudoku g' ∧ (b = true → noEmptyCell g').
Proof.
  revert g rng b g' rng'. induction fuel as [|fuel IH]; intros g rng b g' rng' Hg; [done|].
  cbn [fillGrid]. destruct (findEmptyCell g) as [[row col]|] eqn:Hfind.
  - pose proof (shuffled_digits rng) as Hnums.
    destruct (shuffleArray digits rng) as [numbers rng1].
    apply findEmptyCell_Some in Hfind as (Hrow & Hcol & _).
    by apply tryNumbers_sound.
  - intros [= <- <- <-]. split; [done|]. intros _. by apply findEmptyCell_None.
Qed.

(** ** A full consistent grid is a Sudoku solution *)

Lemma digit_cases (v : Z) :
  (1 ≤ v ≤ 9)%Z →
  v = 1%Z ∨ v = 2%Z ∨ v = 3%Z ∨ v = 4%Z ∨ v = 5%Z ∨ v = 6%Z ∨ v = 7%Z
  ∨ v = 8%Z ∨ v = 9%Z.
Proof. lia. Qed.

Lemma elem_of_digits v : v ∈ digits ↔ (1 ≤ v ≤ 9)%Z.
Proof.
  unfold digits. rewrite !elem_of_cons, elem_of_nil. lia.
Qed.

Lemma NoDup_digits : NoDup digits.
Proof. compute_done. Qed.

Section units.
Variable g : Grid.
Hypothesis Hpartial : partialSudoku g.
Hypothesis Hfull : noEmptyCell g.

Lemma cell_digit r c :
  r < 9 → c < 9 → ∃ v, get g r c = Some v ∧ (1 ≤ v ≤ 9)%Z.
Proof.
  destruct Hpartial as (Hwf & Hrange & _). intros Hr Hc.
  destruct (wfGrid_get g r c Hwf Hr Hc) as [v Hv]. exists v. split; [done|].
  pose proof (Hrange _ _ _ Hv). pose proof (Hfull r c Hr Hc).
  assert (v ≠ 0%Z) by congruence. lia.
Qed.

Variable cells : list (nat * nat).
Hypothesis cells_NoDup : NoDup cells.
Hypothesis cells_length : length cells = 9.
Hypothesis cells_bounds : ∀ r c, (r, c) ∈ cells → r < 9 ∧ c < 9.
Hypothesis cells_peers : ∀ r c r' c',
  (r, c) ∈ cells → (r', c') ∈ cells → (r, c) ≠ (r', c') → peers r c r' c'.

Lemma unitValues_Permutation : unitValues g cells ≡ₚ Some <$> digits.
Proof.
  apply submseteq_length_Permutation.
  - apply NoDup_submseteq.
    + apply NoDup_fmap_2_strong; [|done].
      intros [r c] [r' c'] Hin Hin' Heq. simpl in Heq.
      destruct (decide ((r, c) = (r', c'))) as [|Hne]; [done|exfalso].
      destruct (cells_bounds _ _ Hin) as [Hr Hc].
      destruct (cells_bounds _ _ Hin') as [Hr' Hc'].
      destruct (cell_digit r c Hr Hc) as (v & Hv & Hd).
      destruct Hpartial as (_ & _ & Hcons).
      apply (Hcons r c r' c' v); auto; [lia|congruence].
    + intros x. unfold unitValues. rewrite list_elem_of_fmap.
      intros ([r c] & -> & Hin). cbn [fst snd].
      destruct (cells_bounds _ _ Hin) as [Hr Hc].
      destruct (cell_digit r c Hr Hc) as (v & -> & Hd).
      apply list_elem_of_fmap. exists v. split; [done|]. by apply elem_of_digits.
  - unfold unitValues. rewrite !length_fmap, cells_length. done.
Qed.

Lemma unit_eachDigitOnce : eachDigitOnce g cells.
Proof.
  intros d Hd. unfold occurrences. rewrite unitValues_Permutation.
  destruct (digit_cases d Hd) as [->|[->|[->|[->|[->|[->|[->|[->| ->]]]]]]]];
    reflexivity.
Qed.
End units.

Lemma div3_unique n b : 3 * b ≤ n < 3 * b + 3 → n / 3 = b.
Proof. intros H. symmetry. apply (Nat.div_unique n 3 b (n - 3 * b)); lia. Qed.

Lemma full_partialSudoku_solution g :
  partialSudoku g → noEmptyCell g → sudokuSolution g.
Proof.
  intros Hp Hfull. split; [|split].
  - intros row Hrow. apply unit_eachDigitOnce; try done.
    + unfold rowCells. simpl.
      apply NoDup_fmap_2_strong with (f := λ c, (row, c)) (l := seq 0 9);
        [by intros ???? [=]|apply NoDup_seq].
    + intros r c [-> Hc]%elem_of_rowCells. lia.
    + intros r c r' c' [-> _]%elem_of_rowCells [-> _]%elem_of_rowCells Hne.
      split; auto.
  - intros col Hcol. apply unit_eachDigitOnce; try done.
    + unfold colCells. simpl.
      apply NoDup_fmap_2_strong with (f := λ r, (r, col)) (l := seq 0 9);
        [by intros ???? [=]|apply NoDup_seq].
    + intros r c [-> Hr]%elem_of_colCells. lia.
    + intros r c r' c' [-> _]%elem_of_colCells [-> _]%elem_of_colCells Hne.
      split; auto.
  - intros br bc Hbr Hbc. apply unit_eachDigitOnce; try done.
    + destruct br as [|[|[|br]]]; [| | |lia];
        (destruct bc as [|[|[|bc]]]; [| | |lia]); compute_done.
    + intros r c [Hr Hc]%elem_of_boxCells. lia.
    + intros r c r' c' [Hr Hc]%elem_of_boxCells [Hr' Hc']%elem_of_boxCells Hne.
      split; [done|]. right; right.
      by rewrite (div3_unique r br), (div3_unique r' br),
        (div3_unique c bc), (div3_unique c' bc).
Qed.

Lemma fillGrid_true_solution fuel rng grid rng' :
  fillGrid fuel zeroGrid rng = Some (true, grid, rng') → sudokuSolution grid.
Proof.
  intros Hfill.
  destruct (fillGrid_sound _ _ _ _ _ _ partialSudoku_zeroGrid Hfill) as [Hp Hfull].
  apply full_partialSudoku_solution; auto.
Qed.

(** ** The search always succeeds on the empty grid *)

Lemma countZeros_insert (row : list Z) c v :
  row !! c = Some 0%Z → v ≠ 0%Z →
  length (filter (λ x, x = 0%Z) row)
  = S (length (filter (λ x, x = 0%Z) (<[c:=v]> row))).
Proof.
  revert c. induction row as [|x row IH]; intros [|c] Hc Hv; simplify_eq/=.
  - rewrite !filter_cons. by rewrite decide_False by done.
  - rewrite !filter_cons. case_decide; simpl; rewrite (IH c) by done; done.
Qed.

Lemma countZeros_set g r c v :
  get g r c = Some 0%Z → v ≠ 0%Z → countZeros g = S (countZeros (set g r c v)).
Proof.
  unfold get, set, countZeros. revert r.
  induction g as [|row g IH]; intros [|r] Hget Hv; simplify_eq/=.
  - by rewrite (countZeros_insert row c v).
  - rewrite (IH r) by done. lia.
Qed.

Lemma scanned_peers row col r c :
  row < 9 → col < 9 → scanned row col r c → (row, col) ≠ (r, c) →
  r < 9 ∧ c < 9 ∧ peers row col r c.
Proof.
  intros Hrow Hcol Hs Hne.
  pose proof (Nat.div_mod_eq row 3). pose proof (Nat.mod_upper_bound row 3).
  pose proof (Nat.div_mod_eq col 3). pose proof (Nat.mod_upper_bound col 3).
  destruct Hs as [[-> Hc]|[[-> Hr]|[Hr Hc]]].
  - repeat split; auto.
  - repeat split; auto.
  - split; [lia|]. split; [lia|]. split; [done|]. right; right.
    rewrite (div3_unique r (row / 3)), (div3_unique c (col / 3)) by lia. done.
Qed.

Lemma completion_blocks_invalid grid h row col num :
  row < 9 → col < 9 → num ≠ 0%Z →
  get grid row col = Some 0%Z → completion grid h →
  get h row col = Some num → isValidPlacement grid row col num = true.
Proof.
  intros Hrow Hcol Hnum Hempty (Hp & Hfull & Hext) Hh.
  apply isValidPlacement_true. intros r c Hs Hrc.
  assert (Hne : (row, col) ≠ (r, c)) by (intros [= <- <-]; congruence).
  destruct (scanned_peers _ _ _ _ Hrow Hcol Hs Hne) as (Hr & Hc & Hpeers).
  destruct Hp as (_ & _ & Hcons).
  apply (Hcons row col r c num); auto.
Qed.

Lemma completion_set grid h row col num :
  is_Some (get grid row col) →
  completion grid h → get h row col = Some num →
  completion (set grid row col num) h.
Proof.
  intros Hs (Hp & Hfull & Hext) Hh. split; [done|]. split; [done|].
  intros r c v. rewrite get_set by done. case_decide as Heq.
  - inversion Heq; subst. by intros [= <-].
  - apply Hext.
Qed.

Section termination.
Variable bound : nat.
Variable rec : Grid → Rng → option FillResult.
Hypothesis rec_total : ∀ g rng,
  countZeros g < bound →
  ∃ b g' rng', rec g rng = Some (b, g', rng')
    ∧ (b = false → g' = g ∧ ∀ h, ¬ completion g h).

Lemma tryNumbers_total row col numbers grid rng :
  row < 9 → col < 9 → Forall (λ num, 1 ≤ num ≤ 9)%Z numbers →
  get grid row col = Some 0%Z → countZeros grid < S bound →
  ∃ b g' rng', tryNumbers rec row col numbers grid rng = Some (b, g', rng')
    ∧ (b = false → g' = grid
         ∧ ∀ h num, completion grid h → num ∈ numbers →
                    get h row col ≠ Some num).
Proof.
  intros Hrow Hcol Hnums Hempty Hcount. revert rng.
  induction Hnums as [|num rest Hnum Hrest IH]; intros rng; simpl.
  - eexists _, _, _. split; [done|]. intros _. split; [done|].
    intros h num _ Hin. by apply elem_of_nil in Hin.
  - assert (Hnz : num ≠ 0%Z) by lia.
    destruct (isValidPlacement grid row col num) eqn:Hvalid.
    + destruct (rec_total (set grid row col num) rng)
        as (b & g1 & rng1 & -> & Hb).
      { rewrite (countZeros_set grid row col num) in Hcount by done. lia. }
      destruct b.
      * eexists _, _, _. split; [done|]. done.
      * destruct Hb as [-> Hnone]; [done|].
        rewrite set_set, (set_same grid row col 0%Z) by done.
        destruct (IH rng1) as (b & g' & rng' & -> & Hb).
        eexists _, _, _. split; [done|]. intros ->.
        destruct Hb as [-> Hrest']; [done|]. split; [done|].
        intros h n Hcompl [->|Hin]%elem_of_cons; [|by eapply Hrest'].
        intros Hh. apply (Hnone h). apply completion_set; [by rewrite Hempty|done..].
    + destruct (IH rng) as (b & g' & rng' & -> & Hb).
      eexists _, _, _. split; [done|]. intros ->.
      destruct Hb as [-> Hrest']; [done|]. split; [done|].
      intros h n Hcompl [->|Hin]%elem_of_cons; [|by eapply Hrest'].
      intros Hh.
      rewrite (completion_blocks_invalid grid h row col num) in Hvalid; done.
Qed.
End termination.

(** With more fuel than empty cells the search ends; when it reports
    failure it has restored the grid, and the grid has no completion. *)
Lemma fillGrid_total fuel g rng :
  countZeros g < fuel →
  ∃ b g' rng', fillGrid fuel g rng = Some (b, g', rng')
    ∧ (b = false → g' = g ∧ ∀ h, ¬ completion g h).
Proof.
  revert g rng. induction fuel as [|fuel IH]; intros g rng Hfuel; [lia|].
  cbn [fillGrid]. destruct (findEmptyCell g) as [[row col]|] eqn:Hfind.
  - pose proof (shuffled_digits rng) as Hnums.
    pose proof (shuffleArray_Permutation digits rng) as Hperm.
    destruct (shuffleArray digits rng) as [numbers rng1]. simpl in Hnums, Hperm.
    apply findEmptyCell_Some in Hfind as (Hrow & Hcol & Hempty).
    destruct (tryNumbers_total fuel (fillGrid fuel) IH row col numbers g rng1)
      as (b & g' & rng' & -> & Hb); try done.
    eexists _, _, _. split; [done|]. intros ->.
    destruct Hb as [-> Hnone]; [done|]. split; [done|].
    intros h Hcompl. pose proof Hcompl as (Hp & Hfull & _).
    destruct (cell_digit h Hp Hfull row col Hrow Hcol) as (v & Hv & Hd).
    apply (Hnone h v Hcompl); [|done].
    rewrite Hperm. by apply elem_of_digits.
  - eexists _, _, _. split; [done|]. done.
Qed.

Lemma fillGrid_identityDraws :
  ∃ rng', fillGrid 82 zeroGrid identityDraws = Some (true, firstSolution, rng').
Proof.
  set (x := fillGrid 82 zeroGrid identityDraws). vm_compute in x.
  subst x. eexists. reflexivity.
Qed.

Lemma completion_firstSolution : completion zeroGrid firstSolution.
Proof.
  destruct fillGrid_identityDraws as [rng' H].
  destruct (fillGrid_sound _ _ _ _ _ _ partialSudoku_zeroGrid H) as [Hp Hfull].
  split; [done|]. split; [by apply Hfull|].
  intros r c v Hv Hnz. destruct partialSudoku_zeroGrid as (_ & Hrange & _).
  exfalso. apply Hnz.
  unfold get, zeroGrid in Hv.
  destruct (replicate 9 (replicate 9 0%Z) !! r) as [row|] eqn:Hrow; [|done].
  apply lookup_replicate in Hrow as [-> _].
  change (replicate 9 0%Z !! c = Some v) in Hv.
  by apply lookup_replicate in Hv as [-> _].
Qed.

Lemma fillGrid_zeroGrid rng :
  ∃ grid rng', fillGrid 82 zeroGrid rng = Some (true, grid, rng').
Proof.
  destruct (fillGrid_total 82 zeroGrid rng) as (b & g' & rng' & H & Hb).
  { vm_compute. lia. }
  destruct b; [by eauto|]. destruct Hb as [_ Hnone]; [done|].
  destruct (Hnone _ completion_firstSolution).
Qed.

(** C1: whatever [Math.random] delivers, [fillGrid] returns true on the
    all-zero grid, and the grid that [generateSolution] returns holds each
    of the digits 1..9 exactly once in every row, every column and every
    3x3 box. *)
Theorem generateSolution_valid rng :
  ∃ grid rng',
    fillGrid 82 zeroGrid rng = Some (true, grid, rng')
    ∧ generateSolution rng = Some (grid, rng')
    ∧ sudokuSolution grid.
Proof.
  destruct (fillGrid_zeroGrid rng) as (grid & rng' & Hfill).
  exists grid, rng'. split; [done|]. split.
  - unfold generateSolution. by rewrite Hfill.
  - by eapply fillGrid_true_solution.
Qed.

(** ** isValidPlacement *)

Lemma get_zeroGrid r c v : get zeroGrid r c = Some v → v = 0%Z.
Proof.
  unfold get, zeroGrid. intros H.
  destruct (replicate 9 (replicate 9 0%Z) !! r) as [row|] eqn:Hrow; [|done].
  apply lookup_replicate in Hrow as [-> _].
  change (replicate 9 0%Z !! c = Some v) in H.
  by apply lookup_replicate in H as [-> _].
Qed.

Lemma scanned_inUnits row col r c :
  row < 9 → col < 9 → scanned row col r c ↔ inUnits row col r c.
Proof.
  intros Hrow Hcol. unfold scanned, inUnits.
  pose proof (Nat.div_mod_eq row 3). pose proof (Nat.mod_upper_bound row 3).
  pose proof (Nat.div_mod_eq col 3). pose proof (Nat.mod_upper_bound col 3).
  lia.
Qed.

(** C4, as the code has it: [isValidPlacement] returns true if and only if
    [num] stands in no cell of the row, of the column and of the 3x3 box
    of [(row, col)], the cell [(row, col)] itself included.  When the
    target cell does not hold [num], that is: if and only if [num] stands
    nowhere else in them. *)
Theorem isValidPlacement_iff grid row col num :
  row < 9 → col < 9 →
  (isValidPlacement grid row col num = true
   ↔ ∀ r c, inUnits row col r c → get grid r c ≠ Some num)
  ∧ (get grid row col ≠ Some num →
     (isValidPlacement grid row col num = true
      ↔ ∀ r c, inUnits row col r c → (r, c) ≠ (row, col) →
               get grid r c ≠ Some num)).
Proof.
  intros Hrow Hcol.
  assert (Hiff : isValidPlacement grid row col num = true
                 ↔ ∀ r c, inUnits row col r c → get grid r c ≠ Some num).
  { rewrite isValidPlacement_true.
    split; intros H r c Hin; apply H; by apply scanned_inUnits. }
  split; [done|]. intros Hown. rewrite Hiff. split.
  - intros H r c Hin _. by apply H.
  - intros H r c Hin. destruct (decide ((r, c) = (row, col))) as [[= -> ->]|Hne];
      [done|by apply H].
Qed.

Lemma isValidPlacement_iff_witness :
  (isValidPlacement cornerFive 0 1 5 = true
   ↔ ∀ r c, inUnits 0 1 r c → get cornerFive r c ≠ Some 5%Z)
  ∧ (get cornerFive 0 1 ≠ Some 5%Z →
     (isValidPlacement cornerFive 0 1 5 = true
      ↔ ∀ r c, inUnits 0 1 r c → (r, c) ≠ (0, 1) →
               get cornerFive r c ≠ Some 5%Z)).
Proof. apply (isValidPlacement_iff cornerFive 0 1 5); lia. Defined.

(** C4 as stated fails when [num] stands in the target cell itself: it
    then stands nowhere else, and [isValidPlacement] still returns false. *)
Lemma isValidPlacement_own_cell :
  wfGrid cornerFive ∧ inRange cornerFive
  ∧ ¬ (isValidPlacement cornerFive 0 0 5 = true
       ↔ ∀ r c, inUnits 0 0 r c → (r, c) ≠ (0, 0) →
                get cornerFive r c ≠ Some 5%Z).
Proof.
  split; [apply wfGrid_set, wfGrid_zeroGrid|]. split.
  - intros r c v. unfold cornerFive.
    rewrite get_set by (apply wfGrid_get; [apply wfGrid_zeroGrid|lia..]).
    case_decide; [intros [= Hv]; lia|]. intros ->%get_zeroGrid. lia.
  - intros [_ Hvalid].
    assert (isValidPlacement cornerFive 0 0 5 = true) as Hfalse; [|done].
    apply Hvalid. intros r c _ Hne. unfold cornerFive.
    rewrite get_set_ne by done. by intros ?%get_zeroGrid.
Qed.

(** ** generatePuzzle *)

Lemma removeCells_zeroCells toRemove positions removed puzzle :
  removeCells toRemove positions removed puzzle
  = zeroCells puzzle (take (toRemove - removed) positions).
Proof.
  revert removed puzzle.
  induction positions as [|pos rest IH]; intros removed puzzle; simpl.
  - by rewrite take_nil.
  - destruct (Nat.leb_spec toRemove removed) as [Hle|Hlt].
    + by replace (toRemove - removed) with 0 by lia.
    + rewrite IH. replace (toRemove - removed) with (S (toRemove - S removed)) by lia.
      done.
Qed.

Lemma wfGrid_zeroCells g positions : wfGrid g → wfGrid (zeroCells g positions).
Proof.
  unfold zeroCells. revert g. induction positions as [|pos rest IH]; intros g Hg; [done|].
  simpl. by apply IH, wfGrid_set.
Qed.

Lemma get_set_zero_inv (g : Grid) r c r' c' v :
  get (set g r c 0) r' c' = Some v → v ≠ 0%Z → get g r' c' = Some v.
Proof.
  destruct (decide ((r, c) = (r', c'))) as [Heq|Hne].
  - inversion Heq; subst. unfold get, set. rewrite list_lookup_alter_eq.
    destruct (g !! r') as [row|]; simpl; [|done].
    rewrite list_lookup_insert_Some. intros [(_ & <- & _)|(? & _)]; done.
  - by rewrite get_set_ne.
Qed.

Lemma get_zeroCells_inv g positions r c v :
  get (zeroCells g positions) r c = Some v → v ≠ 0%Z → get g r c = Some v.
Proof.
  unfold zeroCells. revert g. induction positions as [|pos rest IH]; intros g; [done|].
  simpl. intros H Hv. eapply get_set_zero_inv; [|done]. by apply IH.
Qed.

Lemma countZeros_set_zero g r c v :
  get g r c = Some v → v ≠ 0%Z → countZeros (set g r c 0) = S (countZeros g).
Proof.
  intros Hget Hv.
  rewrite (countZeros_set (set g r c 0) r c v); [|by apply get_set_eq; rewrite Hget|done].
  by rewrite set_set, set_same.
Qed.

Lemma cell_of_position_inj p q :
  (p / 9, p mod 9) = (q / 9, q mod 9) → p = q.
Proof.
  intros [Hd Hm]%pair_equal_spec.
  pose proof (Nat.div_mod_eq p 9). pose proof (Nat.div_mod_eq q 9). lia.
Qed.

Lemma countZeros_zeroCells g positions :
  wfGrid g → NoDup positions →
  (∀ p, p ∈ positions → p < 81 ∧ get g (p / 9) (p mod 9) ≠ Some 0%Z) →
  countZeros (zeroCells g positions) = countZeros g + length positions.
Proof.
  unfold zeroCells. revert g.
  induction positions as [|p rest IH]; intros g Hwf Hnd Hcells; simpl; [lia|].
  apply NoDup_cons in Hnd as [Hp Hnd].
  destruct (Hcells p) as [Hlt Hnz]; [left|].
  destruct (wfGrid_get g (p / 9) (p mod 9) Hwf) as [v Hv].
  { apply Nat.Div0.div_lt_upper_bound. lia. }
  { apply Nat.mod_upper_bound. lia. }
  rewrite IH; [|by apply wfGrid_set|done|].
  - rewrite (countZeros_set_zero g _ _ v); [lia|done|congruence].
  - intros q Hq. destruct (Hcells q) as [Hq1 Hq2]; [by right|]. split; [done|].
    rewrite get_set_ne; [done|]. intros Heq%cell_of_position_inj. congruence.
Qed.

Lemma countZeros_full g : (∀ r c, get g r c ≠ Some 0%Z) → countZeros g = 0.
Proof.
  induction g as [|row g IH]; intros Hfull; [done|].
  change (countZeros (row :: g))
    with (length (filter (λ v, v = 0%Z) row) + countZeros g).
  rewrite IH; [|intros r c; apply (Hfull (S r) c)].
  assert (Hrow : filter (λ v, v = 0%Z) row = []).
  { destruct (filter (λ v, v = 0%Z) row) as [|x l] eqn:Hf; [done|exfalso].
    assert (Hx : x ∈ filter (λ v, v = 0%Z) row) by (rewrite Hf; left).
    apply list_elem_of_filter in Hx as [-> Hin].
    apply list_elem_of_lookup in Hin as [c Hc]. by apply (Hfull 0 c). }
  by rewrite Hrow.
Qed.

Lemma generatePuzzle_pure solution difficulty level rng :
  wfGrid solution → (∀ r c, get solution r c ≠ Some 0%Z) →
  DIFFICULTY_LEVELS difficulty = Some level →
  ∃ puzzle rng',
    generatePuzzle solution difficulty rng = Some (puzzle, rng')
    ∧ wfGrid puzzle
    ∧ countZeros puzzle = cellsToRemove level
    ∧ (∀ r c v, get puzzle r c = Some v → v ≠ 0%Z → get solution r c = Some v).
Proof.
  intros Hwf Hfull Hlevel. unfold generatePuzzle. rewrite Hlevel.
  cbn [mbind option_bind].
  pose proof (shuffleArray_Permutation (seq 0 81) rng) as Hperm.
  destruct (shuffleArray (seq 0 81) rng) as [positions rng']. cbn [fst] in Hperm.
  eexists _, _. split; [done|].
  rewrite list_fmap_id, removeCells_zeroCells, Nat.sub_0_r.
  split; [by apply wfGrid_zeroCells|]. split; [|apply get_zeroCells_inv].
  assert (Hle : cellsToRemove level ≤ 81).
  { unfold DIFFICULTY_LEVELS in Hlevel.
    repeat (case_match; simplify_eq/=; try lia). }
  rewrite countZeros_zeroCells, countZeros_full; try done.
  - rewrite length_take, Hperm, length_seq. lia.
  - apply (sublist_NoDup _ positions); [|apply sublist_take].
    rewrite Hperm. apply NoDup_seq.
  - intros p Hp. split; [|apply Hfull].
    apply elem_of_take in Hp as (i & Hi & _).
    apply list_elem_of_lookup_2 in Hi. rewrite Hperm in Hi.
    apply elem_of_seq in Hi. lia.
Qed.

(** *** The store-level version *)

Lemma deref_cons h a rest G :
  Heap.deref h (a :: rest) = Some G ↔
  ∃ row G', h !! a = Some row ∧ Heap.deref h rest = Some G' ∧ G = row :: G'.
Proof.
  unfold Heap.deref. rewrite mapM_Some. split.
  - intros H. inversion H as [|? row ? G' Hrow Hrest]; subst.
    exists row, G'. by rewrite mapM_Some.
  - intros (row & G' & Hrow & Hrest & ->). constructor; [done|]. by apply mapM_Some.
Qed.

Lemma deref_app h k g G :
  Heap.deref h g = Some G → Heap.deref (h ++ k) g = Some G.
Proof.
  unfold Heap.deref. rewrite !mapM_Some. intros H.
  eapply Forall2_impl; [exact H|].
  intros a row Ha. by apply lookup_app_l_Some.
Qed.

Lemma deref_fresh h G :
  Heap.deref (h ++ G) (seq (length h) (length G)) = Some G.
Proof.
  revert h. induction G as [|row G IH]; intros h; [done|].
  cbn [length seq]. apply deref_cons. exists row, G. split; [|split; [|done]].
  - by rewrite lookup_app_r, Nat.sub_diag by done.
  - specialize (IH (h ++ [row])).
    by rewrite <-(assoc_L (++)), length_app, Nat.add_1_r in IH.
Qed.

Lemma copyRows_spec h g G :
  Heap.deref h g = Some G →
  Heap.copyRows h g = Some (h ++ G, seq (length h) (length G)).
Proof.
  revert h G. induction g as [|a rest IH]; intros h G.
  - intros [= <-]. by rewrite app_nil_r.
  - intros (row & G' & Hrow & Hrest & ->)%deref_cons.
    cbn [Heap.copyRows]. rewrite Hrow. simpl.
    rewrite (IH (h ++ [row]) G') by (by apply deref_app).
    simpl. by rewrite <-(assoc_L (++)), length_app, Nat.add_1_r.
Qed.

Lemma write_fresh h (G : Grid) row col v :
  row < length G →
  Heap.write (h ++ G) (seq (length h) (length G)) row col v
  = Some (h ++ set G row col v).
Proof.
  intros Hrow. unfold Heap.write.
  rewrite lookup_seq_lt by done. simpl.
  rewrite lookup_app_r by lia.
  replace (length h + row - length h) with row by lia.
  destruct (lookup_lt_is_Some_2 G row Hrow) as [cells Hcells].
  rewrite Hcells. simpl. f_equal.
  rewrite insert_app_r_alt by lia.
  replace (length h + row - length h) with row by lia. f_equal.
  unfold set. apply list_eq. intros i. destruct (decide (row = i)) as [->|Hne].
  - rewrite list_lookup_alter_eq, Hcells. simpl.
    apply list_lookup_insert_eq. by eapply lookup_lt_Some.
  - by rewrite list_lookup_alter_ne, list_lookup_insert_ne.
Qed.

Lemma removeCells_fresh h (G : Grid) toRemove positions removed :
  length G = 9 → Forall (λ pos, pos < 81) positions →
  Heap.removeCells toRemove positions removed (seq (length h) 9) (h ++ G)
  = Some (h ++ removeCells toRemove positions removed G).
Proof.
  intros Hlen Hpos. revert removed G Hlen.
  induction Hpos as [|pos rest Hp Hrest IH]; intros removed G Hlen; [done|].
  cbn [Heap.removeCells removeCells]. case_match; [done|].
  rewrite <-Hlen at 1. rewrite write_fresh.
  - simpl. apply IH. unfold set. by rewrite length_alter.
  - rewrite Hlen. apply Nat.Div0.div_lt_upper_bound. lia.
Qed.

(** The store-level function allocates the puzzle behind the existing
    store and computes what [generatePuzzle] computes on values. *)
Lemma generatePuzzle_fresh h solution G difficulty rng :
  Heap.deref h solution = Some G → length G = 9 →
  Heap.generatePuzzle h solution difficulty rng
  = '(P, rng') ← generatePuzzle G difficulty rng;
    Some (h ++ P, seq (length h) 9, rng').
Proof.
  intros Hsol Hlen. unfold Heap.generatePuzzle, generatePuzzle.
  rewrite (copyRows_spec h solution G Hsol), Hlen. cbn [mbind option_bind].
  destruct (DIFFICULTY_LEVELS difficulty) as [level|]; [|done].
  cbn [mbind option_bind].
  pose proof (shuffleArray_Permutation (seq 0 81) rng) as Hperm.
  destruct (shuffleArray (seq 0 81) rng) as [positions rng']. cbn [fst] in Hperm.
  rewrite removeCells_fresh; [|done|].
  - cbn [mbind option_bind]. by rewrite list_fmap_id.
  - apply Forall_forall. intros p Hp. rewrite Hperm in Hp.
    apply elem_of_seq in Hp. lia.
Qed.

Lemma noZero_Forall (g : Grid) :
  Forall (Forall (λ v, v ≠ 0%Z)) g → ∀ r c, get g r c ≠ Some 0%Z.
Proof.
  intros Hg r c Hz. unfold get in Hz.
  destruct (g !! r) as [row|] eqn:Hrow; [|done]. simpl in Hz.
  rewrite Forall_lookup in Hg. specialize (Hg _ _ Hrow).
  rewrite Forall_lookup in Hg. by apply (Hg _ _ Hz).
Qed.

(** C2: on a fully filled 9x9 solution and a difficulty key among low,
    medium and high, [generatePuzzle] returns a 9x9 grid with exactly
    [cellsToRemove] zero cells (30, 45 and 55) that agrees with the
    solution wherever it is not zero, and no array that existed before the
    call, the solution's rows among them, is changed. *)
Theorem generatePuzzle_spec h solution G difficulty rng :
  Heap.deref h solution = Some G →
  wfGrid G → (∀ r c, get G r c ≠ Some 0%Z) →
  difficulty ∈ ["low"; "medium"; "high"] →
  ∃ h' puzzle P rng' level,
    Heap.generatePuzzle h solution difficulty rng = Some (h', puzzle, rng')
    ∧ Heap.deref h' puzzle = Some P
    ∧ wfGrid P
    ∧ DIFFICULTY_LEVELS difficulty = Some level
    ∧ cellsToRemove level
      = (if String.eqb difficulty "low" then 30
         else if String.eqb difficulty "medium" then 45 else 55)
    ∧ countZeros P = cellsToRemove level
    ∧ (∀ r c v, get P r c = Some v → v ≠ 0%Z → get G r c = Some v)
    ∧ Heap.deref h' solution = Some G
    ∧ (∀ a, a < length h → h' !! a = h !! a).
Proof.
  intros Hsol Hwf Hfull Hdiff.
  assert (∃ level, DIFFICULTY_LEVELS difficulty = Some level
            ∧ cellsToRemove level
              = (if String.eqb difficulty "low" then 30
                 else if String.eqb difficulty "medium" then 45 else 55))
    as (level & Hlevel & Hcount).
  { rewrite !elem_of_cons, elem_of_nil in Hdiff.
    destruct Hdiff as [->|[->|[->|[]]]]; by eexists. }
  destruct (generatePuzzle_pure G difficulty level rng Hwf Hfull Hlevel)
    as (P & rng' & Hgen & HwfP & Hzeros & Hagree).
  exists (h ++ P), (seq (length h) 9), P, rng', level.
  rewrite (generatePuzzle_fresh h solution G) by (done || apply Hwf).
  rewrite Hgen. cbn [mbind option_bind]. split; [done|]. split.
  { destruct HwfP as [<- _]. apply deref_fresh. }
  split; [done|].
  split; [done|]. split; [done|]. split; [done|]. split; [done|]. split.
  - by apply deref_app.
  - intros a Ha. by apply lookup_app_l.
Qed.

Lemma generatePuzzle_spec_witness :
  ∃ h' puzzle P rng' level,
    Heap.generatePuzzle firstSolution (seq 0 9) "medium" identityDraws
    = Some (h', puzzle, rng')
    ∧ Heap.deref h' puzzle = Some P
    ∧ wfGrid P
    ∧ DIFFICULTY_LEVELS "medium" = Some level
    ∧ cellsToRemove level = 45
    ∧ countZeros P = cellsToRemove level
    ∧ (∀ r c v, get P r c = Some v → v ≠ 0%Z → get firstSolution r c = Some v)
    ∧ Heap.deref h' (seq 0 9) = Some firstSolution
    ∧ (∀ a, a < 9 → h' !! a = firstSolution !! a).
Proof.
  apply (generatePuzzle_spec firstSolution (seq 0 9) firstSolution "medium"
           identityDraws).
  - reflexivity.
  - split; [reflexivity|]. repeat constructor.
  - apply noZero_Forall. repeat constructor; discriminate.
  - rewrite !elem_of_cons. auto.
Defined.

(** ** The session: frame lemmas *)

Lemma gameState_saveGameState w : gameState (saveGameState w) = gameState w.
Proof. unfold saveGameState. by destruct (storageRejectsWrites w). Qed.

Lemma gameState_stopTimer w : gameState (stopTimer w) = gameState w.
Proof. unfold stopTimer. by destruct (timerInterval w). Qed.

(** ** checkBoardState *)

Lemma checkBoardState_fold gs cells allFilled allCorrect hasErrors :
  foldl (checkCell gs) (allFilled, allCorrect, hasErrors) cells
  = (allFilled
     && forallb (λ '(r, c), bool_decide (get (userValues gs) r c ≠ Some 0%Z))
                cells,
     allCorrect
     && forallb (λ '(r, c),
                   bool_decide (get (userValues gs) r c = get (solution gs) r c))
                cells,
     hasErrors
     || existsb (λ '(r, c),
                   bool_decide (get (userValues gs) r c ≠ get (solution gs) r c)
                   && bool_decide (get (userValues gs) r c ≠ Some 0%Z))
                cells).
Proof.
  revert allFilled allCorrect hasErrors.
  induction cells as [|[r c] cells IH]; intros allFilled allCorrect hasErrors.
  - simpl. by rewrite !andb_true_r, orb_false_r.
  - cbn [foldl forallb existsb].
    destruct (checkCell gs (allFilled, allCorrect, hasErrors) (r, c))
      as [[allFilled' allCorrect'] hasErrors'] eqn:Hstep.
    rewrite IH.
    generalize (forallb (λ '(r, c),
      bool_decide (get (userValues gs) r c ≠ Some 0%Z)) cells).
    generalize (forallb (λ '(r, c),
      bool_decide (get (userValues gs) r c = get (solution gs) r c)) cells).
    generalize (existsb (λ '(r, c),
      bool_decide (get (userValues gs) r c ≠ get (solution gs) r c)
      && bool_decide (get (userValues gs) r c ≠ Some 0%Z)) cells).
    intros b1 b2 b3. unfold checkCell in Hstep.
    destruct allFilled, allCorrect, hasErrors, b1, b2, b3;
      repeat case_bool_decide; simplify_eq; done || tauto.
Qed.

Lemma checkBoardState_allFilled gs :
  (checkBoardState gs).1.1 = true ↔ boardFilled gs.
Proof.
  unfold checkBoardState. rewrite checkBoardState_fold. cbn [fst snd].
  rewrite andb_true_l, forallb_cells. unfold boardFilled.
  setoid_rewrite bool_decide_eq_true.
  setoid_rewrite elem_of_allCells. split; intros H r c; [|intros []]; auto.
Qed.

Lemma checkBoardState_allCorrect gs :
  (checkBoardState gs).1.2 = true ↔ boardCorrect gs.
Proof.
  unfold checkBoardState. rewrite checkBoardState_fold. cbn [fst snd].
  rewrite andb_true_l, forallb_cells. unfold boardCorrect.
  setoid_rewrite bool_decide_eq_true.
  setoid_rewrite elem_of_allCells. split; intros H r c; [|intros []]; auto.
Qed.

Lemma checkBoardState_hasErrors gs :
  (checkBoardState gs).2 = boardHasErrors gs.
Proof. unfold checkBoardState. by rewrite checkBoardState_fold. Qed.

(** ** checkCompletion and setFinalValue *)

Lemma gameState_checkCompletion w :
  gameState (checkCompletion w)
  = (let gs := gameState w in
     if (checkBoardState gs).1.1 then
       if (checkBoardState gs).1.2
       then withIsCompleted true (withShowErrors true gs)
       else withShowErrors true gs
     else gs).
Proof.
  unfold checkCompletion.
  destruct (checkBoardState (gameState w)) as [[allFilled allCorrect] hasErrors].
  cbn [fst snd]. destruct allFilled; [|done].
  rewrite gameState_saveGameState. unfold renderBoard.
  destruct allCorrect; [|done]. simpl. by rewrite gameState_stopTimer.
Qed.

Lemma wfState_example gs :
  length (puzzle gs) = 9 → Forall (λ row, length row = 9) (puzzle gs) →
  length (solution gs) = 9 → Forall (λ row, length row = 9) (solution gs) →
  length (userValues gs) = 9 → Forall (λ row, length row = 9) (userValues gs) →
  length (possibleNumbers gs) = 81 → wfState gs.
Proof. by repeat split. Qed.

Lemma wfState_almostDone : wfState (gameState almostDone).
Proof. apply wfState_example; try reflexivity; by repeat constructor. Qed.

(** C3: [setFinalValue] writes the cell and then checks the whole board.
    If no cell of [userValues] is 0, [showErrors] becomes true, and
    [isCompleted] is set to true exactly when every cell equals the
    solution (it is left as it was otherwise); if some cell is 0, both
    flags are left as they were. *)
Theorem setFinalValue_completion index num w :
  wfState (gameState w) → index < 81 →
  let gs := gameState w in
  let gs' := gameState (setFinalValue index num w) in
  userValues gs' = set (userValues gs) (index / 9) (index mod 9) num
  ∧ solution gs' = solution gs
  ∧ (boardFilled gs' →
       showErrors gs' = true
       ∧ (boardCorrect gs' → isCompleted gs' = true)
       ∧ (¬ boardCorrect gs' → isCompleted gs' = isCompleted gs)
       ∧ (isCompleted gs = false → (isCompleted gs' = true ↔ boardCorrect gs')))
  ∧ (¬ boardFilled gs' →
       showErrors gs' = showErrors gs ∧ isCompleted gs' = isCompleted gs).
Proof.
  intros _ _ gs gs'. subst gs gs'. unfold setFinalValue, renderBoard.
  rewrite gameState_checkCompletion. cbv zeta.
  set (w1 := modify _ (modify _ w)).
  assert (Hu : userValues (gameState w1)
               = set (userValues (gameState w)) (index / 9) (index mod 9) num) by done.
  assert (Hs : solution (gameState w1) = solution (gameState w)) by done.
  assert (He : showErrors (gameState w1) = showErrors (gameState w)) by done.
  assert (Hc : isCompleted (gameState w1) = isCompleted (gameState w)) by done.
  pose proof (checkBoardState_allFilled (gameState w1)) as Hfilled.
  pose proof (checkBoardState_allCorrect (gameState w1)) as Hcorrect.
  assert (Hfilled' : ∀ gs2, userValues gs2 = userValues (gameState w1) →
            (boardFilled gs2 ↔ boardFilled (gameState w1))).
  { intros gs2 H. unfold boardFilled. by rewrite H. }
  assert (Hcorrect' : ∀ gs2, userValues gs2 = userValues (gameState w1) →
            solution gs2 = solution (gameState w1) →
            (boardCorrect gs2 ↔ boardCorrect (gameState w1))).
  { intros gs2 H1 H2. unfold boardCorrect. by rewrite H1, H2. }
  clearbody w1.
  destruct ((checkBoardState (gameState w1)).1.1) eqn:Hf;
    destruct ((checkBoardState (gameState w1)).1.2) eqn:Hk; cbn.
  - rewrite Hfilled', Hcorrect' by done. split; [done|]. split; [done|].
    split; [|intros []; by apply Hfilled].
    intros _. split; [done|]. split; [done|].
    split; [intros []; by apply Hcorrect|]. intros _. split; [|done].
    intros _. by apply Hcorrect.
  - rewrite Hfilled', Hcorrect' by done. split; [done|]. split; [done|].
    split; [|intros []; by apply Hfilled].
    assert (¬ boardCorrect (gameState w1)) by (rewrite <-Hcorrect; congruence).
    intros _. split; [done|]. split; [done|]. split; [done|].
    rewrite Hc. intros ->. split; done.
  - split; [done|]. split; [done|]. split; [|done].
    intros Hb%Hfilled. done.
  - split; [done|]. split; [done|]. split; [|done].
    intros Hb%Hfilled. done.
Qed.

Lemma setFinalValue_completion_witness :
  wfState (gameState almostDone) ∧ 0 < 81
  ∧ showErrors (gameState (setFinalValue 0 1 almostDone)) = true
  ∧ isCompleted (gameState (setFinalValue 0 1 almostDone)) = true.
Proof.
  split; [apply wfState_almostDone|]. split; [lia|].
  pose proof (setFinalValue_completion 0 1 almostDone wfState_almostDone)
    as (_ & _ & Hfilled & _); [lia|].
  destruct Hfilled as (He & Hc & _).
  { apply checkBoardState_allFilled. reflexivity. }
  split; [exact He|]. apply Hc. apply checkBoardState_allCorrect. reflexivity.
Defined.

(** ** validateBoard *)

Lemma gameState_validateBoard w :
  gameState (validateBoard w) = withShowErrors true (gameState w).
Proof.
  unfold validateBoard, renderBoard.
  destruct (checkBoardState _) as [[allFilled allCorrect] hasErrors].
  rewrite gameState_saveGameState. by destruct hasErrors.
Qed.

(** ** Saving and loading *)

Lemma elem_of_foldl_setAdd (acc arr : list Z) x :
  x ∈ foldl setAdd acc arr ↔ x ∈ acc ∨ x ∈ arr.
Proof.
  revert acc. induction arr as [|y arr IH]; intros acc; simpl.
  - rewrite elem_of_nil. tauto.
  - rewrite IH, elem_of_cons. unfold setAdd, setHas. case_bool_decide as Hy.
    + split; [tauto|]. intros [?|[->|?]]; auto.
    + rewrite elem_of_app, list_elem_of_singleton. tauto.
Qed.

Lemma foldl_setAdd_NoDup (acc arr : list Z) :
  NoDup (acc ++ arr) → foldl setAdd acc arr = acc ++ arr.
Proof.
  revert acc. induction arr as [|y arr IH]; intros acc Hnd; simpl.
  - by rewrite app_nil_r.
  - unfold setAdd, setHas. rewrite bool_decide_eq_false_2.
    + rewrite IH; by rewrite <-(assoc_L (++)).
    + apply NoDup_app in Hnd as (_ & Hdisj & _). intros Hy.
      apply (Hdisj y Hy). left.
Qed.

Lemma elem_of_setFromArray arr x : x ∈ setFromArray arr ↔ x ∈ arr.
Proof.
  unfold setFromArray. rewrite elem_of_foldl_setAdd, elem_of_nil. tauto.
Qed.

Lemma setFromArray_NoDup arr : NoDup arr → setFromArray arr = arr.
Proof. intros H. unfold setFromArray. by rewrite foldl_setAdd_NoDup. Qed.

Lemma loadGameState_Some now w parsed :
  localStorage w = Some parsed →
  (loadGameState now w).1 = true
  ∧ puzzle (gameState (loadGameState now w).2) = saved_puzzle parsed
  ∧ solution (gameState (loadGameState now w).2) = saved_solution parsed
  ∧ userValues (gameState (loadGameState now w).2) = saved_userValues parsed
  ∧ possibleNumbers (gameState (loadGameState now w).2)
    = setFromArray <$> saved_possibleNumbers parsed.
Proof.
  intros H. unfold loadGameState. rewrite H. cbn.
  destruct (orFalse (saved_isCompleted parsed)); cbn; [done|].
  unfold startTimer, stopTimer. cbn. by destruct (timerInterval w).
Qed.

(** C5: what [saveGameState] stores of a session with 9x9 grids and 81
    candidate sets, [loadGameState] reads back as a session with the same
    puzzle, solution and user values and, cell by cell, candidate sets
    with the same members. *)
Theorem save_load_roundtrip w w0 now :
  wfState (gameState w) →
  storageRejectsWrites w = false →
  let stored := localStorage (saveGameState w) in
  let loaded := loadGameState now (withLocalStorage stored w0) in
  loaded.1 = true
  ∧ puzzle (gameState loaded.2) = puzzle (gameState w)
  ∧ solution (gameState loaded.2) = solution (gameState w)
  ∧ userValues (gameState loaded.2) = userValues (gameState w)
  ∧ Forall2 (λ s' s, ∀ x, x ∈ s' ↔ x ∈ s)
      (possibleNumbers (gameState loaded.2)) (possibleNumbers (gameState w))
  ∧ (Forall NoDup (possibleNumbers (gameState w)) →
     possibleNumbers (gameState loaded.2) = possibleNumbers (gameState w))
  ∧ wfState (gameState loaded.2).
Proof.
  intros (Hwp & Hws & Hwu & Hlen) Hrej stored loaded.
  assert (Hstored : stored = Some (stateToSave (gameState w))).
  { subst stored. unfold saveGameState. by rewrite Hrej. }
  destruct (loadGameState_Some now (withLocalStorage stored w0)
              (stateToSave (gameState w)))
    as (Htrue & Hp & Hs & Hu & Hn); [by rewrite Hstored|].
  fold loaded in Htrue, Hp, Hs, Hu, Hn. unfold wfState.
  rewrite Hp, Hs, Hu, Hn. cbn [stateToSave saved_puzzle saved_solution
    saved_userValues saved_possibleNumbers]. unfold arrayFromSet.
  rewrite <-list_fmap_compose.
  split; [done|]. split; [done|]. split; [done|]. split; [done|].
  split; [|split].
  - apply Forall2_fmap_l, Forall_Forall2_diag, Forall_forall.
    intros s _ x. apply elem_of_setFromArray.
  - intros Hnd. rewrite <-(list_fmap_id (possibleNumbers (gameState w))) at 2.
    apply Forall_fmap_ext_1. eapply Forall_impl; [exact Hnd|].
    intros s Hs'. by apply setFromArray_NoDup.
  - by rewrite length_fmap.
Qed.

Lemma save_load_roundtrip_witness :
  let w := togglePossibleNumber 0 3 almostDone in
  let stored := localStorage (saveGameState w) in
  let loaded := loadGameState 5 (withLocalStorage stored (worldOf initialGameState)) in
  wfState (gameState w)
  ∧ storageRejectsWrites w = false
  ∧ loaded.1 = true
  ∧ puzzle (gameState loaded.2) = puzzle (gameState w)
  ∧ solution (gameState loaded.2) = solution (gameState w)
  ∧ userValues (gameState loaded.2) = userValues (gameState w)
  ∧ Forall2 (λ s' s, ∀ x, x ∈ s' ↔ x ∈ s)
      (possibleNumbers (gameState loaded.2)) (possibleNumbers (gameState w))
  ∧ (Forall NoDup (possibleNumbers (gameState w)) →
     possibleNumbers (gameState loaded.2) = possibleNumbers (gameState w))
  ∧ wfState (gameState loaded.2).
Proof.
  assert (Hwf : wfState (gameState (togglePossibleNumber 0 3 almostDone))).
  { apply wfState_example; try reflexivity; by repeat constructor. }
  split; [exact Hwf|]. split; [reflexivity|].
  apply (save_load_roundtrip (togglePossibleNumber 0 3 almostDone)
           (worldOf initialGameState) 5 Hwf).
  reflexivity.
Defined.

(** ** Values and notes exclude each other *)

Lemma userValues_checkCompletion w :
  userValues (gameState (checkCompletion w)) = userValues (gameState w).
Proof.
  rewrite gameState_checkCompletion. cbv zeta.
  by destruct (checkBoardState (gameState w)) as [[[] []] ?].
Qed.

Lemma possibleNumbers_checkCompletion w :
  possibleNumbers (gameState (checkCompletion w)) = possibleNumbers (gameState w).
Proof.
  rewrite gameState_checkCompletion. cbv zeta.
  by destruct (checkBoardState (gameState w)) as [[[] []] ?].
Qed.

Lemma notesExclusive_ext gs gs' :
  userValues gs' = userValues gs → possibleNumbers gs' = possibleNumbers gs →
  notesExclusive gs → notesExclusive gs'.
Proof. unfold notesExclusive. by intros -> ->. Qed.

Lemma notesExclusive_emptyNotes gs :
  possibleNumbers gs = emptyNotes → notesExclusive gs.
Proof.
  intros H index v s _ _ _. rewrite H. unfold emptyNotes.
  by intros [-> _]%lookup_replicate.
Qed.

(** An update that touches one cell and its candidate set only. *)
Lemma notesExclusive_cell gs gs' index :
  (∀ r c, (r, c) ≠ (index / 9, index mod 9) →
          get (userValues gs') r c = get (userValues gs) r c) →
  (∀ j, j ≠ index → possibleNumbers gs' !! j = possibleNumbers gs !! j) →
  (∀ v s, get (userValues gs') (index / 9) (index mod 9) = Some v → v ≠ 0%Z →
          possibleNumbers gs' !! index = Some s → s = []) →
  notesExclusive gs → notesExclusive gs'.
Proof.
  intros Hvalues Hnotes Hcell Hinv j v s Hj Hv Hnz Hs.
  destruct (decide (j = index)) as [->|Hne]; [by eapply Hcell|].
  rewrite Hvalues in Hv by (intros Heq%cell_of_position_inj; done).
  rewrite Hnotes in Hs by done. by eapply Hinv.
Qed.

Lemma get_set_zero (g : Grid) r c v : get (set g r c 0) r c = Some v → v = 0%Z.
Proof.
  unfold get, set. rewrite list_lookup_alter_eq.
  destruct (g !! r) as [row|]; simpl; [|done].
  rewrite list_lookup_insert_Some. intros [(_ & <- & _)|(? & _)]; done.
Qed.

Lemma notesExclusive_setFinalValue index num w :
  notesExclusive (gameState w) →
  notesExclusive (gameState (setFinalValue index num w)).
Proof.
  intros Hinv. unfold setFinalValue, renderBoard.
  eapply notesExclusive_ext;
    [apply userValues_checkCompletion|apply possibleNumbers_checkCompletion|].
  apply (notesExclusive_cell (gameState w) _ index); [| | |done]; state_simpl.
  - intros r c Hne. by apply get_set_ne.
  - intros j Hne. by apply list_lookup_alter_ne.
  - intros v s _ _. rewrite list_lookup_alter_eq.
    destruct (possibleNumbers (gameState w) !! index); by intros [= <-].
Qed.

Lemma notesExclusive_clearCell index w :
  notesExclusive (gameState w) →
  notesExclusive (gameState (clearCell index w)).
Proof.
  intros Hinv. unfold clearCell, renderBoard.
  destruct (cellIs (puzzle (gameState w)) (index / 9) (index mod 9) 0); [|done].
  rewrite gameState_saveGameState.
  apply (notesExclusive_cell (gameState w) _ index); [| | |done]; state_simpl.
  - intros r c Hne. by apply get_set_ne.
  - intros j Hne. by apply list_lookup_alter_ne.
  - intros v s Hv%get_set_zero. done.
Qed.

Lemma notesExclusive_togglePossibleNumber index num w :
  notesExclusive (gameState w) →
  notesExclusive (gameState (togglePossibleNumber index num w)).
Proof.
  intros Hinv. unfold togglePossibleNumber, renderBoard.
  destruct (cellIs (userValues (gameState w)) (index / 9) (index mod 9) 0) eqn:Hz.
  - apply cellIs_true in Hz.
    apply (notesExclusive_cell (gameState w) _ index); [| | |done]; state_simpl.
    + done.
    + intros j Hne. by apply list_lookup_alter_ne.
    + intros v s Hv. congruence.
  - apply (notesExclusive_cell (gameState w) _ index); [| | |done]; state_simpl.
    + intros r c Hne. by apply get_set_ne.
    + intros j Hne. by apply list_lookup_alter_ne.
    + intros v s Hv%get_set_zero. done.
Qed.

Lemma notesExclusive_autoFillPossibleNumbers index w :
  notesExclusive (gameState w) →
  notesExclusive (gameState (autoFillPossibleNumbers index w)).
Proof.
  intros Hinv. unfold autoFillPossibleNumbers, renderBoard.
  destruct (cellIs (puzzle (gameState w)) (index / 9) (index mod 9) 0); [|done].
  destruct (cellIs (userValues (gameState w)) (index / 9) (index mod 9) 0) eqn:Hz;
    [|done].
  state_simpl. rewrite gameState_saveGameState. apply cellIs_true in Hz.
  apply (notesExclusive_cell (gameState w) _ index); [| | |done]; state_simpl.
  - done.
  - intros j Hne. by apply list_lookup_insert_ne.
  - intros v s Hv. congruence.
Qed.

Lemma notesExclusive_handleCellDoubleClick index w :
  notesExclusive (gameState w) →
  notesExclusive (gameState (handleCellDoubleClick index w)).
Proof.
  intros Hinv. unfold handleCellDoubleClick.
  destruct (_ || _); [done|].
  destruct (_ || _); [|by apply notesExclusive_autoFillPossibleNumbers].
  destruct (findFinalNumber _ _ _);
    [|by apply notesExclusive_autoFillPossibleNumbers].
  rewrite gameState_saveGameState. by apply notesExclusive_setFinalValue.
Qed.

Lemma notesExclusive_handleKeyDown key shiftKey now w :
  notesExclusive (gameState w) →
  notesExclusive (gameState (handleKeyDown key shiftKey now w)).
Proof.
  intros Hinv. unfold handleKeyDown.
  destruct (selectedCell (gameState w)) as [index|]; [|done].
  destruct (isCompleted (gameState w)); [done|].
  match goal with |- context [match ?x with Some _ => _ | None => _ end] =>
    destruct x end.
  { by rewrite gameState_saveGameState. }
  destruct (negb _); [done|].
  rewrite gameState_saveGameState.
  destruct (_ && _).
  - destruct (_ || _); state_simpl.
    + by apply notesExclusive_setFinalValue.
    + by apply notesExclusive_togglePossibleNumber.
  - destruct (_ || _); [by apply notesExclusive_clearCell|done].
Qed.

Lemma notesExclusive_startTimer now w :
  notesExclusive (gameState w) → notesExclusive (gameState (startTimer now w)).
Proof.
  apply notesExclusive_ext; unfold startTimer, stopTimer;
    destruct (timerInterval w); done.
Qed.

Lemma notesExclusive_dispatch e w w' :
  notesExclusive (gameState w) → dispatch e w = Some w' →
  notesExclusive (gameState w').
Proof.
  intros Hinv. destruct e; cbn [dispatch].
  - unfold startNewGame.
    destruct (generateSolution (random w)) as [[sol rng1]|]; [|done]. cbn.
    destruct (generatePuzzle sol (difficultySelect w) rng1) as [[puz rng2]|]; [|done].
    cbn. intros [= <-]. rewrite gameState_saveGameState.
    apply notesExclusive_startTimer. by apply notesExclusive_emptyNotes.
  - intros [= <-]. unfold resetGame. rewrite gameState_saveGameState.
    apply notesExclusive_startTimer. by apply notesExclusive_emptyNotes.
  - intros [= <-]. unfold clearAllNotes. rewrite gameState_saveGameState.
    by apply notesExclusive_emptyNotes.
  - intros [= <-]. rewrite gameState_validateBoard.
    by eapply notesExclusive_ext.
  - intros [= <-]. by eapply notesExclusive_ext.
  - destruct (selectedCell (gameState w)); intros [= <-]; [|done].
    by apply notesExclusive_autoFillPossibleNumbers.
  - destruct (selectedCell (gameState w)); intros [= <-]; [|done].
    by apply notesExclusive_clearCell.
  - intros [= <-]. by apply notesExclusive_handleKeyDown.
  - by intros [= <-].
  - intros [= <-]. unfold handleCellClick. rewrite gameState_saveGameState.
    by eapply notesExclusive_ext.
  - intros [= <-]. by apply notesExclusive_handleCellDoubleClick.
  - intros [= <-]. by eapply notesExclusive_ext.
  - intros [= <-]. unfold timerTick.
    destruct (timerInterval w); [|done]. destruct (negb _); [|done].
    by eapply notesExclusive_ext.
Qed.

(** ** Well-formed states stay well-formed *)

Lemma gameState_startTimer now w :
  gameState (startTimer now w)
  = withStartTime (Some (now - elapsedTime (gameState w))%Z) (gameState w).
Proof. unfold startTimer, stopTimer. by destruct (timerInterval w). Qed.

Lemma wfState_checkCompletion w :
  wfState (gameState w) → wfState (gameState (checkCompletion w)).
Proof.
  rewrite gameState_checkCompletion. cbv zeta.
  by destruct (checkBoardState (gameState w)) as [[[] []] ?].
Qed.

Lemma selectedCell_checkCompletion w :
  selectedCell (gameState (checkCompletion w)) = selectedCell (gameState w).
Proof.
  rewrite gameState_checkCompletion. cbv zeta.
  by destruct (checkBoardState (gameState w)) as [[[] []] ?].
Qed.

Lemma wfState_setFinalValue index num w :
  wfState (gameState w) → wfState (gameState (setFinalValue index num w)).
Proof.
  intros (Hp & Hs & Hu & Hn). unfold setFinalValue.
  apply wfState_checkCompletion. state_simpl.
  split; [done|]. split; [done|]. split; [by apply wfGrid_set|].
  by rewrite length_alter.
Qed.

Lemma wfState_togglePossibleNumber index num w :
  wfState (gameState w) → wfState (gameState (togglePossibleNumber index num w)).
Proof.
  intros (Hp & Hs & Hu & Hn). unfold togglePossibleNumber.
  destruct (negb _); state_simpl; (split; [done|]); (split; [done|]);
    (split; [done || by apply wfGrid_set|by rewrite length_alter]).
Qed.

Lemma wfState_clearCell index w :
  wfState (gameState w) → wfState (gameState (clearCell index w)).
Proof.
  intros (Hp & Hs & Hu & Hn). unfold clearCell.
  destruct (cellIs _ _ _ _); [|done]. rewrite gameState_saveGameState. state_simpl.
  split; [done|]. split; [done|]. split; [by apply wfGrid_set|].
  by rewrite length_alter.
Qed.

Lemma wfState_autoFillPossibleNumbers index w :
  wfState (gameState w) →
  wfState (gameState (autoFillPossibleNumbers index w)).
Proof.
  intros (Hp & Hs & Hu & Hn). unfold autoFillPossibleNumbers.
  destruct (_ || _); [done|]. rewrite gameState_saveGameState. state_simpl.
  split; [done|]. split; [done|]. split; [done|]. by rewrite length_insert.
Qed.

Lemma selectedCell_setFinalValue index num w :
  selectedCell (gameState (setFinalValue index num w)) = selectedCell (gameState w).
Proof. unfold setFinalValue. by rewrite selectedCell_checkCompletion. Qed.

Lemma selectedCell_togglePossibleNumber index num w :
  selectedCell (gameState (togglePossibleNumber index num w))
  = selectedCell (gameState w).
Proof. unfold togglePossibleNumber. by destruct (negb _). Qed.

Lemma selectedCell_clearCell index w :
  selectedCell (gameState (clearCell index w)) = selectedCell (gameState w).
Proof.
  unfold clearCell. destruct (cellIs _ _ _ _); [|done].
  by rewrite gameState_saveGameState.
Qed.

Lemma selectedCell_autoFillPossibleNumbers index w :
  selectedCell (gameState (autoFillPossibleNumbers index w))
  = selectedCell (gameState w).
Proof.
  unfold autoFillPossibleNumbers. destruct (_ || _); [done|].
  by rewrite gameState_saveGameState.
Qed.

Lemma handleCellDoubleClick_cases index w :
  handleCellDoubleClick index w = w
  ∨ handleCellDoubleClick index w = autoFillPossibleNumbers index w
  ∨ ∃ v, handleCellDoubleClick index w = saveGameState (setFinalValue index v w).
Proof.
  unfold handleCellDoubleClick. destruct (_ || _); [by left|].
  destruct (_ || _); [|by right; left].
  destruct (findFinalNumber _ _ _) as [v|]; [|by right; left].
  right; right. by exists v.
Qed.

(** The four things a key press can do. *)
Lemma handleKeyDown_cases key shiftKey now w :
  handleKeyDown key shiftKey now w = w
  ∨ (∃ index cell,
       selectedCell (gameState w) = Some index
       ∧ isCompleted (gameState w) = false
       ∧ (cell = index - 9 ∧ 0 < index / 9 ∨ cell = index + 9 ∧ index / 9 < 8
          ∨ cell = index - 1 ∧ 0 < index mod 9
          ∨ cell = index + 1 ∧ index mod 9 < 8)
       ∧ handleKeyDown key shiftKey now w
         = saveGameState (modify (withSelectedCell (Some cell)) w))
  ∨ (∃ index,
       selectedCell (gameState w) = Some index
       ∧ isCompleted (gameState w) = false
       ∧ cellIs (puzzle (gameState w)) (index / 9) (index mod 9) 0 = true
       ∧ (handleKeyDown key shiftKey now w
          = saveGameState (withLastKeyPress (Some key, now)
                             (setFinalValue index (parseInt key) w))
          ∨ handleKeyDown key shiftKey now w
            = saveGameState (withLastKeyPress (Some key, now)
                               (togglePossibleNumber index (parseInt key) w))
          ∨ handleKeyDown key shiftKey now w = saveGameState (clearCell index w)
          ∨ handleKeyDown key shiftKey now w = saveGameState w)).
Proof.
  unfold handleKeyDown.
  destruct (selectedCell (gameState w)) as [index|] eqn:Hc; [|by left].
  destruct (isCompleted (gameState w)) eqn:Hcomp; [by left|].
  destruct (String.eqb key "ArrowUp" && (0 <? index / 9)) eqn:E1.
  { right; left. exists index, (index - 9). repeat split; try done.
    apply andb_true_iff in E1 as [_ ?%Nat.ltb_lt]. auto. }
  destruct (String.eqb key "ArrowDown" && (index / 9 <? 8)) eqn:E2.
  { right; left. exists index, (index + 9). repeat split; try done.
    apply andb_true_iff in E2 as [_ ?%Nat.ltb_lt]. auto. }
  destruct (String.eqb key "ArrowLeft" && (0 <? index mod 9)) eqn:E3.
  { right; left. exists index, (index - 1). repeat split; try done.
    apply andb_true_iff in E3 as [_ ?%Nat.ltb_lt]. auto. }
  destruct (String.eqb key "ArrowRight" && (index mod 9 <? 8)) eqn:E4.
  { right; left. exists index, (index + 1). repeat split; try done.
    apply andb_true_iff in E4 as [_ ?%Nat.ltb_lt]. auto 6. }
  destruct (cellIs (puzzle (gameState w)) (index / 9) (index mod 9) 0) eqn:Hinit;
    [|by left].
  right; right. exists index. repeat split; try done. cbn [negb].
  destruct (String.leb "1" key && String.leb key "9").
  - destruct (shiftKey || _); auto.
  - destruct (String.eqb key "Delete" || String.eqb key "Backspace"); auto.
Qed.

Lemma generateSolution_wf rng grid rng' :
  generateSolution rng = Some (grid, rng') →
  wfGrid grid ∧ ∀ r c, get grid r c ≠ Some 0%Z.
Proof.
  unfold generateSolution.
  destruct (fillGrid_zeroGrid rng) as (g & rng1 & Hfill). rewrite Hfill.
  intros [= <- <-].
  destruct (fillGrid_sound _ _ _ _ _ _ partialSudoku_zeroGrid Hfill)
    as [(Hwf & _) Hfull].
  split; [done|]. intros r c Hz.
  destruct (wfGrid_get_lt _ _ _ _ Hwf Hz). by apply (Hfull eq_refl r c).
Qed.

Lemma generatePuzzle_wf solution difficulty rng puzzle rng' :
  wfGrid solution →
  generatePuzzle solution difficulty rng = Some (puzzle, rng') →
  wfGrid puzzle.
Proof.
  intros Hwf. unfold generatePuzzle.
  destruct (DIFFICULTY_LEVELS difficulty) as [level|]; [|done].
  cbn [mbind option_bind].
  destruct (shuffleArray (seq 0 81) rng) as [positions rng1].
  intros [= <- <-]. rewrite removeCells_zeroCells, list_fmap_id.
  by apply wfGrid_zeroCells.
Qed.

Lemma startNewGame_Some now1 now2 w :
  difficultySelect w ∈ ["low"; "medium"; "high"] →
  is_Some (startNewGame now1 now2 w).
Proof.
  intros Hd. unfold startNewGame.
  destruct (fillGrid_zeroGrid (random w)) as (g & rng1 & Hfill).
  assert (Hsol : generateSolution (random w) = Some (g, rng1)).
  { unfold generateSolution. by rewrite Hfill. }
  rewrite Hsol. cbn [mbind option_bind].
  destruct (generateSolution_wf _ _ _ Hsol) as [Hwf Hfull].
  assert (∃ level, DIFFICULTY_LEVELS (difficultySelect w) = Some level)
    as [level Hlevel].
  { rewrite !elem_of_cons, elem_of_nil in Hd.
    destruct Hd as [->|[->|[->|[]]]]; by eexists. }
  destruct (generatePuzzle_pure g _ level rng1 Hwf Hfull Hlevel)
    as (puz & rng2 & -> & _).
  done.
Qed.

Lemma dispatch_wfState e w w' :
  wfState (gameState w) → selectionOnBoard (gameState w) → eventOnBoard e →
  dispatch e w = Some w' →
  wfState (gameState w') ∧ selectionOnBoard (gameState w').
Proof.
  intros Hwf Hsel He. pose proof Hwf as (Hp & Hs & Hu & Hn).
  destruct e; cbn [dispatch eventOnBoard] in *.
  - unfold startNewGame.
    destruct (generateSolution (random w)) as [[sol rng1]|] eqn:Hsol; [|done].
    cbn [mbind option_bind].
    destruct (generatePuzzle sol (difficultySelect w) rng1) as [[puz rng2]|] eqn:Hpuz;
      [|done].
    cbn [mbind option_bind]. intros [= <-].
    rewrite gameState_saveGameState, gameState_startTimer. state_simpl.
    destruct (generateSolution_wf _ _ _ Hsol) as [Hwfs _].
    pose proof (generatePuzzle_wf _ _ _ _ _ Hwfs Hpuz).
    rewrite list_fmap_id. by split.
  - intros [= <-]. unfold resetGame.
    rewrite gameState_saveGameState, gameState_startTimer. state_simpl.
    rewrite list_fmap_id. by split.
  - intros [= <-]. unfold clearAllNotes. rewrite gameState_saveGameState.
    by state_simpl.
  - intros [= <-]. rewrite gameState_validateBoard. by state_simpl.
  - intros [= <-]. by state_simpl.
  - destruct (selectedCell (gameState w)) eqn:Hc; intros [= <-]; [|done].
    state_simpl. split; [by apply wfState_autoFillPossibleNumbers|].
    unfold selectionOnBoard. rewrite selectedCell_autoFillPossibleNumbers.
    intros i Hi. apply Hsel. congruence.
  - destruct (selectedCell (gameState w)) eqn:Hc; intros [= <-]; [|done].
    state_simpl. split; [by apply wfState_clearCell|].
    unfold selectionOnBoard. rewrite selectedCell_clearCell.
    intros i Hi. apply Hsel. congruence.
  - intros [= <-].
    destruct (handleKeyDown_cases key shiftKey now w)
      as [->|[(index & cell & Hc & _ & Hcell & ->)|(index & Hc & _ & _ & Hedit)]].
    + done.
    + rewrite gameState_saveGameState. state_simpl. split; [done|].
      intros i [= <-]. pose proof (Hsel index Hc).
      pose proof (Nat.div_mod_eq index 9). pose proof (Nat.mod_upper_bound index 9).
      lia.
    + destruct Hedit as [->|[->|[->| ->]]]; rewrite gameState_saveGameState;
        state_simpl.
      * split; [by apply wfState_setFinalValue|].
        unfold selectionOnBoard. by rewrite selectedCell_setFinalValue.
      * split; [by apply wfState_togglePossibleNumber|].
        unfold selectionOnBoard. by rewrite selectedCell_togglePossibleNumber.
      * split; [by apply wfState_clearCell|].
        unfold selectionOnBoard. by rewrite selectedCell_clearCell.
      * done.
  - by intros [= <-].
  - intros [= <-]. unfold handleCellClick. rewrite gameState_saveGameState.
    state_simpl. split; [done|]. by intros i [= <-].
  - intros [= <-].
    destruct (handleCellDoubleClick_cases index w) as [->|[->|[v ->]]].
    + done.
    + split; [by apply wfState_autoFillPossibleNumbers|].
      unfold selectionOnBoard. by rewrite selectedCell_autoFillPossibleNumbers.
    + rewrite gameState_saveGameState.
      split; [by apply wfState_setFinalValue|].
      unfold selectionOnBoard. by rewrite selectedCell_setFinalValue.
  - intros [= <-]. state_simpl. split; [done|]. by intros i [= <-].
  - intros [= <-]. unfold timerTick.
    destruct (timerInterval w); [|done]. destruct (negb _); [|done].
    by state_simpl.
Qed.

(** C7: every listener keeps the values and the notes exclusive: after it
    has run, no cell has both a non-zero value and a non-empty candidate
    set.  In particular [setFinalValue] leaves the cell without notes and
    [togglePossibleNumber] leaves it without a value. *)
Theorem values_notes_exclusive e index num w :
  wfState (gameState w) → selectionOnBoard (gameState w) →
  eventOnBoard e → index < 81 →
  notesExclusive (gameState w) →
  possibleNumbers (gameState (setFinalValue index num w)) !! index = Some []
  ∧ get (userValues (gameState (togglePossibleNumber index num w)))
        (index / 9) (index mod 9) = Some 0%Z
  ∧ (difficultySelect w ∈ difficultyKeys → is_Some (dispatch e w))
  ∧ (∀ w', dispatch e w = Some w' →
           notesExclusive (gameState w')
           ∧ wfState (gameState w') ∧ selectionOnBoard (gameState w')).
Proof.
  intros Hwf Hsel He Hindex Hinv. pose proof Hwf as (Hp & Hs & Hu & Hn).
  split; [|split; [|split]].
  - unfold setFinalValue. rewrite possibleNumbers_checkCompletion. state_simpl.
    rewrite list_lookup_alter_eq.
    destruct (lookup_lt_is_Some_2 (possibleNumbers (gameState w)) index) as [s ->];
      [lia|done].
  - unfold togglePossibleNumber.
    destruct (cellIs (userValues (gameState w)) (index / 9) (index mod 9) 0) eqn:Hz;
      state_simpl.
    + by apply cellIs_true.
    + apply get_set_eq. apply wfGrid_get; [done| |].
      * apply Nat.Div0.div_lt_upper_bound. lia.
      * apply Nat.mod_upper_bound. lia.
  - intros Hd. destruct e; cbn [dispatch]; try done.
    + by apply startNewGame_Some.
    + by destruct (selectedCell (gameState w)).
    + by destruct (selectedCell (gameState w)).
  - intros w' Hw'. split; [by eapply notesExclusive_dispatch|].
    by eapply dispatch_wfState.
Qed.

Lemma values_notes_exclusive_witness :
  wfState (gameState almostDone)
  ∧ notesExclusive (gameState almostDone)
  ∧ possibleNumbers (gameState (setFinalValue 0 1 almostDone)) !! 0 = Some []
  ∧ get (userValues (gameState (togglePossibleNumber 0 1 almostDone))) 0 0
    = Some 0%Z
  ∧ (difficultySelect almostDone ∈ difficultyKeys →
     is_Some (dispatch (KeyDown "5" false 0) almostDone))
  ∧ (∀ w', dispatch (KeyDown "5" false 0) almostDone = Some w' →
           notesExclusive (gameState w')
           ∧ wfState (gameState w') ∧ selectionOnBoard (gameState w')).
Proof.
  split; [apply wfState_almostDone|].
  split; [apply notesExclusive_emptyNotes; reflexivity|].
  apply (values_notes_exclusive (KeyDown "5" false 0) 0 1 almostDone).
  - apply wfState_almostDone.
  - intros i [= <-]. lia.
  - exact I.
  - lia.
  - apply notesExclusive_emptyNotes. reflexivity.
Defined.

(** ** Edits of clue cells *)

Lemma isEditKey_not_arrow key :
  isEditKey key = true →
  String.eqb key "ArrowUp" = false ∧ String.eqb key "ArrowDown" = false
  ∧ String.eqb key "ArrowLeft" = false ∧ String.eqb key "ArrowRight" = false.
Proof.
  intros Hkey. repeat split.
  all: match goal with |- String.eqb ?k ?s = false =>
         destruct (String.eqb k s) eqn:E; [|done];
         apply String.eqb_eq in E; subst k; discriminate Hkey end.
Qed.

(** C9: on a cell whose puzzle value is not 0, clearing it or filling in
    its notes (the functions and the context-menu entries), double
    clicking it, and pressing a digit key or Delete or Backspace while it
    is selected return the world they were given: no field changes, the
    status text included, and no exception is raised. *)
Theorem clue_cell_edit_rejected index key shiftKey now w :
  wfState (gameState w) → index < 81 →
  (∃ v, get (puzzle (gameState w)) (index / 9) (index mod 9) = Some v ∧ v ≠ 0%Z) →
  isEditKey key = true →
  clearCell index w = w
  ∧ autoFillPossibleNumbers index w = w
  ∧ dispatch (CellDblClick index) w = Some w
  ∧ (selectedCell (gameState w) = Some index →
     dispatch ClearCellClick w = Some w
     ∧ dispatch AutoFillCellClick w = Some w
     ∧ dispatch (KeyDown key shiftKey now) w = Some w).
Proof.
  intros _ _ (v & Hv & Hnz) Hkey.
  assert (Hinit : cellIs (puzzle (gameState w)) (index / 9) (index mod 9) 0 = false).
  { apply cellIs_false. congruence. }
  assert (Hclear : clearCell index w = w).
  { unfold clearCell. by rewrite Hinit. }
  assert (Hfill : autoFillPossibleNumbers index w = w).
  { unfold autoFillPossibleNumbers. by rewrite Hinit. }
  split; [done|]. split; [done|]. split.
  { cbn [dispatch]. unfold handleCellDoubleClick. by rewrite Hinit. }
  intros Hsel. split; [|split].
  - cbn [dispatch]. rewrite Hsel. unfold hideContextMenu. by rewrite Hclear.
  - cbn [dispatch]. rewrite Hsel. unfold hideContextMenu. by rewrite Hfill.
  - cbn [dispatch]. f_equal. unfold handleKeyDown. rewrite Hsel.
    destruct (isCompleted (gameState w)); [done|].
    destruct (isEditKey_not_arrow key Hkey) as (-> & -> & -> & ->).
    cbn [andb]. by rewrite Hinit.
Qed.

Lemma clue_cell_edit_rejected_witness :
  let w := modify (withSelectedCell (Some 1)) almostDone in
  wfState (gameState w) ∧ 1 < 81
  ∧ clearCell 1 w = w
  ∧ autoFillPossibleNumbers 1 w = w
  ∧ dispatch (CellDblClick 1) w = Some w
  ∧ (selectedCell (gameState w) = Some 1 →
     dispatch ClearCellClick w = Some w
     ∧ dispatch AutoFillCellClick w = Some w
     ∧ dispatch (KeyDown "7" true 10) w = Some w).
Proof.
  split; [apply wfState_almostDone|]. split; [lia|].
  apply (clue_cell_edit_rejected 1 "7" true 10
           (modify (withSelectedCell (Some 1)) almostDone)).
  - apply wfState_almostDone.
  - lia.
  - exists 2%Z. split; [reflexivity|lia].
  - reflexivity.
Defined.

(** ** After completion *)

(** The keyboard path refuses every key once the session is completed. *)
Lemma handleKeyDown_completed key shiftKey now w :
  isCompleted (gameState w) = true → handleKeyDown key shiftKey now w = w.
Proof.
  intros H. unfold handleKeyDown. rewrite H.
  by destruct (selectedCell (gameState w)).
Qed.

(** What each listener does to [isCompleted]. *)
Lemma isCompleted_resetGame now1 now2 w :
  isCompleted (gameState (resetGame now1 now2 w)) = false.
Proof.
  unfold resetGame. by rewrite gameState_saveGameState, gameState_startTimer.
Qed.

Lemma isCompleted_startNewGame now1 now2 w w' :
  startNewGame now1 now2 w = Some w' → isCompleted (gameState w') = false.
Proof.
  unfold startNewGame.
  destruct (generateSolution _) as [[sol rng1]|]; [|done].
  cbn [mbind option_bind].
  destruct (generatePuzzle _ _ _) as [[puz rng2]|]; [|done].
  cbn [mbind option_bind]. intros [= <-].
  by rewrite gameState_saveGameState, gameState_startTimer.
Qed.

Lemma isCompleted_clearAllNotes w :
  isCompleted (gameState (clearAllNotes w)) = isCompleted (gameState w).
Proof. unfold clearAllNotes. by rewrite gameState_saveGameState. Qed.

Lemma isCompleted_validateBoard w :
  isCompleted (gameState (validateBoard w)) = isCompleted (gameState w).
Proof. by rewrite gameState_validateBoard. Qed.

Lemma isCompleted_autoFillPossibleNumbers index w :
  isCompleted (gameState (autoFillPossibleNumbers index w))
  = isCompleted (gameState w).
Proof.
  unfold autoFillPossibleNumbers. destruct (_ || _); [done|].
  by rewrite gameState_saveGameState.
Qed.

Lemma isCompleted_clearCell index w :
  isCompleted (gameState (clearCell index w)) = isCompleted (gameState w).
Proof.
  unfold clearCell. destruct (cellIs _ _ _ _); [|done].
  by rewrite gameState_saveGameState.
Qed.

Lemma isCompleted_handleCellClick index w :
  isCompleted (gameState (handleCellClick index w)) = isCompleted (gameState w).
Proof. unfold handleCellClick. by rewrite gameState_saveGameState. Qed.

Lemma isCompleted_timerTick now w :
  isCompleted (gameState (timerTick now w)) = isCompleted (gameState w).
Proof.
  unfold timerTick. destruct (timerInterval w); [|done]. by destruct (negb _).
Qed.

(** Apart from key presses and double clicks, a listener leaves
    [isCompleted] as it was or sets it to false. *)
Lemma isCompleted_dispatch_other e w w' :
  dispatch e w = Some w' →
  (∃ key shiftKey now, e = KeyDown key shiftKey now)
  ∨ (∃ index, e = CellDblClick index)
  ∨ isCompleted (gameState w') = isCompleted (gameState w)
  ∨ ((∃ now1 now2, e = NewGameClick now1 now2 ∨ e = ResetGameClick now1 now2)
     ∧ isCompleted (gameState w') = false).
Proof.
  destruct e; cbn [dispatch]; intros Hw'.
  - right; right; right. split; [by eauto|].
    by eapply isCompleted_startNewGame.
  - right; right; right. split; [by eauto|].
    injection Hw' as <-. apply isCompleted_resetGame.
  - right; right; left. injection Hw' as <-. apply isCompleted_clearAllNotes.
  - right; right; left. injection Hw' as <-. apply isCompleted_validateBoard.
  - right; right; left. by injection Hw' as <-.
  - right; right; left.
    destruct (selectedCell (gameState w)); injection Hw' as <-; [|done].
    apply isCompleted_autoFillPossibleNumbers.
  - right; right; left.
    destruct (selectedCell (gameState w)); injection Hw' as <-; [|done].
    apply isCompleted_clearCell.
  - left. eauto.
  - right; right; left. by injection Hw' as <-.
  - right; right; left. injection Hw' as <-. apply isCompleted_handleCellClick.
  - right; left. eauto.
  - right; right; left. by injection Hw' as <-.
  - right; right; left. injection Hw' as <-. apply isCompleted_timerTick.
Qed.

Lemma isCompleted_setFinalValue index num w :
  isCompleted (gameState w) = true →
  isCompleted (gameState (setFinalValue index num w)) = true.
Proof.
  intros Hc. unfold setFinalValue. rewrite gameState_checkCompletion. cbv zeta.
  by destruct (checkBoardState _) as [[[] []] ?].
Qed.

(** No listener but "new game" and "reset" clears [isCompleted]. *)
Lemma isCompleted_dispatch e w w' :
  isCompleted (gameState w) = true → dispatch e w = Some w' →
  (∀ now1 now2, e ≠ NewGameClick now1 now2 ∧ e ≠ ResetGameClick now1 now2) →
  isCompleted (gameState w') = true.
Proof.
  intros Hc Hw' Hne.
  destruct (isCompleted_dispatch_other e w w' Hw')
    as [(key & shiftKey & now & ->)|[(index & ->)|[->|[(now1 & now2 & He) _]]]].
  - cbn [dispatch] in Hw'. injection Hw' as <-.
    by rewrite handleKeyDown_completed.
  - cbn [dispatch] in Hw'. injection Hw' as <-.
    destruct (handleCellDoubleClick_cases index w) as [->|[->|[v ->]]]; [done| |].
    + by rewrite isCompleted_autoFillPossibleNumbers.
    + rewrite gameState_saveGameState. by apply isCompleted_setFinalValue.
  - done.
  - destruct (Hne now1 now2) as [H1 H2]. by destruct He.
Qed.

(** C6 fails on the code: in a completed session the context-menu entry
    "clear cell" still empties a cell the player had filled, and a double
    click then writes it again, while the keyboard path ignores the same
    request. *)
Theorem completed_session_still_editable :
  isCompleted (gameState completedWorld) = true
  ∧ selectedCell (gameState completedWorld) = Some 0
  ∧ get (puzzle (gameState completedWorld)) 0 0 = Some 0%Z
  ∧ get (userValues (gameState completedWorld)) 0 0 = Some 1%Z
  ∧ handleKeyDown "Delete" false 2000 completedWorld = completedWorld
  ∧ ∃ w1 w2,
      dispatch ClearCellClick completedWorld = Some w1
      ∧ isCompleted (gameState w1) = true
      ∧ get (userValues (gameState w1)) 0 0 = Some 0%Z
      ∧ dispatch (CellDblClick 0) w1 = Some w2
      ∧ get (userValues (gameState w2)) 0 0 = Some 1%Z.
Proof.
  repeat split. eexists _, _. repeat split.
Qed.

(** ** Double activation *)

Lemma countEmptyCellsIn_one gs cells row col :
  NoDup cells → (row, col) ∈ cells →
  get (userValues gs) row col = Some 0%Z →
  countEmptyCellsIn gs cells = 1 ↔ soleEmptyIn gs cells row col.
Proof.
  intros Hnd Hin Hz. unfold countEmptyCellsIn, soleEmptyIn.
  set (P := λ '(r, c), cellIs (userValues gs) r c 0 = true).
  assert (Hmem : (row, col) ∈ filter P cells).
  { apply list_elem_of_filter. split; [by apply cellIs_true|done]. }
  split.
  - intros Hlen r c Hrc Hne Hzero.
    destruct (filter P cells) as [|x [|y l]] eqn:Hf; simplify_eq/=.
    apply list_elem_of_singleton in Hmem as <-.
    assert (Hrc' : (r, c) ∈ filter P cells).
    { apply list_elem_of_filter. split; [by apply cellIs_true|done]. }
    rewrite Hf in Hrc'. by apply list_elem_of_singleton in Hrc'.
  - intros Hsole.
    assert (Hperm : filter P cells ≡ₚ [(row, col)]).
    { apply NoDup_Permutation; [by apply NoDup_filter|apply NoDup_singleton|].
      intros [r c]. rewrite list_elem_of_singleton. split; [|by intros ->].
      intros [Hp Hrc]%list_elem_of_filter.
      destruct (decide ((r, c) = (row, col))) as [|Hne]; [done|].
      apply cellIs_true in Hp. by destruct (Hsole r c Hrc Hne). }
    by rewrite Hperm.
Qed.

Lemma NoDup_rowCells row : NoDup (rowCells row).
Proof.
  apply (NoDup_fmap_2_strong (λ c, (row, c)) (seq 0 9));
    [by intros ???? [=]|apply NoDup_seq].
Qed.

Lemma NoDup_colCells col : NoDup (colCells col).
Proof.
  apply (NoDup_fmap_2_strong (λ r, (r, col)) (seq 0 9));
    [by intros ???? [=]|apply NoDup_seq].
Qed.

Lemma NoDup_boxCells br bc : NoDup (boxCells br bc).
Proof.
  unfold boxCells. cbn [seq mbind list_bind concat_map app mret list_ret].
  cbn. repeat (apply NoDup_cons; split;
    [rewrite ?elem_of_cons, elem_of_nil; intros H;
     repeat destruct H as [H|H]; try done; injection H; lia|]).
  apply NoDup_nil_2.
Qed.

Lemma box_origin n : n / 3 * 3 = n - n mod 3.
Proof. pose proof (Nat.div_mod_eq n 3). lia. Qed.

Lemma lastInUnit_true gs row col :
  row < 9 → col < 9 → get (userValues gs) row col = Some 0%Z →
  (countEmptyCellsInRow gs row =? 1)
  || (countEmptyCellsInColumn gs col =? 1)
  || (countEmptyCellsInSquare gs row col =? 1) = true
  ↔ lastInUnit gs row col.
Proof.
  intros Hrow Hcol Hz. rewrite !orb_true_iff, !Nat.eqb_eq.
  unfold countEmptyCellsInRow, countEmptyCellsInColumn, countEmptyCellsInSquare,
    lastInUnit.
  rewrite !box_origin.
  rewrite (countEmptyCellsIn_one gs (rowCells row) row col),
    (countEmptyCellsIn_one gs (colCells col) row col),
    (countEmptyCellsIn_one gs (boxCells _ _) row col); try done.
  - tauto.
  - apply NoDup_boxCells.
  - apply elem_of_boxCells.
    pose proof (Nat.mod_upper_bound row 3). pose proof (Nat.mod_upper_bound col 3).
    pose proof (Nat.Div0.mod_le row 3). pose proof (Nat.Div0.mod_le col 3). lia.
  - apply NoDup_colCells.
  - by apply elem_of_colCells.
  - apply NoDup_rowCells.
  - by apply elem_of_rowCells.
Qed.

Lemma elem_of_foldl_deleteCellValue uv (s : list Z) cells x :
  x ∈ foldl (deleteCellValue uv) s cells
  ↔ x ∈ s ∧ ∀ r c, (r, c) ∈ cells → get uv r c ≠ Some x.
Proof.
  revert s. induction cells as [|[r c] cells IH]; intros s; cbn [foldl].
  - split; [|tauto]. intros H. split; [done|]. intros r c Hin.
    by apply elem_of_nil in Hin.
  - rewrite IH. unfold deleteCellValue. cbn [fst snd].
    setoid_rewrite elem_of_cons.
    destruct (get uv r c) as [v|] eqn:Hv.
    + unfold setDelete. rewrite list_elem_of_filter. split.
      * intros [[Hne Hin] Hrest]. split; [done|].
        intros r' c' [[= -> ->]|Hin']; [congruence|by apply Hrest].
      * intros [Hin Hall]. split; [split; [|done]|by auto].
        intros ->. by apply (Hall r c); [left|].
    + split.
      * intros [Hin Hrest]. split; [done|].
        intros r' c' [[= -> ->]|Hin']; [congruence|by apply Hrest].
      * intros [Hin Hall]. split; [done|]. auto.
Qed.

Lemma NoDup_foldl_deleteCellValue uv (s : list Z) cells :
  NoDup s → NoDup (foldl (deleteCellValue uv) s cells).
Proof.
  revert s. induction cells as [|[r c] cells IH]; intros s Hs; [done|].
  cbn [foldl]. apply IH. unfold deleteCellValue.
  destruct (get uv _ _); [by apply NoDup_filter|done].
Qed.

Lemma elem_of_possibleAfterScans gs row col d :
  row < 9 → col < 9 →
  d ∈ possibleAfterScans gs row col ↔ absentDigit gs row col d.
Proof.
  intros Hrow Hcol. unfold possibleAfterScans, absentDigit. cbv zeta.
  rewrite !elem_of_foldl_deleteCellValue, (setFromArray_NoDup _ NoDup_digits),
    elem_of_digits.
  setoid_rewrite elem_of_rowCells. setoid_rewrite elem_of_colCells.
  setoid_rewrite elem_of_boxCells.
  split.
  - intros [[[Hd Hr] Hc] Hb]. split; [done|]. intros r c Hin.
    apply scanned_inUnits in Hin; [|done..].
    destruct Hin as [H|[H|H]]; auto.
  - intros [Hd Hall].
    split; [split; [split; [done|]|]|]; intros r c Hin;
      apply Hall, scanned_inUnits; unfold scanned; auto.
Qed.

Lemma NoDup_possibleAfterScans gs row col : NoDup (possibleAfterScans gs row col).
Proof.
  unfold possibleAfterScans. cbv zeta.
  do 3 apply NoDup_foldl_deleteCellValue.
  rewrite (setFromArray_NoDup _ NoDup_digits). apply NoDup_digits.
Qed.

Lemma findFinalNumber_Some gs row col v :
  row < 9 → col < 9 →
  findFinalNumber gs row col = Some v ↔ onlyAbsentDigit gs row col v.
Proof.
  intros Hrow Hcol. unfold findFinalNumber, onlyAbsentDigit, setSize, arrayFromSet.
  cbv zeta.
  pose proof (NoDup_possibleAfterScans gs row col) as Hnd.
  pose proof (λ d, elem_of_possibleAfterScans gs row col d Hrow Hcol) as Hmem.
  destruct (possibleAfterScans gs row col) as [|x [|y l]] eqn:Hp; cbn.
  - split; [done|]. intros [Habs _]. apply Hmem in Habs. by apply elem_of_nil in Habs.
  - split.
    + intros [= <-]. split; [apply Hmem; left|].
      intros d Hd%Hmem. by apply list_elem_of_singleton in Hd.
    + intros [Habs _]. apply Hmem, list_elem_of_singleton in Habs. by subst.
  - split; [done|]. intros [_ Huniq].
    apply NoDup_cons in Hnd as [Hx _]. destruct Hx.
    rewrite (Huniq x), <-(Huniq y); [left| |]; apply Hmem; [right; left|left].
Qed.

Lemma findFinalNumber_None gs row col :
  row < 9 → col < 9 →
  findFinalNumber gs row col = None ↔ ¬ ∃ v, onlyAbsentDigit gs row col v.
Proof.
  intros Hrow Hcol. split.
  - intros Hnone [v Hv]. apply findFinalNumber_Some in Hv; [|done..]. congruence.
  - intros Hno. destruct (findFinalNumber gs row col) as [v|] eqn:Hv; [|done].
    destruct Hno. exists v. by apply findFinalNumber_Some.
Qed.

(** C8: a double click on a cell that is not a clue and holds 0.  If the
    cell is the last empty one of its row, its column or its box and
    exactly one digit [v] is absent from its row, column and box, the
    click performs [setFinalValue] with [v] (and so the completion check)
    and the cell holds [v]; otherwise it is [autoFillPossibleNumbers]:
    the values stay and the cell's candidate set becomes the set of the
    absent digits. *)
Theorem handleCellDoubleClick_spec index w :
  let row := index / 9 in
  let col := index mod 9 in
  let gs := gameState w in
  wfState gs → index < 81 →
  get (puzzle gs) row col = Some 0%Z → get (userValues gs) row col = Some 0%Z →
  (∀ v, lastInUnit gs row col → onlyAbsentDigit gs row col v →
        handleCellDoubleClick index w = saveGameState (setFinalValue index v w)
        ∧ get (userValues (gameState (handleCellDoubleClick index w))) row col
          = Some v)
  ∧ (¬ lastInUnit gs row col ∨ ¬ (∃ v, onlyAbsentDigit gs row col v) →
     handleCellDoubleClick index w = autoFillPossibleNumbers index w
     ∧ userValues (gameState (handleCellDoubleClick index w)) = userValues gs
     ∧ ∃ cands,
         possibleNumbers (gameState (handleCellDoubleClick index w))
         = <[index := cands]> (possibleNumbers gs)
         ∧ NoDup cands ∧ ∀ d, d ∈ cands ↔ absentDigit gs row col d).
Proof.
  intros row col gs Hwf Hindex Hpuz Huv.
  assert (Hrow : row < 9) by (apply Nat.Div0.div_lt_upper_bound; lia).
  assert (Hcol : col < 9) by (apply Nat.mod_upper_bound; lia).
  pose proof (lastInUnit_true gs row col Hrow Hcol Huv) as Hlast.
  assert (Hauto : autoFillPossibleNumbers index w
                  = saveGameState (modify (λ gs, withPossibleNumbers
                      (<[index := possibleAfterScans (gameState w) row col]>
                         (possibleNumbers gs)) gs) w)).
  { unfold autoFillPossibleNumbers. fold row col.
    apply cellIs_true in Hpuz, Huv. fold gs. by rewrite Hpuz, Huv. }
  assert (Hdbl : handleCellDoubleClick index w
    = if (countEmptyCellsInRow gs row =? 1)
         || (countEmptyCellsInColumn gs col =? 1)
         || (countEmptyCellsInSquare gs row col =? 1)
      then match findFinalNumber gs row col with
           | Some finalNumber => saveGameState (setFinalValue index finalNumber w)
           | None => autoFillPossibleNumbers index w
           end
      else autoFillPossibleNumbers index w).
  { unfold handleCellDoubleClick. fold row col gs.
    apply cellIs_true in Hpuz, Huv. by rewrite Hpuz, Huv. }
  assert (Hfill : handleCellDoubleClick index w = autoFillPossibleNumbers index w →
    handleCellDoubleClick index w = autoFillPossibleNumbers index w
    ∧ userValues (gameState (handleCellDoubleClick index w)) = userValues gs
    ∧ ∃ cands,
        possibleNumbers (gameState (handleCellDoubleClick index w))
        = <[index := cands]> (possibleNumbers gs)
        ∧ NoDup cands ∧ ∀ d, d ∈ cands ↔ absentDigit gs row col d).
  { intros ->. split; [done|]. rewrite Hauto, gameState_saveGameState.
    split; [done|]. exists (possibleAfterScans gs row col).
    split; [done|]. split; [apply NoDup_possibleAfterScans|].
    intros d. by apply elem_of_possibleAfterScans. }
  split.
  - intros v Hl Hv. apply Hlast in Hl. apply findFinalNumber_Some in Hv; [|done..].
    rewrite Hdbl, Hl, Hv. split; [done|].
    rewrite gameState_saveGameState. unfold setFinalValue.
    rewrite userValues_checkCompletion. state_simpl.
    apply get_set_eq. by exists 0%Z.
  - intros Hno. apply Hfill. rewrite Hdbl. destruct Hno as [Hno|Hno].
    + rewrite <-Hlast in Hno. apply not_true_is_false in Hno. by rewrite Hno.
    + apply findFinalNumber_None in Hno; [|done..]. rewrite Hno.
      by destruct (_ || _).
Qed.

Lemma handleCellDoubleClick_spec_witness :
  wfState (gameState almostDone) ∧ 0 < 81
  ∧ get (puzzle (gameState almostDone)) 0 0 = Some 0%Z
  ∧ get (userValues (gameState almostDone)) 0 0 = Some 0%Z
  ∧ (∀ v, lastInUnit (gameState almostDone) 0 0 →
          onlyAbsentDigit (gameState almostDone) 0 0 v →
          handleCellDoubleClick 0 almostDone
          = saveGameState (setFinalValue 0 v almostDone)
          ∧ get (userValues (gameState (handleCellDoubleClick 0 almostDone))) 0 0
            = Some v)
  ∧ (¬ lastInUnit (gameState almostDone) 0 0
     ∨ ¬ (∃ v, onlyAbsentDigit (gameState almostDone) 0 0 v) →
     handleCellDoubleClick 0 almostDone = autoFillPossibleNumbers 0 almostDone
     ∧ userValues (gameState (handleCellDoubleClick 0 almostDone))
       = userValues (gameState almostDone)
     ∧ ∃ cands,
         possibleNumbers (gameState (handleCellDoubleClick 0 almostDone))
         = <[0 := cands]> (possibleNumbers (gameState almostDone))
         ∧ NoDup cands
         ∧ ∀ d, d ∈ cands ↔ absentDigit (gameState almostDone) 0 0 d).
Proof.
  split; [apply wfState_almostDone|]. split; [lia|].
  split; [reflexivity|]. split; [reflexivity|].
  apply (handleCellDoubleClick_spec 0 almostDone);
    [apply wfState_almostDone|lia|reflexivity|reflexivity].
Defined.

(** The scenario of the specification: the first row reads
    5 3 4 6 7 8 9 1 _ and a double click on its last cell writes 2; a
    double click on a cell of the empty bottom rows only fills in notes. *)
Lemma double_click_scenario :
  get (userValues (gameState (handleCellDoubleClick 8 scenarioWorld))) 0 8
  = Some 2%Z
  ∧ possibleNumbers (gameState (handleCellDoubleClick 8 scenarioWorld)) !! 8
    = Some []
  ∧ get (userValues (gameState (handleCellDoubleClick 72 scenarioWorld))) 8 0
    = Some 0%Z
  ∧ possibleNumbers (gameState (handleCellDoubleClick 72 scenarioWorld)) !! 72
    = Some [2%Z; 3%Z].
Proof. repeat split. Qed.

(** Only a key press or a double click, the two callers of
    [setFinalValue], can complete a session. *)
Lemma completion_only_by_set_value e w w' :
  isCompleted (gameState w) = false → dispatch e w = Some w' →
  isCompleted (gameState w') = true →
  (∃ key shiftKey now, e = KeyDown key shiftKey now)
  ∨ (∃ index, e = CellDblClick index).
Proof.
  intros Hc Hw' Hc'.
  destruct (isCompleted_dispatch_other e w w' Hw') as [H|[H|[H|[_ H]]]];
    [by left|by right|congruence..].
Qed.

(** C10: on a session with 9x9 grids and 81 candidate sets,
    [validateBoard] sets [showErrors], reports in the status text
    whether some filled cell differs from the solution, and stores the
    state; every other field of the game state, [isCompleted] among them,
    and of the world stays as it was.  A session that is not completed
    can only become completed by a key press or a double click, the two
    listeners that call [setFinalValue]. *)
Theorem validateBoard_frame w :
  wfState (gameState w) →
  gameState (validateBoard w) = withShowErrors true (gameState w)
  ∧ wfState (gameState (validateBoard w))
  ∧ isCompleted (gameState (validateBoard w)) = isCompleted (gameState w)
  ∧ statusText (validateBoard w)
    = (if boardHasErrors (gameState w) then StatusIncorrect else StatusAllCorrect)
  ∧ localStorage (validateBoard w)
    = (if storageRejectsWrites w then localStorage w
       else Some (stateToSave (withShowErrors true (gameState w))))
  ∧ timerInterval (validateBoard w) = timerInterval w
  ∧ lastKeyPress (validateBoard w) = lastKeyPress w
  ∧ difficultySelect (validateBoard w) = difficultySelect w
  ∧ storageRejectsWrites (validateBoard w) = storageRejectsWrites w
  ∧ random (validateBoard w) = random w
  ∧ (∀ e w',
       isCompleted (gameState w) = false → dispatch e w = Some w' →
       isCompleted (gameState w') = true →
       (∃ key shiftKey now, e = KeyDown key shiftKey now)
       ∨ (∃ index, e = CellDblClick index)).
Proof.
  intros Hwf.
  assert (Hflags : (checkBoardState (gameState (modify (withShowErrors true) w))).2
                   = boardHasErrors (gameState w)).
  { by rewrite checkBoardState_hasErrors. }
  split; [apply gameState_validateBoard|].
  split; [by rewrite gameState_validateBoard|].
  split; [apply isCompleted_validateBoard|].
  unfold validateBoard, renderBoard. cbv zeta.
  destruct (checkBoardState (gameState (modify (withShowErrors true) w)))
    as [[allFilled allCorrect] hasErrors].
  cbn [snd] in Hflags. subst hasErrors. unfold saveGameState.
  repeat split.
  1-7: destruct (boardHasErrors (gameState w)), (storageRejectsWrites w) eqn:Hrej;
    state_simpl; rewrite ?Hrej; done.
  intros e w'. apply completion_only_by_set_value.
Qed.

Lemma validateBoard_frame_witness :
  boardFilled (gameState solvedUnchecked)
  ∧ boardCorrect (gameState solvedUnchecked)
  ∧ isCompleted (gameState solvedUnchecked) = false
  ∧ isCompleted (gameState (validateBoard solvedUnchecked)) = false
  ∧ statusText (validateBoard solvedUnchecked) = StatusAllCorrect.
Proof.
  split; [by apply checkBoardState_allFilled|].
  split; [by apply checkBoardState_allCorrect|].
  split; [reflexivity|].
  destruct (validateBoard_frame solvedUnchecked) as (_ & _ & Hc & Hst & _).
  { apply wfState_example; try reflexivity; by repeat constructor. }
  split; [by rewrite Hc|by rewrite Hst].
Defined.

(** * Further properties *)

(** ** shuffleArray *)

(** X1: [shuffleArray] returns a permutation of its argument, of the same
    length, whatever [Math.random] delivers; an array of at most one
    element comes back as it is and no random number is drawn. *)
Theorem shuffleArray_permutes {A} (array : list A) rng :
  (shuffleArray array rng).1 ≡ₚ array
  ∧ length (shuffleArray array rng).1 = length array
  ∧ (length array ≤ 1 → shuffleArray array rng = (array, rng)).
Proof.
  split; [apply shuffleArray_Permutation|]. split.
  - by rewrite shuffleArray_Permutation.
  - intros Hlen. unfold shuffleArray.
    by replace (length array - 1) with 0 by lia.
Qed.

Lemma shuffleArray_permutes_witness :
  (shuffleArray [7%Z] identityDraws).1 ≡ₚ [7%Z]
  ∧ length (shuffleArray [7%Z] identityDraws).1 = 1
  ∧ (1 ≤ 1 → shuffleArray [7%Z] identityDraws = ([7%Z], identityDraws)).
Proof. apply (shuffleArray_permutes [7%Z] identityDraws). Defined.

Lemma swap_lookup {A} (arr : list A) i j k x y :
  arr !! i = Some x → arr !! j = Some y →
  swap arr i j !! k
  = if decide (k = j) then Some x
    else if decide (k = i) then Some y else arr !! k.
Proof.
  intros Hi Hj. unfold swap. rewrite Hi, Hj.
  pose proof (lookup_lt_Some _ _ _ Hi). pose proof (lookup_lt_Some _ _ _ Hj).
  destruct (decide (k = j)) as [->|Hkj].
  - apply list_lookup_insert_eq. by rewrite length_insert.
  - rewrite list_lookup_insert_ne by done.
    destruct (decide (k = i)) as [->|Hki].
    + by apply list_lookup_insert_eq.
    + by rewrite list_lookup_insert_ne.
Qed.

(** Two permutations of each other that agree beyond index [i] have
    their first [i + 1] elements permuted. *)
Lemma Permutation_take_agree {A} (t arr : list A) i :
  t ≡ₚ arr → (∀ k, i < k → t !! k = arr !! k) →
  take (S i) t ≡ₚ take (S i) arr.
Proof.
  intros Hperm Hagree.
  assert (Hdrop : drop (S i) t = drop (S i) arr).
  { apply list_eq. intros k. rewrite !lookup_drop. apply Hagree. lia. }
  rewrite <-(take_drop (S i) t), <-(take_drop (S i) arr), Hdrop in Hperm.
  by apply Permutation_app_inv_r in Hperm.
Qed.

Lemma shuffleLoop_reaches {A} i (arr t : list A) :
  i < length arr → t ≡ₚ arr → (∀ k, i < k → t !! k = arr !! k) →
  ∀ rest, ∃ rng, shuffleLoop i arr rng = (t, rest).
Proof.
  revert arr. induction i as [|i IH]; intros arr Hlen Hperm Hagree rest.
  - exists rest. simpl. f_equal.
    pose proof (Permutation_take_agree t arr 0 Hperm Hagree) as Hhead.
    apply list_eq. intros [|k]; [|symmetry; apply Hagree; lia].
    destruct arr as [|a arr]; [simpl in Hlen; lia|].
    destruct t as [|b t]; [by apply Permutation_nil_cons in Hperm|].
    simpl in Hhead. rewrite !take_0 in Hhead.
    by apply Permutation_singleton_inj in Hhead as ->.
  - pose proof (Permutation_length Hperm) as Hlent.
    destruct (lookup_lt_is_Some_2 t (S i)) as [x Hx]; [lia|].
    destruct (lookup_lt_is_Some_2 arr (S i)) as [y Hy]; [lia|].
    assert (∃ j, j < S (S i) ∧ arr !! j = Some x) as (j & Hj & Hjx).
    { pose proof (Permutation_take_agree t arr (S i) Hperm Hagree) as Htake.
      assert (Hin : x ∈ take (S (S i)) t).
      { apply elem_of_take. exists (S i). split; [done|lia]. }
      rewrite Htake in Hin. apply elem_of_take in Hin as (j & ? & ?). eauto. }
    destruct (IH (swap arr (S i) j)) with (rest := rest) as [rng' Hrng'].
    + unfold swap. rewrite Hy, Hjx, !length_insert. lia.
    + by rewrite swap_Permutation.
    + intros k Hk. rewrite (swap_lookup arr (S i) j k y x) by done.
      destruct (decide (k = j)) as [->|Hkj].
      { assert (j = S i) as -> by lia. congruence. }
      destruct (decide (k = S i)) as [->|Hki]; [done|].
      apply Hagree. lia.
    + exists (λ k, match k with 0 => j | S k' => rng' k' end).
      cbn [shuffleLoop]. unfold randomBelow.
      replace (S i + 1) with (S (S i)) by lia.
      rewrite (Nat.mod_small j) by done.
      exact Hrng'.
Qed.

Lemma shuffleArray_reaches_with {A} (array target : list A) rest :
  target ≡ₚ array → ∃ rng, shuffleArray array rng = (target, rest).
Proof.
  intros Hperm. unfold shuffleArray.
  destruct array as [|a array].
  - apply Permutation_nil_r in Hperm as ->. by exists rest.
  - apply shuffleLoop_reaches; [simpl; lia|done|].
    intros k Hk. simpl in Hk.
    rewrite !lookup_ge_None_2; [done|simpl; lia|].
    rewrite (Permutation_length Hperm). simpl. lia.
Qed.

(** X2: every permutation of the argument is a possible result of
    [shuffleArray]: some sequence of random numbers produces it, and
    leaves any given sequence for the draws that follow. *)
Theorem shuffleArray_reaches {A} (array target : list A) rest :
  target ≡ₚ array → ∃ rng, shuffleArray array rng = (target, rest).
Proof.
  intros Hperm. unfold shuffleArray.
  pose proof (Permutation_length Hperm) as Hlen.
  destruct array as [|a array].
  - apply Permutation_nil_r in Hperm as ->. by exists rest.
  - apply shuffleLoop_reaches; [simpl; lia|done|].
    intros k Hk. simpl in Hk, Hlen.
    by rewrite !lookup_ge_None_2 by (simpl; lia).
Qed.

Lemma shuffleArray_reaches_witness :
  ∃ rng, shuffleArray [1; 2; 3]%Z rng = ([3; 1; 2]%Z, identityDraws).
Proof.
  apply (shuffleArray_reaches [1; 2; 3]%Z [3; 1; 2]%Z identityDraws).
  apply (Permutation_cons_append [1; 2]%Z 3%Z).
Defined.

(** ** findEmptyCell *)

Lemma find_first {A} (f : A → bool) (l : list A) x :
  find f l = Some x →
  ∃ i, l !! i = Some x ∧ f x = true
       ∧ ∀ j y, j < i → l !! j = Some y → f y = false.
Proof.
  induction l as [|a l IH]; [done|]. simpl.
  destruct (f a) eqn:Ha.
  - intros [= <-]. exists 0. repeat split; [done|]. intros j y Hj. lia.
  - intros (i & Hi & Hx & Hbefore)%IH. exists (S i). repeat split; [done..|].
    intros [|j] y Hj; simpl; [by intros [= <-]|].
    apply Hbefore. lia.
Qed.

Lemma allCells_lookup r c :
  r < 9 → c < 9 → allCells !! (9 * r + c) = Some (r, c).
Proof.
  intros Hr Hc.
  change allCells with ((λ i, (i / 9, i mod 9)) <$> seq 0 81).
  rewrite list_lookup_fmap, lookup_seq_lt by lia. simpl. f_equal.
  apply pair_equal_spec. split.
  - symmetry. apply (Nat.div_unique _ 9 r c); lia.
  - symmetry. apply (Nat.mod_unique _ 9 r c); lia.
Qed.

(** X3: [findEmptyCell] returns the first cell in row-major order that
    holds 0: the cell it returns is on the board and empty, and every cell
    of an earlier row, or earlier in the same row, is not; it returns null
    exactly when no cell of the board holds 0. *)
Theorem findEmptyCell_first grid :
  match findEmptyCell grid with
  | Some (row, col) =>
      row < 9 ∧ col < 9 ∧ get grid row col = Some 0%Z
      ∧ ∀ r c, r < 9 → c < 9 → r < row ∨ (r = row ∧ c < col) →
               get grid r c ≠ Some 0%Z
  | None => ∀ r c, r < 9 → c < 9 → get grid r c ≠ Some 0%Z
  end.
Proof.
  destruct (findEmptyCell grid) as [[row col]|] eqn:Hfind.
  - pose proof (findEmptyCell_Some _ _ _ Hfind) as (Hrow & Hcol & Hz).
    split; [done|]. split; [done|]. split; [done|].
    intros r c Hr Hc Hbefore.
    apply find_first in Hfind as (i & Hi & _ & Hfirst).
    assert (i = 9 * row + col) as ->.
    { pose proof (allCells_lookup row col Hrow Hcol) as Hpos.
      assert (Hnd : NoDup allCells) by compute_done.
      by apply (NoDup_lookup _ _ _ _ Hnd Hi Hpos). }
    apply cellIs_false.
    apply (Hfirst (9 * r + c) (r, c)); [lia|by apply allCells_lookup].
  - by apply findEmptyCell_None.
Qed.

Lemma findEmptyCell_first_witness :
  match findEmptyCell cornerFive with
  | Some (row, col) =>
      row < 9 ∧ col < 9 ∧ get cornerFive row col = Some 0%Z
      ∧ ∀ r c, r < 9 → c < 9 → r < row ∨ (r = row ∧ c < col) →
               get cornerFive r c ≠ Some 0%Z
  | None => ∀ r c, r < 9 → c < 9 → get cornerFive r c ≠ Some 0%Z
  end.
Proof. apply (findEmptyCell_first cornerFive). Defined.

(** ** fillGrid as a solver *)

Lemma extends_refl g : extends g g.
Proof. by intros r c v Hv _. Qed.

Lemma extends_trans g1 g2 g3 : extends g1 g2 → extends g2 g3 → extends g1 g3.
Proof. intros H12 H23 r c v Hv Hnz. apply H23; [|done]. by apply H12. Qed.

Lemma extends_set_empty (g : Grid) r c v :
  get g r c = Some 0%Z → extends g (set g r c v).
Proof.
  intros Hz r' c' v' Hv' Hnz. rewrite get_set by (by rewrite Hz).
  case_decide as Heq; [|done]. inversion Heq; subst. congruence.
Qed.

Section outcome.
Variable rec : Grid → Rng → option FillResult.
Hypothesis rec_outcome : ∀ g rng b g' rng',
  rec g rng = Some (b, g', rng') → if b then extends g g' else g' = g.

Lemma tryNumbers_outcome row col numbers grid rng b g' rng' :
  get grid row col = Some 0%Z →
  tryNumbers rec row col numbers grid rng = Some (b, g', rng') →
  if b then extends grid g' else g' = grid.
Proof.
  intros Hempty. revert rng.
  induction numbers as [|num rest IH]; intros rng; simpl.
  - by intros [= <- <- <-].
  - destruct (isValidPlacement grid row col num); [|apply IH].
    destruct (rec (set grid row col num) rng) as [[[[] g1] rng1]|] eqn:Hrec;
      [| |done].
    + intros [= <- <- <-]. apply rec_outcome in Hrec.
      eapply extends_trans; [|exact Hrec]. by apply extends_set_empty.
    + apply rec_outcome in Hrec as ->.
      rewrite set_set, (set_same grid row col 0%Z) by done. apply IH.
Qed.
End outcome.

(** What a call leaves in the grid: the given digits and more when it
    returns true, exactly the given grid when it returns false. *)
Lemma fillGrid_outcome fuel g rng b g' rng' :
  fillGrid fuel g rng = Some (b, g', rng') →
  if b then extends g g' else g' = g.
Proof.
  revert g rng b g' rng'.
  induction fuel as [|fuel IH]; intros g rng b g' rng'; [done|].
  cbn [fillGrid]. destruct (findEmptyCell g) as [[row col]|] eqn:Hfind.
  - destruct (shuffleArray digits rng) as [numbers rng1].
    apply findEmptyCell_Some in Hfind as (_ & _ & Hempty).
    by apply tryNumbers_outcome.
  - intros [= <- <- <-]. apply extends_refl.
Qed.

(** X4: [fillGrid] is a Sudoku solver.  On a 9x9 grid of digits 0..9 in
    which no digit stands twice in a row, column or box, it returns (the
    recursion being at most one deeper than the number of empty cells);
    when it returns true the grid is full, still free of conflicts, and
    holds every digit it was given; when it returns false the grid is as
    it was given and it has no solution at all. *)
Theorem fillGrid_solves fuel grid rng :
  partialSudoku grid → countZeros grid < fuel →
  ∃ b grid' rng',
    fillGrid fuel grid rng = Some (b, grid', rng')
    ∧ (b = true → completion grid grid' ∧ sudokuSolution grid')
    ∧ (b = false → grid' = grid ∧ ∀ h, ¬ completion grid h).
Proof.
  intros Hp Hfuel.
  destruct (fillGrid_total fuel grid rng Hfuel)
    as (b & g' & rng' & Hfill & Hfalse).
  exists b, g', rng'. split; [done|]. split; [|done].
  intros ->.
  destruct (fillGrid_sound _ _ _ _ _ _ Hp Hfill) as [Hp' Hfull].
  pose proof (fillGrid_outcome _ _ _ _ _ _ Hfill) as Hext.
  split; [split; [done|split; [by apply Hfull|done]]|].
  apply full_partialSudoku_solution; auto.
Qed.

Lemma fillGrid_solves_witness :
  partialSudoku zeroGrid ∧ countZeros zeroGrid < 82
  ∧ ∃ b grid' rng',
      fillGrid 82 zeroGrid identityDraws = Some (b, grid', rng')
      ∧ (b = true → completion zeroGrid grid' ∧ sudokuSolution grid')
      ∧ (b = false → grid' = zeroGrid ∧ ∀ h, ¬ completion zeroGrid h).
Proof.
  split; [apply partialSudoku_zeroGrid|].
  assert (H : countZeros zeroGrid < 82) by (vm_compute; lia).
  split; [exact H|].
  apply (fillGrid_solves 82 zeroGrid identityDraws partialSudoku_zeroGrid H).
Defined.

(** A grid without conflicts and without solution: the last cell of the
    first row needs the 9 that already stands further down its column.
    The search reports failure and hands the grid back. *)
Lemma fillGrid_unsolvable_example :
  let grid := set (<[0 := [1; 2; 3; 4; 5; 6; 7; 8; 0]%Z]> zeroGrid) 5 8 9 in
  ∃ rng', fillGrid 82 grid identityDraws = Some (false, grid, rng').
Proof.
  cbv zeta. set (x := fillGrid 82 _ identityDraws). vm_compute in x.
  subst x. eexists. reflexivity.
Qed.

(** ** Generated puzzles *)

Lemma countZeros_le (g : Grid) : countZeros g ≤ sum_list (length <$> g).
Proof.
  unfold countZeros. induction g as [|row g IH]; [done|].
  rewrite !fmap_cons. cbn [sum_list_with]. unfold id at 1 3.
  apply Nat.add_le_mono; [apply length_filter|exact IH].
Qed.

Lemma countZeros_wfGrid g : wfGrid g → countZeros g ≤ 81.
Proof.
  intros [Hlen Hrows]. etrans; [apply countZeros_le|].
  assert (Hsum : ∀ l : list (list Z),
            Forall (λ row, length row = 9) l → sum_list (length <$> l) = 9 * length l).
  { intros l Hl. induction Hl as [|row l Hrow _ IH]; [done|].
    rewrite fmap_cons. cbn [sum_list_with length]. unfold id at 1.
    rewrite Hrow, IH. lia. }
  rewrite (Hsum g Hrows), Hlen. lia.
Qed.

Lemma partialSudoku_zeroCells g positions :
  partialSudoku g → partialSudoku (zeroCells g positions).
Proof.
  unfold zeroCells. revert g.
  induction positions as [|pos rest IH]; intros g Hg; [done|].
  simpl. by apply IH, partialSudoku_set_zero.
Qed.

(** X5: a puzzle carved from a solved grid can be solved.  The solved grid
    is one of its solutions, and [fillGrid], run on the puzzle with any
    random numbers, returns true with a solution that keeps every clue. *)
Theorem generated_puzzle_solvable solution difficulty rng puzzle rng1 rng2 :
  partialSudoku solution → noEmptyCell solution →
  generatePuzzle solution difficulty rng = Some (puzzle, rng1) →
  completion puzzle solution
  ∧ ∃ grid' rng3,
      fillGrid 82 puzzle rng2 = Some (true, grid', rng3)
      ∧ completion puzzle grid' ∧ sudokuSolution grid'.
Proof.
  intros Hsol Hfull. unfold generatePuzzle.
  destruct (DIFFICULTY_LEVELS difficulty) as [level|]; [|done].
  cbn [mbind option_bind].
  destruct (shuffleArray (seq 0 81) rng) as [positions rng'].
  intros [= <- <-]. rewrite list_fmap_id, removeCells_zeroCells.
  set (P := zeroCells solution _).
  assert (HP : partialSudoku P) by by apply partialSudoku_zeroCells.
  assert (Hcompl : completion P solution).
  { split; [done|]. split; [done|]. intros r c v. apply get_zeroCells_inv. }
  split; [done|].
  destruct (fillGrid_total 82 P rng2) as (b & g' & rng3 & Hfill & Hfalse).
  { pose proof (countZeros_wfGrid P (proj1 HP)). lia. }
  destruct b; [|by destruct Hfalse as [_ Hnone]; [|destruct (Hnone solution)]].
  exists g', rng3. split; [done|].
  destruct (fillGrid_sound _ _ _ _ _ _ HP Hfill) as [Hp' Hfull'].
  pose proof (fillGrid_outcome _ _ _ _ _ _ Hfill) as Hext.
  split; [split; [done|split; [by apply Hfull'|done]]|].
  apply full_partialSudoku_solution; auto.
Qed.

Lemma partialSudoku_firstSolution :
  partialSudoku firstSolution ∧ noEmptyCell firstSolution.
Proof. destruct completion_firstSolution as (? & ? & _). by split. Qed.

Lemma generated_puzzle_solvable_witness :
  ∃ puzzle,
    fst <$> generatePuzzle firstSolution "high" identityDraws = Some puzzle
    ∧ completion puzzle firstSolution
    ∧ ∃ grid' rng3,
        fillGrid 82 puzzle identityDraws = Some (true, grid', rng3)
        ∧ completion puzzle grid' ∧ sudokuSolution grid'.
Proof.
  destruct (generatePuzzle firstSolution "high" identityDraws)
    as [[puzzle rng1]|] eqn:Hgen; [|by vm_compute in Hgen].
  exists puzzle. split; [done|].
  apply (generated_puzzle_solvable firstSolution "high" identityDraws puzzle rng1
           identityDraws); [apply partialSudoku_firstSolution..|done].
Defined.

(** ** startNewGame *)

(** X6: with the difficulty selector on low, medium or high, "new game"
    succeeds and leaves a fresh session: the solution is a solved grid,
    the puzzle has exactly [cellsToRemove] empty cells and agrees with
    the solution on its clues, the user values are the puzzle, there are
    no notes and no selection, both flags are false, the status text is
    empty, the clock starts at 0 and runs, and the session is stored. *)
Theorem startNewGame_fresh now1 now2 w :
  difficultySelect w ∈ difficultyKeys →
  ∃ w' level,
    startNewGame now1 now2 w = Some w'
    ∧ DIFFICULTY_LEVELS (difficultySelect w) = Some level
    ∧ sudokuSolution (solution (gameState w'))
    ∧ wfState (gameState w')
    ∧ countZeros (puzzle (gameState w')) = cellsToRemove level
    ∧ (∀ r c v, get (puzzle (gameState w')) r c = Some v → v ≠ 0%Z →
                get (solution (gameState w')) r c = Some v)
    ∧ userValues (gameState w') = puzzle (gameState w')
    ∧ possibleNumbers (gameState w') = emptyNotes
    ∧ selectedCell (gameState w') = None
    ∧ difficulty (gameState w') = difficultySelect w
    ∧ startTime (gameState w') = Some now2
    ∧ elapsedTime (gameState w') = 0%Z
    ∧ isCompleted (gameState w') = false
    ∧ showErrors (gameState w') = false
    ∧ statusText w' = StatusNone
    ∧ timerInterval w' = true
    ∧ (storageRejectsWrites w = false →
       localStorage w' = Some (stateToSave (gameState w'))).
Proof.
  intros Hd.
  assert (∃ level, DIFFICULTY_LEVELS (difficultySelect w) = Some level)
    as [level Hlevel].
  { unfold difficultyKeys in Hd. rewrite !elem_of_cons, elem_of_nil in Hd.
    destruct Hd as [->|[->|[->|[]]]]; by eexists. }
  destruct (fillGrid_zeroGrid (random w)) as (sol & rng1 & Hfill).
  assert (Hsol : generateSolution (random w) = Some (sol, rng1)).
  { unfold generateSolution. by rewrite Hfill. }
  destruct (generateSolution_wf _ _ _ Hsol) as [Hwf Hfull].
  destruct (generatePuzzle_pure sol _ level rng1 Hwf Hfull Hlevel)
    as (puz & rng2 & Hpuz & Hwfp & Hzeros & Hagree).
  eexists _, level. unfold startNewGame. rewrite Hsol. cbn [mbind option_bind].
  rewrite Hpuz. cbn [mbind option_bind]. split; [done|]. split; [done|].
  rewrite gameState_saveGameState, gameState_startTimer. state_simpl.
  rewrite list_fmap_id, Z.sub_0_r.
  split; [by eapply fillGrid_true_solution|].
  split; [by split; [|split; [|split]]|].
  do 10 (split; [done|]).
  unfold saveGameState, startTimer, stopTimer.
  destruct (storageRejectsWrites w) eqn:Hrej, (timerInterval w) eqn:Ht;
    state_simpl; rewrite ?Hrej, ?Ht; state_simpl; rewrite ?Hrej;
    state_simpl; rewrite ?list_fmap_id, ?Z.sub_0_r; done.
Qed.

Lemma startNewGame_fresh_witness :
  difficultySelect (worldOf initialGameState) ∈ difficultyKeys
  ∧ ∃ w', startNewGame 5 6 (worldOf initialGameState) = Some w'
          ∧ sudokuSolution (solution (gameState w'))
          ∧ countZeros (puzzle (gameState w')) = 30
          ∧ userValues (gameState w') = puzzle (gameState w').
Proof.
  assert (Hd : difficultySelect (worldOf initialGameState) ∈ difficultyKeys)
    by (unfold difficultyKeys; rewrite !elem_of_cons; auto).
  split; [exact Hd|].
  destruct (startNewGame_fresh 5 6 (worldOf initialGameState) Hd)
    as (w' & level & Hnew & Hlevel & Hsol & _ & Hzeros & _ & Huv & _).
  exists w'. injection Hlevel as <-. auto.
Defined.

(** ** The puzzle and its clues during play *)

Lemma sameGame_refl gs : sameGame gs gs.
Proof. by split. Qed.

Lemma sameGame_checkCompletion w :
  sameGame (gameState w) (gameState (checkCompletion w)).
Proof.
  rewrite gameState_checkCompletion. cbv zeta.
  by destruct (checkBoardState (gameState w)) as [[[] []] ?].
Qed.

Lemma sameGame_setFinalValue index num w :
  sameGame (gameState w) (gameState (setFinalValue index num w)).
Proof.
  unfold setFinalValue.
  destruct (sameGame_checkCompletion
    (renderBoard (modify (λ gs, withPossibleNumbers
       (alter setClear index (possibleNumbers gs)) gs)
       (modify (λ gs, withUserValues
          (set (userValues gs) (index / 9) (index mod 9) num) gs) w))))
    as [Hp Hs].
  split; [by rewrite Hp|by rewrite Hs].
Qed.

Lemma sameGame_togglePossibleNumber index num w :
  sameGame (gameState w) (gameState (togglePossibleNumber index num w)).
Proof. unfold togglePossibleNumber. by destruct (negb _). Qed.

Lemma sameGame_clearCell index w :
  sameGame (gameState w) (gameState (clearCell index w)).
Proof.
  unfold clearCell. destruct (cellIs _ _ _ _); [|done].
  by rewrite gameState_saveGameState.
Qed.

Lemma sameGame_autoFillPossibleNumbers index w :
  sameGame (gameState w) (gameState (autoFillPossibleNumbers index w)).
Proof.
  unfold autoFillPossibleNumbers. destruct (_ || _); [done|].
  by rewrite gameState_saveGameState.
Qed.

Lemma userValues_setFinalValue index num w :
  userValues (gameState (setFinalValue index num w))
  = set (userValues (gameState w)) (index / 9) (index mod 9) num.
Proof. unfold setFinalValue. by rewrite userValues_checkCompletion. Qed.

Lemma userValues_togglePossibleNumber index num w :
  userValues (gameState (togglePossibleNumber index num w))
  = set (userValues (gameState w)) (index / 9) (index mod 9) 0.
Proof.
  unfold togglePossibleNumber.
  destruct (cellIs (userValues (gameState w)) (index / 9) (index mod 9) 0)
    eqn:Hz;
    state_simpl; [|done].
  apply cellIs_true in Hz. by rewrite set_same.
Qed.

Lemma userValues_autoFillPossibleNumbers index w :
  userValues (gameState (autoFillPossibleNumbers index w))
  = userValues (gameState w).
Proof.
  unfold autoFillPossibleNumbers. destruct (_ || _); [done|].
  by rewrite gameState_saveGameState.
Qed.

(** A double click does nothing, fills in notes, or sets a value in a
    cell that is not a clue. *)
Lemma handleCellDoubleClick_guarded index w :
  handleCellDoubleClick index w = w
  ∨ handleCellDoubleClick index w = autoFillPossibleNumbers index w
  ∨ (cellIs (puzzle (gameState w)) (index / 9) (index mod 9) 0 = true
     ∧ cellIs (userValues (gameState w)) (index / 9) (index mod 9) 0 = true
     ∧ ∃ v, findFinalNumber (gameState w) (index / 9) (index mod 9) = Some v
            ∧ handleCellDoubleClick index w
              = saveGameState (setFinalValue index v w)).
Proof.
  unfold handleCellDoubleClick.
  destruct (cellIs (puzzle (gameState w)) (index / 9) (index mod 9) 0);
    [|by left].
  destruct (cellIs (userValues (gameState w)) (index / 9) (index mod 9) 0);
    [|by left].
  cbn [negb orb]. destruct (_ || _); [|by right; left].
  destruct (findFinalNumber _ _ _) as [v|]; [|by right; left].
  right; right. split; [done|]. split; [done|]. by exists v.
Qed.

Lemma cluesKept_write gs gs' r c v :
  puzzle gs' = puzzle gs → userValues gs' = set (userValues gs) r c v →
  get (puzzle gs) r c = Some 0%Z →
  cluesKept gs → cluesKept gs'.
Proof.
  intros Hp Hu Hz Hkept r' c' v' Hv' Hnz. rewrite Hp in Hv'. rewrite Hu.
  rewrite get_set_ne; [by apply Hkept|].
  intros [= -> ->]. congruence.
Qed.

Lemma cluesKept_same gs gs' :
  puzzle gs' = puzzle gs → userValues gs' = userValues gs →
  cluesKept gs → cluesKept gs'.
Proof. unfold cluesKept. by intros -> ->. Qed.

Lemma cluesKept_clearCell index w :
  cluesKept (gameState w) → cluesKept (gameState (clearCell index w)).
Proof.
  unfold clearCell.
  destruct (cellIs (puzzle (gameState w)) (index / 9) (index mod 9) 0) eqn:Hz;
    [|done].
  rewrite gameState_saveGameState. apply cellIs_true in Hz.
  by apply (cluesKept_write _ _ (index / 9) (index mod 9) 0%Z).
Qed.

(** X7: the clues are never overwritten.  If every clue of the puzzle
    stands in [userValues], it still does after any listener has run
    ("new game" included, which installs a new puzzle). *)
Theorem clues_never_change e w w' :
  cluesKept (gameState w) → dispatch e w = Some w' → cluesKept (gameState w').
Proof.
  intros Hkept. destruct e; cbn [dispatch].
  - unfold startNewGame.
    destruct (generateSolution _) as [[sol rng1]|]; [|done].
    cbn [mbind option_bind].
    destruct (generatePuzzle _ _ _) as [[puz rng2]|]; [|done].
    cbn [mbind option_bind]. intros [= <-].
    rewrite gameState_saveGameState, gameState_startTimer. state_simpl.
    rewrite list_fmap_id. by intros r c v Hv _.
  - intros [= <-]. unfold resetGame.
    rewrite gameState_saveGameState, gameState_startTimer. state_simpl.
    rewrite list_fmap_id. by intros r c v Hv _.
  - intros [= <-]. unfold clearAllNotes. rewrite gameState_saveGameState.
    by eapply cluesKept_same.
  - intros [= <-]. rewrite gameState_validateBoard. by eapply cluesKept_same.
  - intros [= <-]. by eapply cluesKept_same.
  - destruct (selectedCell (gameState w)); intros [= <-]; [|done].
    unfold hideContextMenu.
    eapply cluesKept_same; [|apply userValues_autoFillPossibleNumbers|done].
    apply sameGame_autoFillPossibleNumbers.
  - destruct (selectedCell (gameState w)); intros [= <-]; [|done].
    by apply cluesKept_clearCell.
  - intros [= <-].
    destruct (handleKeyDown_cases key shiftKey now w)
      as [->|[(index & cell & _ & _ & _ & ->)|(index & _ & _ & Hz & Hedit)]].
    + done.
    + rewrite gameState_saveGameState. by eapply cluesKept_same.
    + apply cellIs_true in Hz.
      destruct Hedit as [->|[->|[->| ->]]]; rewrite gameState_saveGameState.
      * eapply (cluesKept_write _ _ (index / 9) (index mod 9));
          [|apply (userValues_setFinalValue index)|done..].
        apply sameGame_setFinalValue.
      * eapply (cluesKept_write _ _ (index / 9) (index mod 9));
          [|apply (userValues_togglePossibleNumber index)|done..].
        apply sameGame_togglePossibleNumber.
      * by apply cluesKept_clearCell.
      * done.
  - by intros [= <-].
  - intros [= <-]. unfold handleCellClick. rewrite gameState_saveGameState.
    by eapply cluesKept_same.
  - intros [= <-].
    destruct (handleCellDoubleClick_guarded index w)
      as [->|[->|(Hz & _ & v & _ & ->)]].
    + done.
    + eapply cluesKept_same; [|apply userValues_autoFillPossibleNumbers|done].
      apply sameGame_autoFillPossibleNumbers.
    + rewrite gameState_saveGameState. apply cellIs_true in Hz.
      eapply (cluesKept_write _ _ (index / 9) (index mod 9));
        [|apply (userValues_setFinalValue index)|done..].
      apply sameGame_setFinalValue.
  - intros [= <-]. by eapply cluesKept_same.
  - intros [= <-]. unfold timerTick.
    destruct (timerInterval w); [|done]. destruct (negb _); [|done].
    by eapply cluesKept_same.
Qed.

Lemma clues_never_change_witness :
  cluesKept (gameState almostDone)
  ∧ cluesKept (gameState (handleKeyDown "4" true 7 almostDone)).
Proof.
  assert (H : cluesKept (gameState almostDone)) by (by intros r c v Hv _).
  split; [exact H|].
  by apply (clues_never_change (KeyDown "4" true 7) almostDone _ H).
Defined.

(** X8: no listener but "new game" replaces the puzzle or the solution;
    "reset" puts the puzzle back into [userValues], removes all notes and
    the selection and clears both flags and the clock. *)
Theorem game_fixed_until_new_game e w w' :
  dispatch e w = Some w' →
  (∀ now1 now2, e ≠ NewGameClick now1 now2) →
  sameGame (gameState w) (gameState w')
  ∧ ((∃ now1 now2, e = ResetGameClick now1 now2) →
     userValues (gameState w') = puzzle (gameState w)
     ∧ possibleNumbers (gameState w') = emptyNotes
     ∧ selectedCell (gameState w') = None
     ∧ elapsedTime (gameState w') = 0%Z
     ∧ isCompleted (gameState w') = false
     ∧ showErrors (gameState w') = false
     ∧ statusText w' = StatusNone).
Proof.
  intros Hw' Hne. destruct e; cbn [dispatch] in Hw'.
  - by destruct (Hne now1 now2).
  - injection Hw' as <-. unfold resetGame.
    rewrite gameState_saveGameState, gameState_startTimer. state_simpl.
    rewrite list_fmap_id. split; [done|]. intros _.
    do 6 (split; [done|]).
    unfold saveGameState, startTimer, stopTimer.
    destruct (storageRejectsWrites w) eqn:Hrej, (timerInterval w) eqn:Ht;
      state_simpl; rewrite ?Hrej, ?Ht; state_simpl; rewrite ?Hrej; done.
  - injection Hw' as <-. unfold clearAllNotes. rewrite gameState_saveGameState.
    split; [done|]. by intros (? & ? & ?).
  - injection Hw' as <-. rewrite gameState_validateBoard.
    split; [done|]. by intros (? & ? & ?).
  - injection Hw' as <-. split; [done|]. by intros (? & ? & ?).
  - split; [|by intros (? & ? & ?)].
    destruct (selectedCell (gameState w)); injection Hw' as <-; [|done].
    apply sameGame_autoFillPossibleNumbers.
  - split; [|by intros (? & ? & ?)].
    destruct (selectedCell (gameState w)); injection Hw' as <-; [|done].
    apply sameGame_clearCell.
  - split; [|by intros (? & ? & ?)]. injection Hw' as <-.
    destruct (handleKeyDown_cases key shiftKey now w)
      as [->|[(index & cell & _ & _ & _ & ->)|(index & _ & _ & _ & Hedit)]].
    + done.
    + by rewrite gameState_saveGameState.
    + destruct Hedit as [->|[->|[->| ->]]]; rewrite gameState_saveGameState.
      * apply sameGame_setFinalValue.
      * apply sameGame_togglePossibleNumber.
      * apply sameGame_clearCell.
      * done.
  - injection Hw' as <-. split; [done|]. by intros (? & ? & ?).
  - injection Hw' as <-. unfold handleCellClick.
    rewrite gameState_saveGameState.
    split; [done|]. by intros (? & ? & ?).
  - split; [|by intros (? & ? & ?)]. injection Hw' as <-.
    destruct (handleCellDoubleClick_guarded index w)
      as [->|[->|(_ & _ & v & _ & ->)]].
    + done.
    + apply sameGame_autoFillPossibleNumbers.
    + rewrite gameState_saveGameState. apply sameGame_setFinalValue.
  - injection Hw' as <-. split; [done|]. by intros (? & ? & ?).
  - split; [|by intros (? & ? & ?)]. injection Hw' as <-. unfold timerTick.
    destruct (timerInterval w); [|done]. by destruct (negb _).
Qed.

Lemma game_fixed_until_new_game_witness :
  sameGame (gameState completedWorld) (gameState (resetGame 3 4 completedWorld))
  ∧ userValues (gameState (resetGame 3 4 completedWorld)) = lastCellPuzzle
  ∧ isCompleted (gameState (resetGame 3 4 completedWorld)) = false.
Proof.
  destruct (game_fixed_until_new_game (ResetGameClick 3 4) completedWorld
              (resetGame 3 4 completedWorld) eq_refl)
    as [Hsame Hreset]; [done|].
  destruct Hreset as (Hu & _ & _ & _ & Hc & _); [by eauto|].
  split; [exact Hsame|]. split; [|exact Hc].
  by rewrite Hu.
Defined.

(** ** Candidates, hints and the solution *)

(** X9: the candidates that [findFinalNumber] and
    [autoFillPossibleNumbers] compute for a cell are exactly the digits
    that [isValidPlacement] accepts there on [userValues]. *)
Theorem candidates_are_valid_placements gs row col d :
  row < 9 → col < 9 →
  d ∈ possibleAfterScans gs row col
  ↔ (1 ≤ d ≤ 9)%Z ∧ isValidPlacement (userValues gs) row col d = true.
Proof.
  intros Hrow Hcol. rewrite elem_of_possibleAfterScans by done.
  rewrite isValidPlacement_true. unfold absentDigit.
  split; intros [Hd Habs]; (split; [done|]); intros r c Hin;
    apply Habs; by apply scanned_inUnits.
Qed.

Lemma candidates_are_valid_placements_witness :
  (2 ∈ possibleAfterScans (gameState scenarioWorld) 0 8)%Z
  ↔ (1 ≤ 2 ≤ 9)%Z
    ∧ isValidPlacement (userValues (gameState scenarioWorld)) 0 8 2 = true.
Proof.
  apply (candidates_are_valid_placements (gameState scenarioWorld) 0 8 2); lia.
Defined.

(** On a board whose digits all agree with the solution, the solution's
    digit of an empty cell stands nowhere in the cell's units. *)
Lemma solution_value_candidate gs row col :
  row < 9 → col < 9 →
  partialSudoku (solution gs) → noEmptyCell (solution gs) →
  extends (userValues gs) (solution gs) →
  get (userValues gs) row col = Some 0%Z →
  ∃ s, get (solution gs) row col = Some s ∧ absentDigit gs row col s.
Proof.
  intros Hrow Hcol Hsol Hfull Hext Hzero.
  destruct (cell_digit _ Hsol Hfull row col Hrow Hcol) as (s & Hs & Hd).
  exists s. split; [done|]. split; [done|].
  intros r c Hin Huv.
  assert (Hne : (row, col) ≠ (r, c)).
  { intros [= <- <-]. rewrite Hzero in Huv. injection Huv as <-. lia. }
  apply scanned_inUnits in Hin; [|done..].
  destruct (scanned_peers row col r c Hrow Hcol Hin Hne) as (Hr & Hc & Hpeers).
  destruct Hsol as (_ & _ & Hcons).
  apply (Hcons row col r c s); [done..|lia|].
  apply Hext; [done|lia].
Qed.

Lemma extends_set g h r c v :
  is_Some (get g r c) → extends g h → get h r c = Some v →
  extends (set g r c v) h.
Proof.
  intros Hsome Hext Hv r' c' v' Hget Hnz.
  rewrite get_set in Hget by done.
  destruct (decide _) as [[= <- <-]|_]; [congruence|by apply Hext].
Qed.

Lemma handleCellDoubleClick_unset index w :
  cellIs (puzzle (gameState w)) (index / 9) (index mod 9) 0 = true →
  cellIs (userValues (gameState w)) (index / 9) (index mod 9) 0 = true →
  handleCellDoubleClick index w = autoFillPossibleNumbers index w
  ∨ ∃ v, findFinalNumber (gameState w) (index / 9) (index mod 9) = Some v
         ∧ handleCellDoubleClick index w
           = saveGameState (setFinalValue index v w).
Proof.
  intros Hp Hu. unfold handleCellDoubleClick. rewrite Hp, Hu. cbn [negb orb].
  destruct (_ || _); [|by left].
  destruct (findFinalNumber _ _ _) as [v|]; [|by left].
  right. by exists v.
Qed.

Lemma autoFillPossibleNumbers_unset index w :
  cellIs (puzzle (gameState w)) (index / 9) (index mod 9) 0 = true →
  cellIs (userValues (gameState w)) (index / 9) (index mod 9) 0 = true →
  autoFillPossibleNumbers index w
  = saveGameState
      (modify (λ gs, withPossibleNumbers
                 (<[index := possibleAfterScans (gameState w)
                               (index / 9) (index mod 9)]>
                    (possibleNumbers gs)) gs) w).
Proof.
  intros Hp Hu. unfold autoFillPossibleNumbers. by rewrite Hp, Hu.
Qed.

(** X10: a double click never spoils a correct board.  If every digit on
    the board agrees with the solution, it still does after a double
    click on any cell; on an empty cell that is not a clue the solution's
    digit is then either the cell's value or one of its notes. *)
Theorem double_click_keeps_correct index w :
  let row := index / 9 in
  let col := index mod 9 in
  let gs := gameState w in
  let gs' := gameState (handleCellDoubleClick index w) in
  wfState gs → index < 81 →
  partialSudoku (solution gs) → noEmptyCell (solution gs) →
  extends (userValues gs) (solution gs) →
  solution gs' = solution gs
  ∧ extends (userValues gs') (solution gs')
  ∧ (get (puzzle gs) row col = Some 0%Z →
     get (userValues gs) row col = Some 0%Z →
     ∃ s, get (solution gs) row col = Some s
          ∧ (get (userValues gs') row col = Some s
             ∨ ∃ notes, possibleNumbers gs' !! index = Some notes ∧ s ∈ notes)).
Proof.
  intros row col gs gs' (Hwp & Hws & Hwu & Hlen) Hindex Hsol Hfull Hext.
  assert (Hrow : row < 9) by (apply Nat.Div0.div_lt_upper_bound; lia).
  assert (Hcol : col < 9) by (apply Nat.mod_upper_bound; lia).
  assert (Hforced : ∀ v, findFinalNumber gs row col = Some v →
            get (userValues gs) row col = Some 0%Z →
            get (solution gs) row col = Some v).
  { intros v Hfinal Hu.
    destruct (solution_value_candidate gs row col) as (s & Hs & Habs);
      [done..|].
    apply findFinalNumber_Some in Hfinal as [_ Honly]; [|done..].
    by rewrite <- (Honly s Habs). }
  assert (Hset : ∀ v, findFinalNumber gs row col = Some v →
            get (userValues gs) row col = Some 0%Z →
            gameState (saveGameState (setFinalValue index v w))
            = gameState (setFinalValue index v w)
            ∧ solution (gameState (setFinalValue index v w)) = solution gs
            ∧ userValues (gameState (setFinalValue index v w))
              = set (userValues gs) row col v).
  { intros v _ _. split; [apply gameState_saveGameState|].
    split; [apply sameGame_setFinalValue|apply userValues_setFinalValue]. }
  subst gs'. split; [|split].
  - destruct (handleCellDoubleClick_guarded index w)
      as [->|[->|(_ & _ & v & _ & ->)]]; [done| |].
    + apply sameGame_autoFillPossibleNumbers.
    + rewrite gameState_saveGameState. apply sameGame_setFinalValue.
  - destruct (handleCellDoubleClick_guarded index w)
      as [->|[->|(_ & Hu & v & Hfinal & ->)]]; [done| |].
    + rewrite userValues_autoFillPossibleNumbers.
      by destruct (sameGame_autoFillPossibleNumbers index w) as [_ ->].
    + apply cellIs_true in Hu.
      destruct (Hset v Hfinal Hu) as (-> & -> & ->).
      apply extends_set; [by exists 0%Z|done|by apply Hforced].
  - intros Hp Hu.
    destruct (solution_value_candidate gs row col) as (s & Hs & Habs);
      [done..|].
    exists s. split; [done|].
    destruct (handleCellDoubleClick_unset index w)
      as [->|(v & Hfinal & ->)]; [by apply cellIs_true..| |].
    + right. rewrite autoFillPossibleNumbers_unset by by apply cellIs_true.
      rewrite gameState_saveGameState. state_simpl.
      exists (possibleAfterScans gs row col). split.
      * apply list_lookup_insert_eq. fold gs. lia.
      * by apply elem_of_possibleAfterScans.
    + left. destruct (Hset v Hfinal Hu) as (-> & _ & ->).
      rewrite get_set_eq by by exists 0%Z.
      rewrite <- Hs. symmetry. by apply Hforced.
Qed.

Lemma extends_lastCellPuzzle : extends lastCellPuzzle firstSolution.
Proof.
  intros r c v Hget Hnz. unfold lastCellPuzzle in Hget.
  rewrite get_set in Hget by by exists 1%Z.
  destruct (decide _); [congruence|done].
Qed.

Lemma double_click_keeps_correct_witness :
  let gs' := gameState (handleCellDoubleClick 0 almostDone) in
  solution gs' = firstSolution ∧ extends (userValues gs') (solution gs').
Proof.
  destruct (double_click_keeps_correct 0 almostDone) as (Hs & Hext & _).
  - exact wfState_almostDone.
  - lia.
  - apply partialSudoku_firstSolution.
  - apply partialSudoku_firstSolution.
  - exact extends_lastCellPuzzle.
  - by split.
Defined.

(** ** Notes *)

Lemma toggle_has_same (s : list Z) num :
  setHas (if setHas s num then setDelete s num else setAdd s num) num
  = negb (setHas s num).
Proof.
  unfold setAdd. destruct (setHas s num) eqn:Hhas; cbn [negb].
  - apply bool_decide_eq_false. unfold setDelete.
    rewrite list_elem_of_filter. by intros [? _].
  - apply bool_decide_eq_true. apply elem_of_app. right. by left.
Qed.

Lemma toggle_has_other (s : list Z) num x :
  x ≠ num →
  setHas (if setHas s num then setDelete s num else setAdd s num) x
  = setHas s x.
Proof.
  intros Hne. unfold setAdd. apply bool_decide_ext.
  destruct (setHas s num) eqn:Hhas.
  - unfold setDelete. rewrite list_elem_of_filter. tauto.
  - rewrite elem_of_app, list_elem_of_singleton. tauto.
Qed.

Lemma toggle_twice_has (s : list Z) num x :
  let t := λ s, if setHas s num then setDelete s num else setAdd s num in
  setHas (t (t s)) x = setHas s x.
Proof.
  intros t. subst t. cbv beta. destruct (decide (x = num)) as [->|Hne].
  - rewrite !toggle_has_same. apply negb_involutive.
  - by rewrite !toggle_has_other.
Qed.

Lemma possibleNumbers_togglePossibleNumber index num w :
  possibleNumbers (gameState (togglePossibleNumber index num w))
  = alter (λ s, if setHas s num then setDelete s num else setAdd s num)
          index (possibleNumbers (gameState w)).
Proof. unfold togglePossibleNumber. by destruct (negb _). Qed.

(** X11: toggling a note flips the membership of that number in the
    cell's notes and of no other number, leaves the notes of all other
    cells alone, and toggling the same number again gives back the
    notes the cell had (as a set); the cell's value is 0 after the first
    toggle and the second one does not touch the values. *)
Theorem togglePossibleNumber_flips index num w s :
  let w1 := togglePossibleNumber index num w in
  let w2 := togglePossibleNumber index num w1 in
  possibleNumbers (gameState w) !! index = Some s →
  is_Some (get (userValues (gameState w)) (index / 9) (index mod 9)) →
  ∃ s1 s2,
    possibleNumbers (gameState w1) !! index = Some s1
    ∧ possibleNumbers (gameState w2) !! index = Some s2
    ∧ setHas s1 num = negb (setHas s num)
    ∧ (∀ x, x ≠ num → setHas s1 x = setHas s x)
    ∧ (∀ x, setHas s2 x = setHas s x)
    ∧ (∀ j, j ≠ index →
         possibleNumbers (gameState w1) !! j = possibleNumbers (gameState w) !! j
         ∧ possibleNumbers (gameState w2) !! j
           = possibleNumbers (gameState w) !! j)
    ∧ get (userValues (gameState w1)) (index / 9) (index mod 9) = Some 0%Z
    ∧ userValues (gameState w2) = userValues (gameState w1).
Proof.
  intros w1 w2 Hs Hv. subst w1 w2.
  rewrite !possibleNumbers_togglePossibleNumber.
  rewrite !userValues_togglePossibleNumber.
  eexists _, _. split; [|split].
  - rewrite list_lookup_alter_eq, Hs. reflexivity.
  - rewrite !list_lookup_alter_eq, Hs. reflexivity.
  - split; [apply toggle_has_same|].
    split; [by intros; apply toggle_has_other|].
    split; [apply toggle_twice_has|].
    split; [by intros j Hj; rewrite !list_lookup_alter_ne|].
    split; [by apply get_set_eq|].
    apply set_set.
Qed.

Lemma togglePossibleNumber_flips_witness :
  ∃ s1 s2,
    possibleNumbers (gameState (togglePossibleNumber 0 4 almostDone)) !! 0
    = Some s1
    ∧ possibleNumbers
        (gameState (togglePossibleNumber 0 4 (togglePossibleNumber 0 4 almostDone)))
      !! 0 = Some s2
    ∧ setHas s1 4 = true ∧ setHas s2 4 = false.
Proof.
  destruct (togglePossibleNumber_flips 0 4 almostDone [])
    as (s1 & s2 & H1 & H2 & Hin & _ & Hback & _).
  - reflexivity.
  - by exists 0%Z.
  - exists s1, s2. split; [exact H1|]. split; [exact H2|].
    split; [exact Hin|apply Hback].
Defined.

Lemma possibleAfterScans_userValues gs gs' row col :
  userValues gs' = userValues gs →
  possibleAfterScans gs' row col = possibleAfterScans gs row col.
Proof. unfold possibleAfterScans. by intros ->. Qed.

Lemma autoFillPossibleNumbers_rejected index w :
  cellIs (puzzle (gameState w)) (index / 9) (index mod 9) 0 = false
  ∨ cellIs (userValues (gameState w)) (index / 9) (index mod 9) 0 = false →
  autoFillPossibleNumbers index w = w.
Proof.
  unfold autoFillPossibleNumbers. intros [-> | ->]; [done|].
  by rewrite orb_true_r.
Qed.

(** X12: filling in the notes of a cell a second time changes nothing:
    the whole session, the stored copy included, is the one that the
    first call left. *)
Theorem autoFillPossibleNumbers_idempotent index w :
  autoFillPossibleNumbers index (autoFillPossibleNumbers index w)
  = autoFillPossibleNumbers index w.
Proof.
  destruct (cellIs (puzzle (gameState w)) (index / 9) (index mod 9) 0) eqn:Hp;
    [|by rewrite !(autoFillPossibleNumbers_rejected index w) by by left].
  destruct (cellIs (userValues (gameState w)) (index / 9) (index mod 9) 0)
    eqn:Hu;
    [|by rewrite !(autoFillPossibleNumbers_rejected index w) by by right].
  rewrite (autoFillPossibleNumbers_unset index w Hp Hu).
  rewrite autoFillPossibleNumbers_unset
    by by rewrite gameState_saveGameState.
  rewrite gameState_saveGameState.
  rewrite (possibleAfterScans_userValues (gameState w)) by done.
  unfold saveGameState. state_simpl.
  destruct (storageRejectsWrites w) eqn:Hrej; state_simpl; rewrite ?Hrej;
    unfold modify, withLocalStorage, withPossibleNumbers, stateToSave;
    state_simpl; by rewrite list_insert_insert_eq.
Qed.

(** ** The keyboard *)

Lemma digitKeys_tests key :
  key ∈ digitKeys →
  String.leb "1" key && String.leb key "9" = true
  ∧ (1 ≤ parseInt key ≤ 9)%Z
  ∧ String.eqb key "ArrowUp" = false ∧ String.eqb key "ArrowDown" = false
  ∧ String.eqb key "ArrowLeft" = false ∧ String.eqb key "ArrowRight" = false.
Proof.
  unfold digitKeys. rewrite !elem_of_cons, elem_of_nil.
  intros [->|[->|[->|[->|[->|[->|[->|[->|[->|[]]]]]]]]]]; vm_compute;
    intuition discriminate.
Qed.

(** What a digit key does on a selected cell that is not a clue. *)
Lemma handleKeyDown_digit key shiftKey now w index :
  selectedCell (gameState w) = Some index →
  isCompleted (gameState w) = false →
  cellIs (puzzle (gameState w)) (index / 9) (index mod 9) 0 = true →
  key ∈ digitKeys →
  handleKeyDown key shiftKey now w
  = saveGameState
      (withLastKeyPress (Some key, now)
         (if shiftKey
             || (bool_decide ((lastKeyPress w).1 = Some key)
                 && (now - (lastKeyPress w).2 <? 300)%Z)
          then setFinalValue index (parseInt key) w
          else togglePossibleNumber index (parseInt key) w)).
Proof.
  intros Hsel Hc Hp Hkey.
  destruct (digitKeys_tests key Hkey) as (Hd & _ & Hu & Hdn & Hl & Hr).
  unfold handleKeyDown. rewrite Hsel, Hc, Hp, Hu, Hdn, Hl, Hr, Hd.
  reflexivity.
Qed.

Lemma lastKeyPress_saveGameState w :
  lastKeyPress (saveGameState w) = lastKeyPress w.
Proof. unfold saveGameState. by destruct (storageRejectsWrites w). Qed.

Lemma isCompleted_togglePossibleNumber index num w :
  isCompleted (gameState (togglePossibleNumber index num w))
  = isCompleted (gameState w).
Proof. unfold togglePossibleNumber. by destruct (negb _). Qed.

Lemma possibleNumbers_setFinalValue index num w :
  possibleNumbers (gameState (setFinalValue index num w))
  = alter setClear index (possibleNumbers (gameState w)).
Proof. unfold setFinalValue. by rewrite possibleNumbers_checkCompletion. Qed.

(** X13: the double press.  On a selected cell that is not a clue, a
    digit key pressed without shift (and not as the second half of an
    earlier double press) and pressed again less than 300 ms later
    leaves that digit as the cell's value and no notes in the cell;
    pressed again later than that, it leaves the cell empty with the
    notes it had before the first press. *)
Theorem double_press_sets_value key now1 now2 w index s :
  let row := index / 9 in
  let col := index mod 9 in
  let gs := gameState w in
  let gs2 := gameState (handleKeyDown key false now2
                          (handleKeyDown key false now1 w)) in
  wfState gs → index < 81 →
  selectedCell gs = Some index → isCompleted gs = false →
  get (puzzle gs) row col = Some 0%Z →
  possibleNumbers gs !! index = Some s →
  key ∈ digitKeys →
  ¬ ((lastKeyPress w).1 = Some key ∧ (now1 - (lastKeyPress w).2 < 300)%Z) →
  (1 ≤ parseInt key ≤ 9)%Z
  ∧ ((now2 - now1 < 300)%Z →
     get (userValues gs2) row col = Some (parseInt key)
     ∧ possibleNumbers gs2 !! index = Some [])
  ∧ ((300 ≤ now2 - now1)%Z →
     get (userValues gs2) row col = Some 0%Z
     ∧ ∃ s2, possibleNumbers gs2 !! index = Some s2
             ∧ ∀ x, setHas s2 x = setHas s x).
Proof.
  intros row col gs gs2 Hwf Hindex Hsel Hc Hp Hs Hkey Hfirst. subst gs.
  assert (Hrow : row < 9) by (apply Nat.Div0.div_lt_upper_bound; lia).
  assert (Hcol : col < 9) by (apply Nat.mod_upper_bound; lia).
  split; [apply (digitKeys_tests key Hkey)|].
  apply cellIs_true in Hp.
  assert (H1 : handleKeyDown key false now1 w
               = saveGameState
                   (withLastKeyPress (Some key, now1)
                      (togglePossibleNumber index (parseInt key) w))).
  { rewrite (handleKeyDown_digit key false now1 w index) by done.
    cbn [orb]. case_bool_decide as Hk; [|done].
    destruct (now1 - (lastKeyPress w).2 <? 300)%Z eqn:Hlt; [|done].
    apply Z.ltb_lt in Hlt. by destruct Hfirst. }
  set (w1 := togglePossibleNumber index (parseInt key) w) in *.
  assert (Hwf1 : wfState (gameState w1))
    by by apply wfState_togglePossibleNumber.
  assert (Hu1 : userValues (gameState w1)
                = set (userValues (gameState w)) row col 0)
    by apply userValues_togglePossibleNumber.
  assert (Hsome : is_Some (get (userValues (gameState w)) row col))
    by (apply wfGrid_get; [apply Hwf|done..]).
  assert (Hg1 : gameState (handleKeyDown key false now1 w) = gameState w1)
    by by rewrite H1, gameState_saveGameState.
  assert (Hlast : lastKeyPress (handleKeyDown key false now1 w)
                  = (Some key, now1))
    by by rewrite H1, lastKeyPress_saveGameState.
  assert (H2 : handleKeyDown key false now2 (handleKeyDown key false now1 w)
               = saveGameState
                   (withLastKeyPress (Some key, now2)
                      (if (now2 - now1 <? 300)%Z
                       then setFinalValue index (parseInt key)
                              (handleKeyDown key false now1 w)
                       else togglePossibleNumber index (parseInt key)
                              (handleKeyDown key false now1 w)))).
  { rewrite (handleKeyDown_digit key false now2 _ index).
    - rewrite Hlast. state_simpl. by rewrite bool_decide_true.
    - rewrite Hg1. unfold w1. by rewrite selectedCell_togglePossibleNumber.
    - rewrite Hg1. unfold w1. by rewrite isCompleted_togglePossibleNumber.
    - rewrite Hg1. unfold w1.
      by destruct (sameGame_togglePossibleNumber index (parseInt key) w)
        as [-> _].
    - done. }
  subst gs2. rewrite H2, gameState_saveGameState. state_simpl.
  split; intros Hlt.
  - apply Z.ltb_lt in Hlt. rewrite Hlt.
    rewrite userValues_setFinalValue, possibleNumbers_setFinalValue, Hg1.
    split.
    + apply get_set_eq. apply wfGrid_get; [apply Hwf1|done..].
    + unfold w1. rewrite possibleNumbers_togglePossibleNumber.
      by rewrite !list_lookup_alter_eq, Hs.
  - apply Z.ltb_ge in Hlt. rewrite Hlt.
    rewrite userValues_togglePossibleNumber,
      possibleNumbers_togglePossibleNumber, Hg1.
    split.
    + apply get_set_eq. apply wfGrid_get; [apply Hwf1|done..].
    + unfold w1. rewrite possibleNumbers_togglePossibleNumber.
      rewrite !list_lookup_alter_eq, Hs. eexists. split; [reflexivity|].
      apply toggle_twice_has.
Qed.

Lemma double_press_sets_value_witness :
  get (userValues (gameState (handleKeyDown "7" false 1200
                                (handleKeyDown "7" false 1000 almostDone))))
      0 0 = Some 7%Z.
Proof.
  destruct (double_press_sets_value "7" 1000 1200 almostDone 0 [])
    as (_ & Hset & _).
  - exact wfState_almostDone.
  - lia.
  - reflexivity.
  - reflexivity.
  - reflexivity.
  - reflexivity.
  - unfold digitKeys. rewrite !elem_of_cons. auto 10.
  - by intros [[=] _].
  - destruct Hset as [Hv _]; [lia|]. exact Hv.
Defined.





(** ** The clock *)

Lemma timerTick_running t w :
  timerInterval w = true → isCompleted (gameState w) = false →
  timerTick t w
  = modify (λ gs, withElapsedTime (t - default 0%Z (startTime gs))%Z gs) w.
Proof. intros Ht Hc. unfold timerTick. by rewrite Ht, Hc. Qed.



(** While the clock runs, ticks change [elapsedTime] and nothing else. *)
Lemma runTicks_running ticks w :
  timerInterval w = true → isCompleted (gameState w) = false →
  timerInterval (runTicks ticks w) = true
  ∧ ∀ gs', gs' = gameState (runTicks ticks w) →
      withElapsedTime (elapsedTime (gameState w)) gs'
      = withElapsedTime (elapsedTime (gameState w)) (gameState w).
Proof.
  revert w. induction ticks as [|t ticks IH]; intros w Ht Hc.
  - split; [done|]. by intros gs' ->.
  - unfold runTicks. cbn [foldl]. fold (runTicks ticks (timerTick t w)).
    rewrite timerTick_running by done.
    destruct (IH (modify (λ gs, withElapsedTime
                            (t - default 0%Z (startTime gs))%Z gs) w))
      as [Ht' Hgs']; [done..|].
    split; [done|]. intros gs' ->. specialize (Hgs' _ eq_refl).
    revert Hgs'. unfold withElapsedTime. state_simpl.
    by intros [= -> -> -> -> -> -> -> -> ->].
Qed.

(** X15: the clock does not drift.  Once [startTimer] has run at the
    instant [now] on a session that is not completed, after any number
    of ticks the elapsed time is what it was before plus the time since
    [now], read at the last tick (however many ticks came before and
    whenever); the ticks change no other field of the session. *)
Theorem clock_counts_time_played now w ticks t :
  let w' := runTicks (ticks ++ [t]) (startTimer now w) in
  isCompleted (gameState w) = false →
  elapsedTime (gameState w') = (elapsedTime (gameState w) + (t - now))%Z
  ∧ timerInterval w' = true
  ∧ startTime (gameState w') = Some (now - elapsedTime (gameState w))%Z
  ∧ sameGame (gameState w) (gameState w')
  ∧ userValues (gameState w') = userValues (gameState w)
  ∧ possibleNumbers (gameState w') = possibleNumbers (gameState w)
  ∧ selectedCell (gameState w') = selectedCell (gameState w)
  ∧ isCompleted (gameState w') = false
  ∧ showErrors (gameState w') = showErrors (gameState w)
  ∧ localStorage w' = localStorage w.
Proof.
  intros w' Hc. subst w'. unfold runTicks. rewrite foldl_app. cbn [foldl].
  fold (runTicks ticks (startTimer now w)).
  assert (Ht0 : timerInterval (startTimer now w) = true) by done.
  assert (Hc0 : isCompleted (gameState (startTimer now w)) = false)
    by by rewrite gameState_startTimer.
  destruct (runTicks_running ticks _ Ht0 Hc0) as [Ht Hgs].
  specialize (Hgs _ eq_refl).
  assert (Hc1 : isCompleted (gameState (runTicks ticks (startTimer now w)))
                = false).
  { apply (f_equal isCompleted) in Hgs. revert Hgs.
    rewrite gameState_startTimer. state_simpl. by intros ->. }
  assert (Hstore : ∀ l v, localStorage (runTicks l v) = localStorage v).
  { induction l as [|x l IH]; intros v; [done|].
    unfold runTicks. cbn [foldl]. fold (runTicks l (timerTick x v)).
    rewrite IH. unfold timerTick. destruct (timerInterval v); [|done].
    by destruct (negb _). }
  rewrite timerTick_running by done. state_simpl.
  pose proof (f_equal startTime Hgs) as Hstart.
  pose proof (f_equal puzzle Hgs) as Hp.
  pose proof (f_equal solution Hgs) as Hsol.
  pose proof (f_equal userValues Hgs) as Hu.
  pose proof (f_equal possibleNumbers Hgs) as Hn.
  pose proof (f_equal selectedCell Hgs) as Hsel.
  pose proof (f_equal showErrors Hgs) as Herr.
  rewrite gameState_startTimer in Hstart, Hp, Hsol, Hu, Hn, Hsel, Herr.
  revert Hstart Hp Hsol Hu Hn Hsel Herr. unfold sameGame. state_simpl.
  intros -> -> -> -> -> -> ->. cbn [default]. unfold id.
  split; [lia|]. do 8 (split; [done|]).
  rewrite Hstore. unfold startTimer, stopTimer.
  by destruct (timerInterval w).
Qed.

Lemma clock_counts_time_played_witness :
  elapsedTime
    (gameState (runTicks ([1000%Z; 2000%Z] ++ [2500%Z])
                  (startTimer 40 almostDone)))
  = 2460%Z.
Proof.
  by destruct (clock_counts_time_played 40 almostDone [1000%Z; 2000%Z] 2500
                 eq_refl)
    as [-> _].
Defined.





(** ** The stored session *)

Lemma rejects_saveGameState w :
  storageRejectsWrites (saveGameState w) = storageRejectsWrites w.
Proof. unfold saveGameState. by destruct (storageRejectsWrites w) eqn:H. Qed.

Lemma rejects_stopTimer w :
  storageRejectsWrites (stopTimer w) = storageRejectsWrites w.
Proof. unfold stopTimer. by destruct (timerInterval w). Qed.

Lemma rejects_startTimer now w :
  storageRejectsWrites (startTimer now w) = storageRejectsWrites w.
Proof. unfold startTimer. state_simpl. apply rejects_stopTimer. Qed.

Lemma rejects_checkCompletion w :
  storageRejectsWrites (checkCompletion w) = storageRejectsWrites w.
Proof.
  unfold checkCompletion.
  destruct (checkBoardState (gameState w)) as [[[] []] ?];
    rewrite ?rejects_saveGameState; state_simpl;
    rewrite ?rejects_stopTimer; done.
Qed.

Lemma rejects_setFinalValue index num w :
  storageRejectsWrites (setFinalValue index num w) = storageRejectsWrites w.
Proof. unfold setFinalValue. by rewrite rejects_checkCompletion. Qed.

Lemma rejects_togglePossibleNumber index num w :
  storageRejectsWrites (togglePossibleNumber index num w)
  = storageRejectsWrites w.
Proof. unfold togglePossibleNumber. by destruct (negb _). Qed.

Lemma rejects_clearCell index w :
  storageRejectsWrites (clearCell index w) = storageRejectsWrites w.
Proof.
  unfold clearCell. destruct (cellIs _ _ _ _); [|done].
  by rewrite rejects_saveGameState.
Qed.

Lemma rejects_autoFillPossibleNumbers index w :
  storageRejectsWrites (autoFillPossibleNumbers index w)
  = storageRejectsWrites w.
Proof.
  unfold autoFillPossibleNumbers. destruct (_ || _); [done|].
  by rewrite rejects_saveGameState.
Qed.

Lemma rejects_dispatch e w w' :
  dispatch e w = Some w' →
  storageRejectsWrites w' = storageRejectsWrites w.
Proof.
  destruct e; cbn [dispatch].
  - unfold startNewGame.
    destruct (generateSolution _) as [[sol rng1]|]; [|done].
    cbn [mbind option_bind].
    destruct (generatePuzzle _ _ _) as [[puz rng2]|]; [|done].
    cbn [mbind option_bind]. intros [= <-].
    by rewrite rejects_saveGameState, rejects_startTimer.
  - intros [= <-]. unfold resetGame.
    by rewrite rejects_saveGameState, rejects_startTimer.
  - intros [= <-]. unfold clearAllNotes. by rewrite rejects_saveGameState.
  - intros [= <-]. unfold validateBoard. cbv zeta.
    destruct (checkBoardState _) as [[? ?] []];
      by rewrite rejects_saveGameState.
  - by intros [= <-].
  - destruct (selectedCell (gameState w)); intros [= <-]; [|done].
    apply rejects_autoFillPossibleNumbers.
  - destruct (selectedCell (gameState w)); intros [= <-]; [|done].
    apply rejects_clearCell.
  - intros [= <-].
    destruct (handleKeyDown_cases key shiftKey now w)
      as [->|[(index & cell & _ & _ & _ & ->)|(index & _ & _ & _ & Hedit)]].
    + done.
    + by rewrite rejects_saveGameState.
    + destruct Hedit as [->|[->|[->| ->]]]; rewrite rejects_saveGameState.
      * apply (rejects_setFinalValue index).
      * apply (rejects_togglePossibleNumber index).
      * apply rejects_clearCell.
      * done.
  - by intros [= <-].
  - intros [= <-]. unfold handleCellClick. by rewrite rejects_saveGameState.
  - intros [= <-].
    destruct (handleCellDoubleClick_guarded index w)
      as [->|[->|(_ & _ & v & _ & ->)]].
    + done.
    + apply rejects_autoFillPossibleNumbers.
    + rewrite rejects_saveGameState. apply rejects_setFinalValue.
  - by intros [= <-].
  - intros [= <-]. unfold timerTick.
    destruct (timerInterval w); [|done]. by destruct (negb _).
Qed.

Lemma boardStored_save w :
  storageRejectsWrites w = false → boardStored (saveGameState w).
Proof.
  intros Hrej. unfold boardStored, saveGameState. rewrite Hrej.
  exists (stateToSave (gameState w)). by repeat split.
Qed.

Lemma boardStored_same w w' :
  localStorage w' = localStorage w →
  sameGame (gameState w) (gameState w') →
  userValues (gameState w') = userValues (gameState w) →
  possibleNumbers (gameState w') = possibleNumbers (gameState w) →
  isCompleted (gameState w') = isCompleted (gameState w) →
  showErrors (gameState w') = showErrors (gameState w) →
  boardStored w → boardStored w'.
Proof.
  intros Hl [Hp Hs] Hu Hn Hc He (saved & ? & ? & ? & ? & ? & ? & ?).
  exists saved. rewrite Hl, Hp, Hs, Hu, Hn, Hc, He. by repeat split.
Qed.

Lemma boardStored_dispatch e w w' :
  storageRejectsWrites w = false →
  boardStored w ∨ (∃ now1 now2, e = NewGameClick now1 now2) →
  dispatch e w = Some w' →
  boardStored w' ∧ storageRejectsWrites w' = false.
Proof.
  intros Hrej Hstored Hw'.
  split; [|by rewrite (rejects_dispatch e w w' Hw')].
  assert (Hsave : ∀ v, storageRejectsWrites v = storageRejectsWrites w →
                       boardStored (saveGameState v)).
  { intros v Hv. apply boardStored_save. by rewrite Hv. }
  destruct e; cbn [dispatch] in Hw'.
  - revert Hw'. unfold startNewGame.
    destruct (generateSolution _) as [[sol rng1]|]; [|done].
    cbn [mbind option_bind].
    destruct (generatePuzzle _ _ _) as [[puz rng2]|]; [|done].
    cbn [mbind option_bind]. intros [= <-].
    apply Hsave. by rewrite rejects_startTimer.
  - injection Hw' as <-. apply Hsave. by rewrite rejects_startTimer.
  - injection Hw' as <-. by apply Hsave.
  - injection Hw' as <-. unfold validateBoard. cbv zeta.
    destruct (checkBoardState _) as [[? ?] []]; by apply Hsave.
  - injection Hw' as <-. destruct Hstored as [Hstored|(? & ? & [=])].
    by eapply boardStored_same.
  - destruct Hstored as [Hstored|(? & ? & [=])].
    destruct (selectedCell (gameState w)) as [cell|]; injection Hw' as <-;
      [|done].
    unfold hideContextMenu, autoFillPossibleNumbers.
    destruct (_ || _); [done|]. by apply Hsave.
  - destruct Hstored as [Hstored|(? & ? & [=])].
    destruct (selectedCell (gameState w)) as [cell|]; injection Hw' as <-;
      [|done].
    unfold hideContextMenu, clearCell.
    destruct (cellIs _ _ _ _); [|done]. by apply Hsave.
  - destruct Hstored as [Hstored|(? & ? & [=])]. injection Hw' as <-.
    destruct (handleKeyDown_cases key shiftKey now w)
      as [->|[(index & cell & _ & _ & _ & ->)|(index & _ & _ & _ & Hedit)]].
    + done.
    + by apply Hsave.
    + destruct Hedit as [->|[->|[->| ->]]]; apply Hsave.
      * apply (rejects_setFinalValue index).
      * apply (rejects_togglePossibleNumber index).
      * apply rejects_clearCell.
      * done.
  - destruct Hstored as [Hstored|(? & ? & [=])]. by injection Hw' as <-.
  - injection Hw' as <-. by apply Hsave.
  - destruct Hstored as [Hstored|(? & ? & [=])]. injection Hw' as <-.
    destruct (handleCellDoubleClick_guarded index w)
      as [->|[->|(_ & _ & v & _ & ->)]].
    + done.
    + unfold autoFillPossibleNumbers. destruct (_ || _); [done|].
      by apply Hsave.
    + apply Hsave. apply rejects_setFinalValue.
  - destruct Hstored as [Hstored|(? & ? & [=])]. injection Hw' as <-.
    by eapply boardStored_same.
  - destruct Hstored as [Hstored|(? & ? & [=])]. injection Hw' as <-.
    unfold timerTick. destruct (timerInterval w); [|done].
    destruct (negb _); [|done]. by eapply boardStored_same.
Qed.

(** X17: the stored session never falls behind the board.  In a
    session with 9x9 grids and 81 note sets whose selection is a cell of
    the board, and while the storage accepts writes: once the stored
    session holds the puzzle, the solution, the user values, the notes
    and the two flags of the running session, it does so after every
    listener that is given a cell of the board, and the session is again
    of that kind; "new game" makes it so whatever was stored before. *)
Theorem board_always_stored e w w' :
  wfState (gameState w) → selectionOnBoard (gameState w) → eventOnBoard e →
  storageRejectsWrites w = false →
  boardStored w ∨ (∃ now1 now2, e = NewGameClick now1 now2) →
  dispatch e w = Some w' →
  boardStored w' ∧ storageRejectsWrites w' = false
  ∧ wfState (gameState w') ∧ selectionOnBoard (gameState w').
Proof.
  intros Hwf Hsel He Hrej Hstored Hw'.
  destruct (boardStored_dispatch e w w' Hrej Hstored Hw') as [Hs Hr].
  destruct (dispatch_wfState e w w' Hwf Hsel He Hw') as [Hwf' Hsel'].
  split; [exact Hs|]. split; [exact Hr|]. split; [exact Hwf'|exact Hsel'].
Qed.

Lemma board_always_stored_witness :
  boardStored (handleKeyDown "4" true 7 (saveGameState almostDone))
  ∧ wfState (gameState (handleKeyDown "4" true 7 (saveGameState almostDone))).
Proof.
  destruct (board_always_stored (KeyDown "4" true 7) (saveGameState almostDone)
              (handleKeyDown "4" true 7 (saveGameState almostDone)))
    as (Hstored & _ & Hwf & _).
  - exact wfState_almostDone.
  - intros index [= <-]. lia.
  - exact I.
  - reflexivity.
  - left. by apply boardStored_save.
  - reflexivity.
  - by split.
Defined.

Lemma startTimer_frame now v :
  difficultySelect (startTimer now v) = difficultySelect v
  ∧ localStorage (startTimer now v) = localStorage v
  ∧ random (startTimer now v) = random v
  ∧ statusText (startTimer now v) = statusText v
  ∧ timerInterval (startTimer now v) = true.
Proof. unfold startTimer, stopTimer. by destruct (timerInterval v). Qed.


(** ** Validation and completion *)







(** ** The board on the screen *)

Lemma elem_of_cell_classes (x : string) (body : list string)
    (selected completed : bool) :
  x ∈ (if completed
       then (if selected then ("cell" :: body) ++ ["selected"]
             else "cell" :: body) ++ ["completed"]
       else if selected then ("cell" :: body) ++ ["selected"]
            else "cell" :: body)
  ↔ x = "cell" ∨ x ∈ body ∨ (x = "selected" ∧ selected = true)
    ∨ (x = "completed" ∧ completed = true).
Proof.
  destruct selected, completed;
    rewrite ?elem_of_app, ?elem_of_cons, ?elem_of_nil;
    intuition discriminate.
Qed.

Lemma createCellElement_classes gs index :
  wfState gs → index < 81 →
  ∃ cell,
    createCellElement gs index (index / 9) (index mod 9) = Some cell
    ∧ dataIndex cell = index
    ∧ ("initial" ∈ classList cell
       ↔ get (puzzle gs) (index / 9) (index mod 9) ≠ Some 0%Z)
    ∧ ("error" ∈ classList cell
       ↔ get (puzzle gs) (index / 9) (index mod 9) = Some 0%Z
         ∧ get (userValues gs) (index / 9) (index mod 9) ≠ Some 0%Z
         ∧ showErrors gs = true
         ∧ get (userValues gs) (index / 9) (index mod 9)
           ≠ get (solution gs) (index / 9) (index mod 9))
    ∧ ("selected" ∈ classList cell ↔ selectedCell gs = Some index)
    ∧ ("completed" ∈ classList cell ↔ isCompleted gs = true).
Proof.
  intros (_ & _ & _ & Hlen) Hindex. unfold createCellElement.
  destruct (lookup_lt_is_Some_2 (possibleNumbers gs) index) as [s Hs]; [lia|].
  rewrite Hs. cbv zeta.
  match goal with |- context [mbind _ ?b] => set (body := b) end.
  assert (Hbody : ∃ classes content,
    body = Some (classes, content)
    ∧ ("initial" ∈ classes
       ↔ get (puzzle gs) (index / 9) (index mod 9) ≠ Some 0%Z)
    ∧ ("error" ∈ classes
       ↔ get (puzzle gs) (index / 9) (index mod 9) = Some 0%Z
         ∧ get (userValues gs) (index / 9) (index mod 9) ≠ Some 0%Z
         ∧ showErrors gs = true
         ∧ get (userValues gs) (index / 9) (index mod 9)
           ≠ get (solution gs) (index / 9) (index mod 9))
    ∧ ("selected" ∉ classes) ∧ ("completed" ∉ classes)).
  { subst body. case_bool_decide as Hp; cbn [negb].
    - case_bool_decide as Hu; cbn [negb].
      + exists [], (if 0 <? setSize s then createPossibleNumbersHTML s
                    else NoContent).
        split; [by destruct (0 <? setSize s)|].
        rewrite !elem_of_nil. tauto.
      + eexists _, _. split; [reflexivity|].
        destruct (showErrors gs); cbn [andb]; try case_bool_decide;
          cbn [negb]; rewrite ?elem_of_cons, ?elem_of_nil;
          intuition discriminate.
    - eexists _, _. split; [reflexivity|].
      rewrite ?elem_of_cons, ?elem_of_nil. intuition discriminate. }
  destruct Hbody as (classes & content & -> & Hinit & Herr & Hsel & Hcompl).
  cbn [mbind option_bind fst snd].
  eexists. split; [reflexivity|]. cbn [classList dataIndex].
  split; [reflexivity|]. rewrite !elem_of_cell_classes.
  rewrite <- Hinit, <- Herr, bool_decide_eq_true.
  intuition discriminate.
Qed.


Lemma boardCells_Some gs :
  wfState gs → ∃ cells, boardCells gs = Some cells ∧ length cells = 81.
Proof.
  intros Hwf. unfold boardCells.
  destruct (mapM (λ i, createCellElement gs i (i / 9) (i mod 9)) (seq 0 81))
    as [cells|] eqn:Hcells.
  - exists cells. split; [done|].
    apply mapM_Some, Forall2_length in Hcells. by rewrite <- Hcells.
  - apply mapM_None, Exists_exists in Hcells as (i & Hin & Hnone).
    apply elem_of_seq in Hin.
    destruct (createCellElement_classes gs i Hwf) as (cell & Hcell & _);
      [lia|congruence].
Qed.




Lemma mapM_ext_all {A B} (f g : A → option B) l :
  (∀ x, f x = g x) → mapM f l = mapM g l.
Proof.
  intros Hfg. induction l as [|x l IH]; [done|].
  cbn [mapM]. by rewrite Hfg, IH.
Qed.

Lemma setFromArray_nil (s : list Z) : setFromArray s = [] ↔ s = [].
Proof.
  split; [|by intros ->]. destruct s as [|x s]; [done|]. intros Hnil.
  assert (Hin : x ∈ setFromArray (x :: s))
    by (apply elem_of_setFromArray; by left).
  rewrite Hnil in Hin. by apply elem_of_nil in Hin.
Qed.

Lemma arrayFromSet_fmap (l : list (list Z)) : arrayFromSet <$> l = l.
Proof. exact (list_fmap_id l). Qed.

(** A cell is drawn from the two grids, the flags, the selection and,
    of its notes, from which numbers they hold. *)
Lemma createCellElement_ext gs gs' index row col :
  puzzle gs' = puzzle gs → solution gs' = solution gs →
  userValues gs' = userValues gs →
  showErrors gs' = showErrors gs → selectedCell gs' = selectedCell gs →
  isCompleted gs' = isCompleted gs →
  possibleNumbers gs' = setFromArray <$> possibleNumbers gs →
  createCellElement gs' index row col = createCellElement gs index row col.
Proof.
  intros Hp Hs Hu He Hsel Hc Hn. unfold createCellElement.
  rewrite Hp, Hs, Hu, He, Hsel, Hc, Hn, list_lookup_fmap.
  destruct (possibleNumbers gs !! index) as [s|]; [|done].
  cbn [fmap option_fmap option_map].
  assert (Hsize : (0 <? setSize (setFromArray s)) = (0 <? setSize s)).
  { unfold setSize. destruct s as [|x s]; [done|].
    destruct (setFromArray (x :: s)) eqn:Hnil; [|done].
    discriminate (proj1 (setFromArray_nil _) Hnil). }
  assert (Hhtml : createPossibleNumbersHTML (setFromArray s)
                  = createPossibleNumbersHTML s).
  { unfold createPossibleNumbersHTML. f_equal. apply list_fmap_ext.
    intros _ n _. unfold setHas.
    by rewrite (bool_decide_ext _ _ (elem_of_setFromArray s n)). }
  by rewrite Hsize, Hhtml.
Qed.

(** What is drawn does not change over a save and a load. *)
Lemma boardCells_reload w w0 now :
  storageRejectsWrites w = false →
  let stored := localStorage (saveGameState w) in
  let loaded := loadGameState now (withLocalStorage stored w0) in
  loaded.1 = true
  ∧ boardCells (gameState loaded.2) = boardCells (gameState w)
  ∧ elapsedTime (gameState loaded.2) = elapsedTime (gameState w)
  ∧ difficultySelect loaded.2 = difficulty (gameState w).
Proof.
  intros Hrej stored loaded. subst stored loaded.
  unfold saveGameState. rewrite Hrej. state_simpl.
  unfold loadGameState. state_simpl. cbv zeta. cbn [fst snd].
  split; [done|].
  unfold stateToSave. state_simpl.
  cbn [saved_puzzle saved_solution saved_userValues saved_possibleNumbers
       saved_selectedCell saved_difficulty saved_elapsedTime saved_isCompleted
       saved_showErrors orZero orFalse default from_option].
  unfold id.
  destruct (isCompleted (gameState w)) eqn:Hc; cbn [negb]; state_simpl.
  - split; [|done]. unfold boardCells. apply mapM_ext_all. intros i.
    apply createCellElement_ext; state_simpl;
      rewrite ?arrayFromSet_fmap, ?Hc; done.
  - rewrite gameState_startTimer. state_simpl.
    split; [|split; [done|]].
    + unfold boardCells. apply mapM_ext_all. intros i.
      apply createCellElement_ext; state_simpl;
        rewrite ?arrayFromSet_fmap, ?Hc; done.
    + by rewrite (proj1 (startTimer_frame _ _)).
Qed.

(** X21: a reload draws the same board.  After a session with 9x9
    grids, 81 note sets and a difficulty that the selector offers has
    been saved, loading it (in any page state) succeeds and gives a
    session for which [renderBoard] draws the 81 cells it drew before:
    the same values, notes, error marks, selection and completion
    marks. *)
Theorem reload_draws_same_board w w0 now :
  wfState (gameState w) → difficulty (gameState w) ∈ difficultyKeys →
  storageRejectsWrites w = false →
  let stored := localStorage (saveGameState w) in
  let loaded := loadGameState now (withLocalStorage stored w0) in
  loaded.1 = true
  ∧ (∃ cells,
       boardCells (gameState w) = Some cells
       ∧ boardCells (gameState loaded.2) = Some cells
       ∧ length cells = 81)
  ∧ elapsedTime (gameState loaded.2) = elapsedTime (gameState w)
  ∧ difficultySelect loaded.2 = difficulty (gameState w).
Proof.
  intros Hwf _ Hrej stored loaded.
  destruct (boardCells_reload w w0 now Hrej) as (Htrue & Hcells & He & Hd).
  fold stored loaded in Htrue, Hcells, He, Hd.
  destruct (boardCells_Some _ Hwf) as (cells & Hdraw & Hlen).
  split; [done|]. split; [|done].
  exists cells. by rewrite Hcells.
Qed.

Lemma reload_draws_same_board_witness :
  ∃ cells,
    boardCells (gameState almostDone) = Some cells
    ∧ boardCells (gameState (loadGameState 77
        (withLocalStorage (localStorage (saveGameState almostDone))
           (worldOf initialGameState))).2) = Some cells.
Proof.
  destruct (reload_draws_same_board almostDone (worldOf initialGameState) 77)
    as (_ & (cells & Hcells & Hloaded & _) & _).
  - exact wfState_almostDone.
  - unfold difficultyKeys. rewrite !elem_of_cons. auto.
  - reflexivity.
  - by exists cells.
Defined.



(** ** The timer text *)

Lemma append_cons c (s t : string) : String c s +:+ t = String c (s +:+ t).
Proof. reflexivity. Qed.

Lemma length_append (s t : string) :
  String.length (s +:+ t) = String.length s + String.length t.
Proof.
  induction s as [|c s IH]; [done|].
  rewrite append_cons. cbn [String.length]. by rewrite IH.
Qed.

Lemma append_inj_2 (a a' b b' : string) :
  String.length b = String.length b' → a +:+ b = a' +:+ b' →
  a = a' ∧ b = b'.
Proof.
  revert a'. induction a as [|c a IH]; intros [|c' a'] Hlen Heq.
  - done.
  - apply (f_equal String.length) in Heq.
    rewrite !length_append in Heq. cbn [String.length] in Heq. lia.
  - apply (f_equal String.length) in Heq.
    rewrite !length_append in Heq. cbn [String.length] in Heq. lia.
  - rewrite !append_cons in Heq. injection Heq as -> Heq.
    destruct (IH a' Hlen Heq) as [-> ->]. done.
Qed.

(** [pretty_N_go] only puts digits in front of its accumulator. *)
Lemma pretty_N_go_length x s :
  String.length s ≤ String.length (pretty_N_go x s).
Proof.
  revert s. induction (N.lt_wf_0 x) as [x _ IH]; intros s.
  destruct (decide (x = 0)%N) as [->|Hx]; [by rewrite pretty_N_go_0|].
  rewrite pretty_N_go_step by lia.
  etrans; [|apply IH; apply N.div_lt; lia]. cbn. lia.
Qed.

Lemma pretty_Z_long (m : Z) :
  (100 ≤ m)%Z → 3 ≤ String.length (pretty m).
Proof.
  intros Hm. destruct m as [|p|p]; [lia| |lia].
  unfold pretty, pretty_Z, pretty, pretty_positive, pretty, pretty_N.
  rewrite decide_False by done.
  assert (Hp : (100 ≤ N.pos p)%N) by lia. revert Hp.
  generalize (N.pos p). intros x Hx.
  assert (10 ≤ x `div` 10)%N by (apply N.div_le_lower_bound; lia).
  assert (1 ≤ (x `div` 10) `div` 10)%N by (apply N.div_le_lower_bound; lia).
  rewrite pretty_N_go_step by lia.
  rewrite pretty_N_go_step by lia.
  rewrite pretty_N_go_step by lia.
  etrans; [|apply pretty_N_go_length]. cbn. lia.
Qed.

Lemma two_digits_short :
  ∀ m, (0 ≤ m < 100)%Z → String.length (padStart 2 "0" (pretty m)) = 2.
Proof.
  assert (H : forallb (λ k, String.length (padStart 2 "0" (pretty (Z.of_nat k)))
                            =? 2) (seq 0 100) = true) by by vm_compute.
  intros m Hm. rewrite forallb_forall in H.
  specialize (H (Z.to_nat m)). rewrite Z2Nat.id in H by lia.
  apply Nat.eqb_eq, H, list_elem_of_In, elem_of_seq. lia.
Qed.

Lemma two_digits_inj_short :
  ∀ m m', (0 ≤ m < 100)%Z → (0 ≤ m' < 100)%Z →
          padStart 2 "0" (pretty m) = padStart 2 "0" (pretty m') → m = m'.
Proof.
  assert (H : forallb (λ k, forallb (λ k',
                 implb (String.eqb (padStart 2 "0" (pretty (Z.of_nat k)))
                                   (padStart 2 "0" (pretty (Z.of_nat k'))))
                       (k =? k')) (seq 0 100)) (seq 0 100) = true)
    by by vm_compute.
  intros m m' Hm Hm' Heq. rewrite forallb_forall in H.
  specialize (H (Z.to_nat m)). rewrite forallb_forall in H.
  assert (Hin : ∀ k, (0 ≤ k < 100)%Z → In (Z.to_nat k) (seq 0 100)).
  { intros k Hk. apply list_elem_of_In, elem_of_seq. lia. }
  specialize (H (Hin m Hm) (Z.to_nat m') (Hin m' Hm')).
  rewrite !Z2Nat.id in H by lia.
  apply String.eqb_eq in Heq. rewrite Heq in H. cbn [implb] in H.
  apply Nat.eqb_eq in H. lia.
Qed.

Lemma two_digits_long m :
  (100 ≤ m)%Z → padStart 2 "0" (pretty m) = pretty m.
Proof.
  intros Hm. pose proof (pretty_Z_long m Hm) as Hlen. unfold padStart.
  by replace (2 - String.length (pretty m)) with 0 by lia.
Qed.

Lemma two_digits_inj m m' :
  (0 ≤ m)%Z → (0 ≤ m')%Z →
  padStart 2 "0" (pretty m) = padStart 2 "0" (pretty m') → m = m'.
Proof.
  intros Hm Hm' Heq.
  destruct (decide (m < 100)%Z) as [Hs|Hl], (decide (m' < 100)%Z) as [Hs'|Hl'].
  - by apply two_digits_inj_short.
  - apply (f_equal String.length) in Heq.
    rewrite (two_digits_short m), (two_digits_long m') in Heq by lia.
    pose proof (pretty_Z_long m'). lia.
  - apply (f_equal String.length) in Heq.
    rewrite (two_digits_short m'), (two_digits_long m) in Heq by lia.
    pose proof (pretty_Z_long m). lia.
  - rewrite !two_digits_long in Heq by lia. by apply (inj pretty).
Qed.

(** X22: the timer shows whole seconds faithfully.  For elapsed times
    that are not negative, two timer texts are equal exactly when the
    elapsed whole seconds are; below 100 minutes the text has the eleven
    characters of [Time: MM:SS]. *)
Theorem timerText_shows_seconds e1 e2 :
  (0 ≤ e1)%Z → (0 ≤ e2)%Z →
  (timerText e1 = timerText e2 ↔ (e1 `div` 1000 = e2 `div` 1000)%Z)
  ∧ ((e1 < 6000000)%Z → String.length (timerText e1) = 11).
Proof.
  intros H1 H2.
  assert (Hsec : ∀ e, (0 ≤ e)%Z →
            (0 ≤ (e `div` 1000) `div` 60)%Z
            ∧ (0 ≤ (e `div` 1000) `rem` 60 < 60)%Z
            ∧ (e `div` 1000 = 60 * ((e `div` 1000) `div` 60)
                              + (e `div` 1000) `rem` 60)%Z).
  { intros e He.
    assert (0 ≤ e `div` 1000)%Z by (apply Z.div_pos; lia).
    split; [apply Z.div_pos; lia|].
    rewrite Z.rem_mod_nonneg by lia.
    split; [apply Z.mod_pos_bound; lia|apply Z.div_mod; lia]. }
  destruct (Hsec e1 H1) as (Hm1 & Hs1 & Hd1).
  destruct (Hsec e2 H2) as (Hm2 & Hs2 & Hd2).
  unfold timerText. cbv zeta. split; [split|].
  - intros Heq. apply (inj (String.append "Time: ")) in Heq.
    apply append_inj_2 in Heq as [Hm Hs].
    + apply (inj (String.append ":")) in Hs.
      apply two_digits_inj in Hm; [|done..].
      apply two_digits_inj in Hs; [|lia..].
      lia.
    + rewrite !length_append. by rewrite !two_digits_short by lia.
  - by intros ->.
  - intros Hlt. rewrite !length_append. cbn [String.length].
    rewrite !two_digits_short; [done|lia|].
    split; [done|]. apply Z.div_lt_upper_bound; [lia|].
    apply Z.div_lt_upper_bound; lia.
Qed.

Lemma timerText_shows_seconds_witness :
  (timerText 61999 = timerText 61000 ↔ (61999 `div` 1000 = 61000 `div` 1000)%Z)
  ∧ String.length (timerText 61999) = 11.
Proof.
  destruct (timerText_shows_seconds 61999 61000) as [Hiff Hlen]; [lia..|].
  split; [exact Hiff|]. apply Hlen. lia.
Defined.

(** ** What the generators can produce *)

Lemma grid_ext (g h : list (list Z)) :
  wfGrid g → wfGrid h →
  (∀ r c, r < 9 → c < 9 → get g r c = get h r c) → g = h.
Proof.
  intros [Hg Hrows] [Hh Hrows'] Hget. apply list_eq. intros r.
  destruct (decide (r < 9)) as [Hr|Hr];
    [|by rewrite !lookup_ge_None_2 by lia].
  destruct (lookup_lt_is_Some_2 g r) as [row Hrow]; [lia|].
  destruct (lookup_lt_is_Some_2 h r) as [row' Hrow']; [lia|].
  rewrite Hrow, Hrow'. f_equal.
  pose proof (proj1 (Forall_lookup _ _) Hrows r row Hrow) as Hlen.
  pose proof (proj1 (Forall_lookup _ _) Hrows' r row' Hrow') as Hlen'.
  cbv beta in Hlen, Hlen'.
  apply list_eq. intros c.
  destruct (decide (c < 9)) as [Hc|Hc];
    [|by rewrite !lookup_ge_None_2 by lia].
  specialize (Hget r c Hr Hc). unfold get in Hget.
  by rewrite Hrow, Hrow' in Hget.
Qed.

Lemma Permutation_move_front (l : list Z) v :
  NoDup l → v ∈ l → v :: filter (λ x, x ≠ v) l ≡ₚ l.
Proof.
  induction l as [|a l IH]; intros Hnd Hin; [by apply elem_of_nil in Hin|].
  apply NoDup_cons in Hnd as [Ha Hnd].
  destruct (decide (a = v)) as [->|Hne].
  - rewrite filter_cons_False by (intros H; by apply H).
    f_equiv. clear IH Hin Hnd. induction l as [|b l IH]; [done|].
    apply not_elem_of_cons in Ha as [Hb Ha].
    rewrite filter_cons_True by done. f_equiv. by apply IH.
  - rewrite filter_cons_True by done.
    apply elem_of_cons in Hin as [->|Hin]; [done|].
    rewrite Permutation_swap. f_equiv. by apply IH.
Qed.

Section reach.
Variable g : list (list Z).
Hypothesis Hg : partialSudoku g.
Hypothesis Hfull : noEmptyCell g.

Lemma fillGrid_reaches fuel grid rest :
  wfGrid grid → extends grid g → countZeros grid < fuel →
  ∃ rng, fillGrid fuel grid rng = Some (true, g, rest).
Proof.
  revert grid. induction fuel as [|fuel IH]; intros grid Hwf Hext Hfuel;
    [inversion Hfuel|].
  cbn [fillGrid].
  destruct (findEmptyCell grid) as [[row col]|] eqn:Hfind.
  - destruct (findEmptyCell_Some _ _ _ Hfind) as (Hrow & Hcol & Hzero).
    destruct (cell_digit g Hg Hfull row col Hrow Hcol) as (v & Hv & Hd).
    destruct (IH (set grid row col v)) as [rng1 Hrec].
    + by apply wfGrid_set.
    + apply extends_set; [by exists 0%Z|done..].
    + rewrite (countZeros_set grid row col v) in Hfuel by (done || lia). lia.
    + destruct (shuffleArray_reaches_with digits
                  (v :: filter (λ x, x ≠ v) digits) rng1) as [rng Hshuffle].
      { apply Permutation_move_front; [apply NoDup_digits|].
        by apply elem_of_digits. }
      exists rng. rewrite Hshuffle. cbn [tryNumbers].
      assert (Hvalid : isValidPlacement grid row col v = true).
      { apply isValidPlacement_true. intros r c Hscan Hget.
        assert (Hne : (row, col) ≠ (r, c)).
        { intros [= <- <-]. rewrite Hzero in Hget. injection Hget as <-. lia. }
        destruct (scanned_peers row col r c Hrow Hcol Hscan Hne)
          as (Hr & Hc & Hpeers).
        destruct Hg as (_ & _ & Hcons).
        apply (Hcons row col r c v); [done..|lia|].
        apply Hext; [done|lia]. }
      by rewrite Hvalid, Hrec.
  - exists rest. do 3 f_equal.
    apply findEmptyCell_None in Hfind.
    apply grid_ext; [done|apply Hg|]. intros r c Hr Hc.
    destruct (wfGrid_get grid r c Hwf Hr Hc) as [v Hv].
    rewrite Hv. symmetry. apply Hext; [done|].
    intros ->. by apply (Hfind r c).
Qed.

End reach.

(** X23: the generator can produce every sudoku grid.  For each full
    grid of digits in which no digit stands twice in a row, a column or a
    box there is a sequence of random numbers under which
    [generateSolution] returns that grid (and leaves any given sequence
    for the draws that follow). *)
Theorem generateSolution_reaches g rest :
  partialSudoku g → noEmptyCell g →
  ∃ rng, generateSolution rng = Some (g, rest).
Proof.
  intros Hg Hfull.
  destruct (fillGrid_reaches g Hg Hfull 82 zeroGrid rest) as [rng Hrng].
  - apply wfGrid_zeroGrid.
  - intros r c v Hv Hnz. by apply get_zeroGrid in Hv.
  - pose proof (countZeros_wfGrid zeroGrid wfGrid_zeroGrid). lia.
  - exists rng. unfold generateSolution. by rewrite Hrng.
Qed.

Lemma generateSolution_reaches_witness :
  ∃ rng, generateSolution rng = Some (firstSolution, identityDraws).
Proof.
  apply (generateSolution_reaches firstSolution identityDraws);
    apply partialSudoku_firstSolution.
Defined.

(** X24: the carver can remove any cells.  For every choice of
    [cellsToRemove] different cells of the board there is a sequence of
    random numbers under which [generatePuzzle] blanks exactly these
    cells, in the order given. *)
Theorem generatePuzzle_reaches solution difficulty level cells rest :
  wfGrid solution → DIFFICULTY_LEVELS difficulty = Some level →
  NoDup cells → length cells = cellsToRemove level →
  (∀ pos, pos ∈ cells → pos < 81) →
  ∃ rng,
    generatePuzzle solution difficulty rng
    = Some (zeroCells solution cells, rest).
Proof.
  intros _ Hlevel Hnd Hlen Hbound.
  destruct (shuffleArray_reaches_with (seq 0 81)
              (cells ++ filter (λ pos, pos ∉ cells) (seq 0 81)) rest)
    as [rng Hrng].
  { apply NoDup_Permutation.
    - apply NoDup_app. split; [done|]. split.
      + intros pos Hin Hin'. by apply list_elem_of_filter in Hin' as [? _].
      + apply NoDup_filter, NoDup_seq.
    - apply NoDup_seq.
    - intros pos. rewrite elem_of_app, list_elem_of_filter, elem_of_seq.
      split.
      + intros [Hin|[_ ?]]; [|done]. apply Hbound in Hin. lia.
      + intros Hpos. destruct (decide (pos ∈ cells)); [by left|by right]. }
  exists rng. unfold generatePuzzle. rewrite Hlevel. cbn [mbind option_bind].
  rewrite Hrng, removeCells_zeroCells, list_fmap_id, Nat.sub_0_r, <- Hlen.
  by rewrite take_app_length.
Qed.

Lemma generatePuzzle_reaches_witness :
  ∃ rng,
    generatePuzzle firstSolution "low" rng
    = Some (zeroCells firstSolution (seq 3 30), identityDraws).
Proof.
  apply (generatePuzzle_reaches firstSolution "low"
           {| cellsToRemove := 30; levelName := "Low" |} (seq 3 30)).
  - apply partialSudoku_firstSolution.
  - reflexivity.
  - apply NoDup_seq.
  - reflexivity.
  - intros pos Hin. apply elem_of_seq in Hin. lia.
Defined.

(** ** Selecting and clearing a cell *)







